(** * mdspp::List — a shallow embedding of Sources/List.hpp

    The array list of the repository is a C++ class holding three fields
    (size_, capacity_, data_) where data_ owns a heap buffer.  Several of its
    member functions test object identity (this == &that), free and
    reallocate the buffer, and receive elements by const reference into a
    buffer.  The embedding therefore keeps an explicit store: list objects
    live at addresses, buffers live at heap locations, and every member
    function is a computation over that store which can return, throw a C++
    exception, or run into undefined behaviour. *)

From stdpp Require Import gmap list relations.

Open Scope Z_scope.

(** ** Machine integers and class constants *)

Definition INT_MAX : Z := 2147483647.
Definition INT_MIN : Z := -2147483648.

(** static const int INIT_CAPACITY = 4; *)
Definition INIT_CAPACITY : Z := 4.

(** static const int MAX_CAPACITY = INT_MAX - 1; *)
Definition MAX_CAPACITY : Z := INT_MAX - 1.

Abbreviation addr := positive (only parsing).
Abbreviation loc := positive (only parsing).

(** ** Outcomes *)

(** The exceptions the container raises (all are std::runtime_error in the
    source; the kinds follow the error taxonomy of the specification). *)
Inductive exn : Set :=
  | IndexOutOfRange
  | EmptyContainer
  | CapacityExceeded
  | InvalidArgument.

(** Undefined behaviour of the C++ abstract machine. *)
Inductive fault : Set :=
  | OutOfBounds      (* subscript outside the allocated buffer *)
  | Dangling         (* access to, or delete[] of, a freed buffer *)
  | Indeterminate    (* read of a slot that was never written *)
  | Overflow         (* signed int overflow *)
  | BadLength        (* new T[n] with a negative n *)
  | NoObject.        (* member access through a dead object *)

Inductive result (W A : Type) : Type :=
  | Ok (a : A) (w : W)
  | Throw (e : exn) (w : W)
  | Fault (f : fault)
  | OutOfFuel.

Arguments Ok {W A} a w.
Arguments Throw {W A} e w.
Arguments Fault {W A} f.
Arguments OutOfFuel {W A}.

#[global] Instance exn_eq_dec : EqDecision exn.
Proof. solve_decision. Defined.

(** ** The monad: fuel for loops, the store, and the three ways to stop *)

Definition M (W A : Type) : Type := nat → W → result W A.

Definition ret {W A} (a : A) : M W A := fun _ w => Ok a w.

Definition bind {W A B} (m : M W A) (k : A → M W B) : M W B :=
  fun fuel w =>
    match m fuel w with
    | Ok a w' => k a fuel w'
    | Throw e w' => Throw e w'
    | Fault f => Fault f
    | OutOfFuel => OutOfFuel
    end.

Definition throw {W A} (e : exn) : M W A := fun _ w => Throw e w.
Definition undefined {W A} (f : fault) : M W A := fun _ _ => Fault f.

Declare Scope cpp_scope.
Delimit Scope cpp_scope with cpp.
Notation "x <- m ;; k" := (bind m (fun x => k))
  (at level 100, m at next level, right associativity) : cpp_scope.
Notation "m ;;; k" := (bind m (fun _ => k))
  (at level 100, right associativity) : cpp_scope.
Open Scope cpp_scope.

(** Loops.  A loop body either goes on with a new value of the loop
    variables or leaves the function ([return] or [break] inside the loop).
    The condition is evaluated again before every iteration, in the store
    the previous iteration left.  Every loop may run for [fuel] iterations,
    [fuel] being the budget the whole computation was started with. *)
Inductive flow (S R : Type) : Type :=
  | Next (s : S)
  | Leave (r : R).
Arguments Next {S R} s.
Arguments Leave {S R} r.

Fixpoint iterate {W S R} (n : nat) (cond : S → M W bool)
    (body : S → M W (flow S R)) (s : S) : M W (flow S R) :=
  match n with
  | O => fun _ _ => OutOfFuel
  | Datatypes.S n' =>
      b <- cond s ;;
      if b : bool then
        r <- body s ;;
        match r with
        | Next s' => iterate n' cond body s'
        | Leave v => ret (Leave v)
        end
      else ret (Next s)
  end.

Definition loop {W S R} (cond : S → M W bool) (body : S → M W (flow S R))
    (s : S) : M W (flow S R) :=
  fun fuel w => iterate fuel cond body s fuel w.

(** A signed int: an arithmetic result outside the range is undefined
    behaviour. *)
Definition int {W} (z : Z) : M W Z :=
  if decide (INT_MIN ≤ z ≤ INT_MAX) then ret z else undefined Overflow.

(** (int) of a size_t: the conversion wraps around. *)
Definition to_int (z : Z) : Z := (z + 2 ^ 31) `mod` 2 ^ 32 - 2 ^ 31.

Section ArrayList.

Context {T : Type} `{EqDecision T}.

(** ** The store *)

(** class List { int size_; int capacity_; T* data_; } *)
Record List_ : Type := mkList { size_ : Z; capacity_ : Z; data_ : loc }.

(** A buffer slot is [None] until it is first written: [new T[n]] leaves the
    elements of a scalar type indeterminate. *)
Local Abbreviation buffer := (list (option T)) (only parsing).

(** [expansions] is a ghost counter: it counts the calls of expand_capacity
    and is never read by the program. *)
Record world : Type := mkWorld {
  objs : gmap addr List_;
  heap : gmap loc buffer;
  expansions : nat
}.

Definition set_objs (f : gmap addr List_ → gmap addr List_) (w : world) : world :=
  mkWorld (f (objs w)) (heap w) (expansions w).
Definition set_heap (f : gmap loc buffer → gmap loc buffer) (w : world) : world :=
  mkWorld (objs w) (f (heap w)) (expansions w).
Definition tick_expansions (w : world) : world :=
  mkWorld (objs w) (heap w) (S (expansions w)).

Definition empty_world : world := mkWorld ∅ ∅ 0%nat.

Local Abbreviation M' := (M world).

(** *** Fields of a list object *)

Definition get_obj (a : addr) : M' List_ :=
  fun _ w => match objs w !! a with
             | Some o => Ok o w
             | None => Fault NoObject
             end.

Definition put_obj (a : addr) (f : List_ → List_) : M' unit :=
  fun _ w => match objs w !! a with
             | Some o => Ok tt (set_objs <[a := f o]> w)
             | None => Fault NoObject
             end.

Definition get_size (a : addr) : M' Z := o <- get_obj a ;; ret (size_ o).
Definition get_capacity (a : addr) : M' Z := o <- get_obj a ;; ret (capacity_ o).
Definition get_data (a : addr) : M' loc := o <- get_obj a ;; ret (data_ o).

Definition put_size (a : addr) (v : Z) : M' unit :=
  put_obj a (fun o => mkList v (capacity_ o) (data_ o)).
Definition put_capacity (a : addr) (v : Z) : M' unit :=
  put_obj a (fun o => mkList (size_ o) v (data_ o)).
Definition put_data (a : addr) (p : loc) : M' unit :=
  put_obj a (fun o => mkList (size_ o) (capacity_ o) p).

(** Storage for a new object, and its release. *)
Definition new_obj (o : List_) : M' addr :=
  fun _ w => let a := fresh (dom (objs w)) in Ok a (set_objs <[a := o]> w).

Definition free_obj (a : addr) : M' unit :=
  fun _ w => match objs w !! a with
             | Some _ => Ok tt (set_objs (delete a) w)
             | None => Fault NoObject
             end.

(** *** Buffers *)

(** new T[n] *)
Definition new_array (n : Z) : M' loc :=
  fun _ w =>
    if decide (0 ≤ n) then
      let p := fresh (dom (heap w)) in
      Ok p (set_heap <[p := replicate (Z.to_nat n) None]> w)
    else Fault BadLength.

(** delete[] p *)
Definition delete_array (p : loc) : M' unit :=
  fun _ w => match heap w !! p with
             | Some _ => Ok tt (set_heap (delete p) w)
             | None => Fault Dangling
             end.

(** p[i] as an rvalue *)
Definition load (p : loc) (i : Z) : M' T :=
  fun _ w =>
    match heap w !! p with
    | None => Fault Dangling
    | Some b =>
        if decide (0 ≤ i) then
          match b !! Z.to_nat i with
          | Some (Some x) => Ok x w
          | Some None => Fault Indeterminate
          | None => Fault OutOfBounds
          end
        else Fault OutOfBounds
    end.

(** p[i] = x *)
Definition store (p : loc) (i : Z) (x : T) : M' unit :=
  fun _ w =>
    match heap w !! p with
    | None => Fault Dangling
    | Some b =>
        if decide (0 ≤ i < Z.of_nat (length b)) then
          Ok tt (set_heap <[p := <[Z.to_nat i := Some x]> b]> w)
        else Fault OutOfBounds
    end.

(** A parameter of type [const T&]: either a temporary holding a value or a
    reference to a slot of some buffer, read when the callee uses it. *)
Inductive cref : Type :=
  | Val (x : T)
  | Slot (p : loc) (i : Z).

Definition deref (r : cref) : M' T :=
  match r with
  | Val x => ret x
  | Slot p i => load p i
  end.

Definition tick : M' unit := fun _ w => Ok tt (tick_expansions w).

(** *** The validation helpers *)

(** Modelled from the spec: common/check_bounds.hpp is not among the
    sources.  The bounds validator takes (index, lower inclusive, upper
    exclusive) and fails with IndexOutOfRange when the index is outside the
    range; otherwise it does nothing. *)
Definition check_bounds (pos lower upper : Z) : M' unit :=
  if decide (lower ≤ pos < upper) then ret tt else throw IndexOutOfRange.

(** Modelled from the spec: common/check_empty.hpp is not among the
    sources.  The validator fails with EmptyContainer given a current size
    of zero; otherwise it does nothing. *)
Definition check_empty (size : Z) : M' unit :=
  if decide (size = 0) then throw EmptyContainer else ret tt.

(** Modelled from the spec: common/check_full.hpp is not among the sources.
    The validator fails with CapacityExceeded when the current size has
    reached the maximum; otherwise it does nothing. *)
Definition check_full (size maximum : Z) : M' unit :=
  if decide (maximum ≤ size) then throw CapacityExceeded else ret tt.

(** Modelled from the spec: common/swap.hpp is not among the sources.  The
    element-wise swap exchanges the values of its two arguments, here two
    slots of one buffer. *)
Definition swap_slots (p : loc) (i j : Z) : M' unit :=
  x <- load p i ;;
  y <- load p j ;;
  store p i y ;;;
  store p j x.

(** ** The member functions of List<T> *)

(** The copy loop that expand_capacity, the copy constructor and the copy
    assignment share:
    for (int i = 0; i < size_; ++i) { dst[i] = src[i]; }
    [dst] and [src] are the two pointer expressions, read in every
    iteration. *)
Definition copy_elements (this : addr) (dst src : M' loc) : M' unit :=
  loop (R := Empty_set)
    (fun i => sz <- get_size this ;; ret (bool_decide (i < sz)))
    (fun i =>
       d <- dst ;;
       d' <- src ;;
       x <- load d' i ;;
       store d i x ;;;
       i' <- int (i + 1) ;;
       ret (Next i'))
    0 ;;;
  ret tt.

(** void expand_capacity() *)
Definition expand_capacity (this : addr) : M' unit :=
  tick ;;;
  cap <- get_capacity this ;;
  cap' <- (if decide (cap < MAX_CAPACITY `quot` 2) then int (cap * 2)
           else ret MAX_CAPACITY) ;;
  put_capacity this cap' ;;;
  n <- get_capacity this ;;
  tmp <- new_array n ;;
  copy_elements this (ret tmp) (get_data this) ;;;
  d <- get_data this ;;
  delete_array d ;;;
  put_data this tmp.

(** List() *)
Definition List_new : M' addr :=
  p <- new_array INIT_CAPACITY ;;
  new_obj (mkList 0 INIT_CAPACITY p).

(** List(const std::initializer_list<T>& il) *)
Definition List_of (il : list T) : M' addr :=
  let size := to_int (Z.of_nat (length il)) in
  let capacity := if decide (size >= INIT_CAPACITY) then size else INIT_CAPACITY in
  p <- new_array capacity ;;
  this <- new_obj (mkList size capacity p) ;;
  loop (R := Empty_set)
    (fun i => sz <- get_size this ;; ret (bool_decide (i < sz)))
    (fun i =>
       d <- get_data this ;;
       match il !! Z.to_nat i with
       | Some x => store d i x
       | None => undefined OutOfBounds
       end ;;;
       i' <- int (i + 1) ;;
       ret (Next i'))
    0 ;;;
  ret this.

(** List(const List<T>& that) *)
Definition List_copy (that : addr) : M' addr :=
  sz <- get_size that ;;
  cap <- get_capacity that ;;
  p <- new_array cap ;;
  this <- new_obj (mkList sz cap p) ;;
  copy_elements this (get_data this) (get_data that) ;;;
  ret this.

(** List(List<T>&& that) *)
Definition List_move (that : addr) : M' addr :=
  o <- get_obj that ;;
  this <- new_obj (mkList (size_ o) (capacity_ o) (data_ o)) ;;
  put_size that 0 ;;;
  put_capacity that INIT_CAPACITY ;;;
  n <- get_capacity that ;;
  p <- new_array n ;;
  put_data that p ;;;
  ret this.

(** ~List(), followed by the release of the object's own storage *)
Definition List_delete (this : addr) : M' unit :=
  d <- get_data this ;;
  delete_array d ;;;
  free_obj this.

(** A local variable of class type: constructed, used, and destroyed when
    its scope is left, by return or by an exception passing through. *)
Definition with_local {A} (ctor : M' addr) (body : addr → M' A) : M' A :=
  fun fuel w =>
    match ctor fuel w with
    | Ok a w1 =>
        match body a fuel w1 with
        | Ok r w2 => (List_delete a ;;; ret r) fuel w2
        | Throw e w2 => (List_delete a ;;; throw e) fuel w2
        | Fault f => Fault f
        | OutOfFuel => OutOfFuel
        end
    | Throw e w1 => Throw e w1
    | Fault f => Fault f
    | OutOfFuel => OutOfFuel
    end.

(** A local variable that is the function's return value: the caller gets
    the object itself; it is destroyed only when an exception leaves the
    function. *)
Definition returning_local (ctor : M' addr) (body : addr → M' unit) : M' addr :=
  fun fuel w =>
    match ctor fuel w with
    | Ok a w1 =>
        match body a fuel w1 with
        | Ok _ w2 => Ok a w2
        | Throw e w2 => (List_delete a ;;; throw e) fuel w2
        | Fault f => Fault f
        | OutOfFuel => OutOfFuel
        end
    | Throw e w1 => Throw e w1
    | Fault f => Fault f
    | OutOfFuel => OutOfFuel
    end.

(** List& operator=(const List<T>& that) *)
Definition assign (this that : addr) : M' unit :=
  if decide (this ≠ that) then
    sz <- get_size that ;;
    put_size this sz ;;;
    cap <- get_capacity that ;;
    put_capacity this cap ;;;
    d <- get_data this ;;
    delete_array d ;;;
    n <- get_capacity this ;;
    p <- new_array n ;;
    put_data this p ;;;
    copy_elements this (get_data this) (get_data that)
  else ret tt.

(** List& operator=(List<T>&& that) *)
Definition move_assign (this that : addr) : M' unit :=
  if decide (this ≠ that) then
    d <- get_data this ;;
    delete_array d ;;;
    sz <- get_size that ;;
    put_size this sz ;;;
    cap <- get_capacity that ;;
    put_capacity this cap ;;;
    d' <- get_data that ;;
    put_data this d' ;;;
    put_size that 0 ;;;
    put_capacity that INIT_CAPACITY ;;;
    n <- get_capacity that ;;
    p <- new_array n ;;
    put_data that p
  else ret tt.

(** int size() const *)
Definition size (this : addr) : M' Z := get_size this.

(** bool is_empty() const *)
Definition is_empty (this : addr) : M' bool :=
  sz <- get_size this ;; ret (bool_decide (sz = 0)).

(** bool operator==(const List<T>& that) const *)
Definition equal (this that : addr) : M' bool :=
  sz <- get_size this ;;
  sz' <- get_size that ;;
  if decide (sz ≠ sz') then ret false
  else
    r <- loop
      (fun i => sz <- get_size this ;; ret (bool_decide (i < sz)))
      (fun i =>
         d <- get_data this ;;
         x <- load d i ;;
         d' <- get_data that ;;
         y <- load d' i ;;
         if decide (x ≠ y) then ret (Leave false)
         else i' <- int (i + 1) ;; ret (Next i'))
      0 ;;
    match r with
    | Leave b => ret b
    | Next _ => ret true
    end.

(** int find(const T& element, int start = 0, int stop = MAX_CAPACITY + 1) const *)
Definition find (this : addr) (element : cref) (start stop : Z) : M' Z :=
  sz <- get_size this ;;
  let stop := if decide (stop > sz) then sz else stop in
  r <- loop
    (fun i => ret (bool_decide (i < stop)))
    (fun i =>
       d <- get_data this ;;
       x <- load d i ;;
       e <- deref element ;;
       if decide (x = e) then ret (Leave i)
       else i' <- int (i + 1) ;; ret (Next i'))
    start ;;
  match r with
  | Leave i => ret i
  | Next _ => ret (-1)
  end.

(** The default arguments of find and contains. *)
Definition find_default_start : Z := 0.
Definition find_default_stop : Z := MAX_CAPACITY + 1.

(** bool contains(const T& element, int start = 0, int stop = MAX_CAPACITY + 1) const *)
Definition contains (this : addr) (element : cref) (start stop : Z) : M' bool :=
  i <- find this element start stop ;;
  ret (bool_decide (i ≠ -1)).

(** int count(const T& element) const *)
Definition count (this : addr) (element : cref) : M' Z :=
  r <- loop (R := Empty_set)
    (fun st => sz <- get_size this ;; ret (bool_decide (fst st < sz)))
    (fun st =>
       d <- get_data this ;;
       x <- load d (fst st) ;;
       e <- deref element ;;
       counter <- (if decide (x = e) then int (snd st + 1) else ret (snd st)) ;;
       i' <- int (fst st + 1) ;;
       ret (Next (i', counter)))
    (0, 0) ;;
  match r with
  | Next st => ret (snd st)
  | Leave v => match v with end
  end.

(** void insert(int index, const T& element) *)
Definition insert (this : addr) (index : Z) (element : cref) : M' unit :=
  sz <- get_size this ;;
  check_full sz MAX_CAPACITY ;;;
  lo <- int (- sz) ;;
  hi <- int (sz + 1) ;;
  check_bounds index lo hi ;;;
  cap <- get_capacity this ;;
  (if decide (sz = cap) then expand_capacity this else ret tt) ;;;
  sz <- get_size this ;;
  index <- (if decide (index >= 0) then ret index else int (index + sz)) ;;
  loop (R := Empty_set)
    (fun i => ret (bool_decide (i > index)))
    (fun i =>
       d <- get_data this ;;
       j <- int (i - 1) ;;
       x <- load d j ;;
       store d i x ;;;
       i' <- int (i - 1) ;;
       ret (Next i'))
    sz ;;;
  d <- get_data this ;;
  x <- deref element ;;
  store d index x ;;;
  sz <- get_size this ;;
  sz' <- int (sz + 1) ;;
  put_size this sz'.

(** T remove(int index) *)
Definition remove (this : addr) (index : Z) : M' T :=
  sz <- get_size this ;;
  check_empty sz ;;;
  lo <- int (- sz) ;;
  check_bounds index lo sz ;;;
  index <- (if decide (index >= 0) then ret index else int (index + sz)) ;;
  d <- get_data this ;;
  element <- load d index ;;
  start <- int (index + 1) ;;
  loop (R := Empty_set)
    (fun i => sz <- get_size this ;; ret (bool_decide (i < sz)))
    (fun i =>
       d <- get_data this ;;
       x <- load d i ;;
       j <- int (i - 1) ;;
       store d j x ;;;
       i' <- int (i + 1) ;;
       ret (Next i'))
    start ;;;
  sz <- get_size this ;;
  sz' <- int (sz - 1) ;;
  put_size this sz' ;;;
  ret element.

(** List& operator+=(const T& element) *)
Definition append (this : addr) (element : cref) : M' unit :=
  sz <- get_size this ;;
  insert this sz element.

(** The loop shared by the two branches of operator+=(const List&):
    for (int i = 0; i < src.size_; i++) *this += src.data_[i]; *)
Definition append_all (this src : addr) : M' unit :=
  loop (R := Empty_set)
    (fun i => sz <- get_size src ;; ret (bool_decide (i < sz)))
    (fun i =>
       d <- get_data src ;;
       append this (Slot d i) ;;;
       i' <- int (i + 1) ;;
       ret (Next i'))
    0 ;;;
  ret tt.

(** List& operator+=(const List& list) *)
Definition concatenate (this list : addr) : M' unit :=
  if decide (this = list) then
    with_local (List_copy list) (fun saved_list => append_all this saved_list)
  else append_all this list.

(** List& operator-=(const T& element) *)
Definition remove_value (this : addr) (element : cref) : M' unit :=
  index <- find this element find_default_start find_default_stop ;;
  if decide (index ≠ -1) then remove this index ;;; ret tt else ret tt.

(** List& operator*=(int times) *)
Definition repeat (this : addr) (times : Z) : M' unit :=
  if decide (times < 0) then throw InvalidArgument
  else
    with_local List_new (fun list =>
      loop (R := Empty_set)
        (fun i => ret (bool_decide (i < times)))
        (fun i =>
           concatenate list this ;;;
           i' <- int (i + 1) ;;
           ret (Next i'))
        0 ;;;
      assign this list).

(** void clear() *)
Definition clear (this : addr) : M' unit :=
  sz <- get_size this ;;
  if decide (sz ≠ 0) then
    put_size this 0 ;;;
    put_capacity this INIT_CAPACITY ;;;
    d <- get_data this ;;
    delete_array d ;;;
    n <- get_capacity this ;;
    p <- new_array n ;;
    put_data this p
  else ret tt.

(** void reverse() *)
Definition reverse (this : addr) : M' unit :=
  sz <- get_size this ;;
  j0 <- int (sz - 1) ;;
  loop (R := Empty_set)
    (fun st => ret (bool_decide (fst st < snd st)))
    (fun st =>
       d <- get_data this ;;
       swap_slots d (fst st) (snd st) ;;;
       i' <- int (fst st + 1) ;;
       j' <- int (snd st - 1) ;;
       ret (Next (i', j')))
    (0, j0) ;;;
  ret tt.

(** void uniquify() *)
Definition uniquify (this : addr) : M' unit :=
  loop (R := Empty_set)
    (fun i => sz <- get_size this ;; ret (bool_decide (i < sz)))
    (fun i =>
       loop (R := Empty_set)
         (fun _ =>
            d <- get_data this ;;
            c <- count this (Slot d i) ;;
            ret (bool_decide (c > 1)))
         (fun _ =>
            d <- get_data this ;;
            remove_value this (Slot d i) ;;;
            ret (Next tt))
         tt ;;;
       i' <- int (i + 1) ;;
       ret (Next i'))
    0 ;;;
  ret tt.

(** void sort(comparator), the comparator being a pointer to a function
    bool(const T& e1, const T& e2) *)
Definition sort (this : addr) (comparator : T → T → bool) : M' unit :=
  loop (R := unit)
    (fun i => sz <- get_size this ;; n <- int (sz - 1) ;; ret (bool_decide (i < n)))
    (fun i =>
       r <- loop (R := Empty_set)
         (fun st =>
            sz <- get_size this ;;
            n <- int (sz - i) ;;
            n' <- int (n - 1) ;;
            ret (bool_decide (fst st < n')))
         (fun st =>
            let j := fst st in
            d <- get_data this ;;
            j1 <- int (j + 1) ;;
            e1 <- load d j1 ;;
            e2 <- load d j ;;
            swapped <- (if comparator e1 e2 then swap_slots d j j1 ;;; ret true
                        else ret (snd st)) ;;
            j' <- int (j + 1) ;;
            ret (Next (j', swapped)))
         (0, false) ;;
       match r with
       | Next st =>
           if decide (snd st = false) then ret (Leave tt)
           else i' <- int (i + 1) ;; ret (Next i')
       | Leave v => match v with end
       end)
    0 ;;;
  ret tt.

(** void swap(List& that) *)
Definition swap (this that : addr) : M' unit :=
  a <- get_size this ;; b <- get_size that ;;
  put_size this b ;;; put_size that a ;;;
  a <- get_capacity this ;; b <- get_capacity that ;;
  put_capacity this b ;;; put_capacity that a ;;;
  a <- get_data this ;; b <- get_data that ;;
  put_data this b ;;; put_data that a.

(** List slice(int start, int stop, int step = 1) const *)
Definition slice (this : addr) (start stop step : Z) : M' addr :=
  if decide (step = 0) then throw InvalidArgument
  else
    sz <- get_size this ;;
    lo <- int (- sz) ;;
    check_bounds start lo sz ;;;
    lo' <- int (lo - 1) ;;
    hi' <- int (sz + 1) ;;
    check_bounds stop lo' hi' ;;;
    start <- (if decide (start < 0) then int (start + sz) else ret start) ;;
    stop <- (if decide (stop < 0) then int (stop + sz) else ret stop) ;;
    returning_local List_new (fun list =>
      loop (R := Empty_set)
        (fun i => ret (if decide (step > 0) then bool_decide (i < stop)
                       else bool_decide (i > stop)))
        (fun i =>
           d <- get_data this ;;
           append list (Slot d i) ;;;
           i' <- int (i + step) ;;
           ret (Next i'))
        start ;;;
      ret tt).

(** T& operator[](int index) and const T& operator[](int index) const: the
    result is a reference to a slot of the buffer. *)
Definition subscript (this : addr) (index : Z) : M' cref :=
  sz <- get_size this ;;
  lo <- int (- sz) ;;
  check_bounds index lo sz ;;;
  d <- get_data this ;;
  if decide (index >= 0) then ret (Slot d index)
  else i <- int (sz + index) ;; ret (Slot d i).

(** bool operator!=(const List<T>& that) const *)
Definition not_equal (this that : addr) : M' bool :=
  b <- equal this that ;;
  ret (negb b).

(** T min() const, [greater a b] being the element type's [a > b] *)
Definition min (greater : T → T → bool) (this : addr) : M' T :=
  sz <- get_size this ;;
  check_empty sz ;;;
  d <- get_data this ;;
  smallest <- load d 0 ;;
  r <- loop (R := Empty_set)
    (fun st => sz <- get_size this ;; ret (bool_decide (fst st < sz)))
    (fun st =>
       d <- get_data this ;;
       x <- load d (fst st) ;;
       smallest <- (if greater (snd st) x
                    then d <- get_data this ;; load d (fst st)
                    else ret (snd st)) ;;
       i' <- int (fst st + 1) ;;
       ret (Next (i', smallest)))
    (0, smallest) ;;
  match r with
  | Next st => ret (snd st)
  | Leave v => match v with end
  end.

(** T max() const, [less a b] being the element type's [a < b] *)
Definition max (less : T → T → bool) (this : addr) : M' T :=
  sz <- get_size this ;;
  check_empty sz ;;;
  d <- get_data this ;;
  largest <- load d 0 ;;
  r <- loop (R := Empty_set)
    (fun st => sz <- get_size this ;; ret (bool_decide (fst st < sz)))
    (fun st =>
       d <- get_data this ;;
       x <- load d (fst st) ;;
       largest <- (if less (snd st) x
                   then d <- get_data this ;; load d (fst st)
                   else ret (snd st)) ;;
       i' <- int (fst st + 1) ;;
       ret (Next (i', largest)))
    (0, largest) ;;
  match r with
  | Next st => ret (snd st)
  | Leave v => match v with end
  end.

(** template <typename F> void traverse(F action), the action being called
    with the lvalue data_[i] *)
Definition traverse (this : addr) (action : cref → M' unit) : M' unit :=
  loop (R := Empty_set)
    (fun i => sz <- get_size this ;; ret (bool_decide (i < sz)))
    (fun i =>
       d <- get_data this ;;
       action (Slot d i) ;;;
       i' <- int (i + 1) ;;
       ret (Next i'))
    0 ;;;
  ret tt.

(** List operator+(const T& element) const:
      List new_list = *this;
      return new_list += element;
    The value returned is a copy of new_list (the operand of return is an
    lvalue of type List&), after which new_list is destroyed. *)
Definition plus (this : addr) (element : cref) : M' addr :=
  with_local (List_copy this) (fun new_list =>
    append new_list element ;;;
    List_copy new_list).

(** List operator+(const List& list) const *)
Definition plus_list (this list : addr) : M' addr :=
  with_local (List_copy this) (fun new_list =>
    concatenate new_list list ;;;
    List_copy new_list).

(** List operator-(const T& element) const *)
Definition minus (this : addr) (element : cref) : M' addr :=
  with_local (List_copy this) (fun new_list =>
    remove_value new_list element ;;;
    List_copy new_list).

(** List operator*(int times) const *)
Definition times (this : addr) (n : Z) : M' addr :=
  with_local (List_copy this) (fun new_list =>
    repeat new_list n ;;;
    List_copy new_list).

(** template <typename T> List<T> operator*(int times, const List<T>& list) *)
Definition times_left (n : Z) (list : addr) : M' addr := times list n.

End ArrayList.

(** * Specification vocabulary *)

Section Specification.

Context {T : Type} `{EqDecision T}.
Local Abbreviation buffer := (list (option T)) (only parsing).
Local Abbreviation W := (@world T) (only parsing).
Local Abbreviation M' := (M (@world T)) (only parsing).

(** ** Weakest preconditions

    [wp strict m fuel w Q E]: started in store [w] with budget [fuel], the
    computation [m] returns a value and a store satisfying [Q], or throws an
    exception satisfying [E].  With [strict = true] nothing else may happen
    (total correctness: no undefined behaviour, enough fuel); with
    [strict = false] undefined behaviour and exhausted fuel are left
    unconstrained (partial correctness). *)
Definition wp (strict : bool) {A} (m : M' A) (fuel : nat) (w : W)
    (Q : A → W → Prop) (E : exn → W → Prop) : Prop :=
  match m fuel w with
  | Ok a w' => Q a w'
  | Throw e w' => E e w'
  | Fault _ | OutOfFuel => strict = false
  end.

(** No exception is acceptable. *)
Definition no_throw : exn → W → Prop := λ _ _, False.

(** ** A list object and its contents

    [list_at w a l cap p]: in store [w] the object at address [a] is a list
    of capacity [cap] whose buffer lives at [p]; the first [length l] slots
    of the buffer hold the elements [l], the others are unspecified. *)
Record list_at (w : W) (a : addr) (l : list T) (cap : Z) (p : loc) : Prop := {
  la_obj : objs w !! a = Some (mkList (Z.of_nat (length l)) cap p);
  la_buf : ∃ junk : buffer,
      heap w !! p = Some ((Some <$> l) ++ junk) ∧
      Z.of_nat (length l + length junk) = cap;
  la_cap : 0 < cap ≤ MAX_CAPACITY
}.

(** [ref_to w r x p]: the reference [r] denotes the value [x] in [w], and its
    referent is not a slot of the buffer [p]. *)
Definition ref_to (w : W) (r : cref) (x : T) (p : loc) : Prop :=
  match r with
  | Val y => y = x
  | Slot q i =>
      q ≠ p ∧ 0 ≤ i ∧ ∃ b : buffer, heap w !! q = Some b ∧ b !! Z.to_nat i = Some (Some x)
  end.

(** [ref_val w r x]: the reference [r] denotes the value [x] in [w]. *)
Definition ref_val (w : W) (r : cref) (x : T) : Prop :=
  match r with
  | Val y => y = x
  | Slot q i => 0 ≤ i ∧ ∃ b : buffer, heap w !! q = Some b ∧ b !! Z.to_nat i = Some (Some x)
  end.

(** The class invariant on the fields of one object, and on a store. *)
Definition obj_ok (o : List_) : Prop :=
  0 ≤ size_ o ∧ size_ o ≤ capacity_ o ∧ capacity_ o ≤ MAX_CAPACITY ∧ 0 < capacity_ o.

Definition world_ok (w : W) : Prop :=
  ∀ a o, objs w !! a = Some o → obj_ok o.

(** [field_only P]: the assertion [P] looks at the objects' fields and the
    expansion counter only, never at the buffers. *)
Definition field_only (P : W → Prop) : Prop :=
  ∀ w w', objs w' = objs w → expansions w' = expansions w → P w → P w'.

(** [keeps P m]: if [P] holds before [m], it holds after [m] returned or
    threw. *)
Definition keeps (P : W → Prop) {A} (m : M' A) : Prop :=
  ∀ fuel w, P w → wp false m fuel w (λ _ w', P w') (λ _ w', P w').

(** [same_fields w w']: [w'] has the objects and the counter of [w]. *)
Definition same_fields (w w' : W) : Prop :=
  objs w' = objs w ∧ expansions w' = expansions w.

(** The invariant together with the number of expansions so far. *)
Definition ok_at (n : nat) (w : W) : Prop := world_ok w ∧ expansions w = n.

(** ** Pure counterparts of the operations *)

(** The capacity expand_capacity installs. *)
Definition grown (cap : Z) : Z :=
  if decide (cap < MAX_CAPACITY `quot` 2) then cap * 2 else MAX_CAPACITY.

(** The store expand_capacity leaves. *)
Definition expanded (w : W) (this : addr) (l : list T) (cap : Z) (p : loc) : W :=
  let p' := fresh (dom (heap w)) in
  mkWorld (<[this := mkList (Z.of_nat (length l)) (grown cap) p']> (objs w))
          (delete p (<[p' := (Some <$> l) ++
                             replicate (Z.to_nat (grown cap) - length l) None]> (heap w)))
          (S (expansions w)).

(** Index resolution: a negative index counts from the end. *)
Definition resolve (index : Z) (len : nat) : nat :=
  Z.to_nat (if decide (index >= 0) then index else index + Z.of_nat len).

Definition inserted (idx : nat) (x : T) (l : list T) : list T :=
  take idx l ++ x :: drop idx l.

(** The store insert leaves. *)
Definition insert_post (w : W) (this : addr) (l : list T) (cap : Z) (p : loc)
    (idx : nat) (x : T) (w' : W) : Prop :=
  let full := bool_decide (Z.of_nat (length l) = cap) in
  let cap' := if full then grown cap else cap in
  let p' := if full then fresh (dom (heap w)) else p in
  ∃ junk' : buffer,
    w' = mkWorld (<[this := mkList (Z.of_nat (S (length l))) cap' p']> (objs w))
                 (<[p' := (Some <$> inserted idx x l) ++ junk']> (delete p (heap w)))
                 (if full then S (expansions w) else expansions w)
    ∧ Z.of_nat (S (length l) + length junk') = cap'.

(** What find returns for the element [x] of the contents [l]: the first
    position of [x] at or after [start] and before both [stop] and the
    length, or -1 when there is none. *)
Definition find_result (l : list T) (x : T) (start stop : Z) (r : Z) : Prop :=
  let hi := Z.min stop (Z.of_nat (length l)) in
  (r = -1 ∧ ∀ i : Z, start ≤ i < hi → l !! Z.to_nat i ≠ Some x) ∨
  (start ≤ r < hi ∧ l !! Z.to_nat r = Some x ∧
   ∀ i : Z, start ≤ i < r → l !! Z.to_nat i ≠ Some x).

(** The number of occurrences of [x] in [l]. *)
Definition occurrences (x : T) (l : list T) : nat :=
  length (filter (λ y, y = x) l).

(** The contents after [operator-=]: the first occurrence of [x] is gone. *)
Fixpoint remove_first (x : T) (l : list T) : list T :=
  match l with
  | [] => []
  | y :: l' => if decide (y = x) then l' else y :: remove_first x l'
  end.

(** The contents after uniquify: a value stays at its last occurrence. *)
Fixpoint keep_last (l : list T) : list T :=
  match l with
  | [] => []
  | x :: l' => if decide (x ∈ l') then keep_last l' else x :: keep_last l'
  end.

(** Duplicates removed in first-seen order: a value stays at its first
    occurrence. *)
Fixpoint keep_first (l : list T) : list T :=
  match l with
  | [] => []
  | x :: l' => x :: filter (λ y, y ≠ x) (keep_first l')
  end.

(** [updated w this p l' cap' p' w']: the store [w'] is [w] except that the
    object [this], whose buffer was [p], now has the contents [l'], the
    capacity [cap'] and the buffer [p'] (its old buffer, or one that was
    free in [w], the old one being released). *)
Definition updated (w : W) (this : addr) (p : loc) (l' : list T) (cap' : Z)
    (p' : loc) (w' : W) : Prop :=
  ∃ junk : buffer,
    objs w' = <[this := mkList (Z.of_nat (length l')) cap' p']> (objs w) ∧
    heap w' = <[p' := (Some <$> l') ++ junk]> (delete p (heap w)) ∧
    Z.of_nat (length l' + length junk) = cap' ∧
    (p' = p ∨ heap w !! p' = None).

(** [created w a l cap q w']: the store [w'] is [w] with one more object, at
    the fresh address [a], holding [l] with capacity [cap] in a new buffer
    [q]. *)
Definition created (w : W) (a : addr) (l : list T) (cap : Z) (q : loc) (w' : W) : Prop :=
  ∃ junk : buffer,
    objs w !! a = None ∧ heap w !! q = None ∧
    objs w' = <[a := mkList (Z.of_nat (length l)) cap q]> (objs w) ∧
    heap w' = <[q := (Some <$> l) ++ junk]> (heap w) ∧
    Z.of_nat (length l + length junk) = cap.

(** [n] copies of [l], one after the other. *)
Fixpoint copies (n : nat) (l : list T) : list T :=
  match n with
  | O => []
  | S n' => copies n' l ++ l
  end.

(** The store List_delete leaves: the object and its buffer are gone. *)
Definition dropped (a : addr) (q : loc) (w : W) : W :=
  mkWorld (delete a (objs w)) (delete q (heap w)) (expansions w).

(** The loop invariant of uniquify: the elements before the cursor ([A]) are
    pairwise distinct and do not occur behind it ([B]). *)
Definition uniquify_inv (w : W) (this : addr) (l : list T) (cap : Z) (p : loc)
    (A B : list T) (w' : W) : Prop :=
  updated w this p (A ++ B) cap p w' ∧ expansions w' = expansions w ∧
  NoDup A ∧ (∀ x, x ∈ A → x ∉ B) ∧ keep_last (A ++ B) = keep_last l ∧
  (length (A ++ B) ≤ length l)%nat.

(** The number of elements behind the cursor [i]. *)
Definition remaining (this : addr) (i : Z) (w : W) : nat :=
  match objs w !! this with
  | Some o => Z.to_nat (size_ o - i)
  | None => 0
  end.

(** The two outcomes of [this += other], [l1] and [l2] being the contents of
    the receiver and of the argument: all of [l2] is appended, or the
    receiver fills up to MAX_CAPACITY and CapacityExceeded is thrown. *)
Definition concat_post (w : W) (this : addr) (l1 l2 : list T) (c1 : Z) (p1 : loc)
    (w' : W) : Prop :=
  Z.of_nat (length l1 + length l2) ≤ MAX_CAPACITY ∧
  ∃ c' p', updated w this p1 (l1 ++ l2) c' p' w' ∧ c1 ≤ c' ≤ MAX_CAPACITY.

Definition concat_fail (w : W) (this : addr) (l1 l2 : list T) (c1 : Z) (p1 : loc)
    (e : exn) (w' : W) : Prop :=
  e = CapacityExceeded ∧ Z.of_nat (length l1 + length l2) > MAX_CAPACITY ∧
  ∃ (k : nat) c' p', Z.of_nat (length l1 + k) = MAX_CAPACITY ∧
    updated w this p1 (l1 ++ take k l2) c' p' w' ∧ c1 ≤ c' ≤ MAX_CAPACITY.

(** The two outcomes of [this *= times]. *)
Definition repeat_post (w : W) (this : addr) (l : list T) (p : loc) (times : Z)
    (w' : W) : Prop :=
  0 ≤ times ∧ times * Z.of_nat (length l) ≤ MAX_CAPACITY ∧
  ∃ c' p', updated w this p (copies (Z.to_nat times) l) c' p' w' ∧
           0 < c' ≤ MAX_CAPACITY.

Definition repeat_fail (w : W) (l : list T) (times : Z) (e : exn) (w' : W) : Prop :=
  (e = InvalidArgument ∧ times < 0 ∧ w' = w) ∨
  (e = CapacityExceeded ∧ 0 ≤ times ∧ times * Z.of_nat (length l) > MAX_CAPACITY ∧
   objs w' = objs w ∧ heap w' = heap w).

(** The number of positions a slice visits, and the elements it copies:
    those at [start], [start + step], [start + 2 * step], ... before [stop]
    ([start] and [stop] already resolved). *)
Definition slice_count (start stop step : Z) : nat :=
  Z.to_nat (if decide (step > 0) then (stop - start + step - 1) `div` step
            else (start - stop - step - 1) `div` (- step)).

Definition slice_picks (l : list T) (start step : Z) (n : nat) : list T :=
  omap (λ j : nat, l !! Z.to_nat (start + Z.of_nat j * step)) (seq 0 n).

Definition sliced (l : list T) (start stop step : Z) : list T :=
  let len := Z.of_nat (length l) in
  let start := if decide (start < 0) then start + len else start in
  let stop := if decide (stop < 0) then stop + len else stop in
  slice_picks l start step (slice_count start stop step).

(** The arguments slice accepts for a list of length [len]. *)
Definition slice_args_ok (len start stop step : Z) : Prop :=
  step ≠ 0 ∧ - len ≤ start < len ∧ - len - 1 ≤ stop ≤ len.

(** The two ways slice refuses its arguments, the store being untouched. *)
Definition slice_fail (w : W) (len start stop step : Z) (e : exn) (w' : W) : Prop :=
  w' = w ∧
  ((e = InvalidArgument ∧ step = 0) ∨
   (e = IndexOutOfRange ∧ step ≠ 0 ∧
    ¬ (- len ≤ start < len ∧ - len - 1 ≤ stop ≤ len))).

(** ** Sorting *)

(** The comparator contract: [comparator a b] holds iff [a] must precede
    [b], that is, the comparator is a strict weak ordering. *)
Record strict_weak (cmp : T → T → bool) : Prop := {
  sw_asym : ∀ a b, cmp a b = true → cmp b a = false;
  sw_trans : ∀ a b c, cmp b a = false → cmp c b = false → cmp c a = false
}.

(** [a] and [b] compare equal: neither must precede the other. *)
Definition ties (cmp : T → T → bool) (a b : T) : bool :=
  negb (cmp a b) && negb (cmp b a).

(** From position [s] on, every element is preceded only by elements that
    need not come after it. *)
Definition settled_from (cmp : T → T → bool) (l : list T) (s : nat) : Prop :=
  ∀ k k' a b, (k < k')%nat → (s ≤ k')%nat →
    l !! k = Some a → l !! k' = Some b → cmp b a = false.

(** Sorted under the comparator: no element must precede an earlier one. *)
Definition sorted_by (cmp : T → T → bool) (l : list T) : Prop :=
  settled_from cmp l 0.

(** One exchange of the bubble sort: two neighbours, the right one of which
    must precede the left one, change places. *)
Definition exchange (cmp : T → T → bool) (l l' : list T) : Prop :=
  ∃ l1 a b l2, l = l1 ++ a :: b :: l2 ∧ l' = l1 ++ b :: a :: l2 ∧ cmp b a = true.

(** Stability: the elements that tie with any given [x] keep their order. *)
Definition stable (cmp : T → T → bool) (l l' : list T) : Prop :=
  ∀ x, filter (λ y, ties cmp x y = true) l' = filter (λ y, ties cmp x y = true) l.

(** The store while sort runs: the contents are [l'], nothing else moves. *)
Definition holding (w : W) (p : loc) (junk : buffer) (l' : list T) : W :=
  set_heap <[p := (Some <$> l') ++ junk]> w.

(** The store after [List<T> c = {...};] in an empty store: the object is at
    address 1 and its buffer at location 1. *)
Definition world_with (il : list T) : W :=
  match List_of il (S (length il)) empty_world with
  | Ok _ w => w
  | _ => empty_world
  end.

(** ** The operations of the container, as calls

    One constructor for every constructor, the destructor, every member
    function and every operator of List.hpp, the non-member operator*
    included. Left out are begin and end, which hand out an Iterator, and
    operator<<, which writes to a stream: neither type is part of the
    sources. *)

Inductive call : Type :=
  | CallNew
  | CallOf (il : list T)
  | CallCopy (that : addr)
  | CallMove (that : addr)
  | CallDelete (this : addr)
  | CallAssign (this that : addr)
  | CallMoveAssign (this that : addr)
  | CallInsert (this : addr) (index : Z) (element : cref (T := T))
  | CallRemove (this : addr) (index : Z)
  | CallAppend (this : addr) (element : cref (T := T))
  | CallConcatenate (this list : addr)
  | CallRemoveValue (this : addr) (element : cref (T := T))
  | CallRepeat (this : addr) (times : Z)
  | CallClear (this : addr)
  | CallReverse (this : addr)
  | CallUniquify (this : addr)
  | CallSort (this : addr) (comparator : T → T → bool)
  | CallSwap (this that : addr)
  | CallSlice (this : addr) (start stop step : Z)
  | CallFind (this : addr) (element : cref (T := T)) (start stop : Z)
  | CallContains (this : addr) (element : cref (T := T)) (start stop : Z)
  | CallCount (this : addr) (element : cref (T := T))
  | CallEqual (this that : addr)
  | CallSubscript (this : addr) (index : Z)
  | CallSize (this : addr)
  | CallIsEmpty (this : addr)
  | CallNotEqual (this that : addr)
  | CallMin (greater : T → T → bool) (this : addr)
  | CallMax (less : T → T → bool) (this : addr)
  | CallTraverse (this : addr) (action : cref (T := T) → M' unit)
  | CallPlus (this : addr) (element : cref (T := T))
  | CallPlusList (this list : addr)
  | CallMinus (this : addr) (element : cref (T := T))
  | CallTimes (this : addr) (times : Z)
  | CallTimesLeft (times : Z) (list : addr).

Definition run_call (c : call) : M' unit :=
  match c with
  | CallNew => List_new ;;; ret tt
  | CallOf il => List_of il ;;; ret tt
  | CallCopy that => List_copy that ;;; ret tt
  | CallMove that => List_move that ;;; ret tt
  | CallDelete this => List_delete this
  | CallAssign this that => assign this that
  | CallMoveAssign this that => move_assign this that
  | CallInsert this index element => insert this index element
  | CallRemove this index => remove this index ;;; ret tt
  | CallAppend this element => append this element
  | CallConcatenate this list => concatenate this list
  | CallRemoveValue this element => remove_value this element
  | CallRepeat this times => repeat this times
  | CallClear this => clear this
  | CallReverse this => reverse this
  | CallUniquify this => uniquify this
  | CallSort this comparator => sort this comparator
  | CallSwap this that => swap this that
  | CallSlice this start stop step => slice this start stop step ;;; ret tt
  | CallFind this element start stop => find this element start stop ;;; ret tt
  | CallContains this element start stop => contains this element start stop ;;; ret tt
  | CallCount this element => count this element ;;; ret tt
  | CallEqual this that => equal this that ;;; ret tt
  | CallSubscript this index => subscript this index ;;; ret tt
  | CallSize this => size this ;;; ret tt
  | CallIsEmpty this => is_empty this ;;; ret tt
  | CallNotEqual this that => not_equal this that ;;; ret tt
  | CallMin greater this => min greater this ;;; ret tt
  | CallMax less this => max less this ;;; ret tt
  | CallTraverse this action => traverse this action
  | CallPlus this element => plus this element ;;; ret tt
  | CallPlusList this list => plus_list this list ;;; ret tt
  | CallMinus this element => minus this element ;;; ret tt
  | CallTimes this n => times this n ;;; ret tt
  | CallTimesLeft n list => times_left n list ;;; ret tt
  end.

(** The calls that add elements, all of them through insert. *)
Definition inserts (c : call) : bool :=
  match c with
  | CallInsert _ _ _ | CallAppend _ _ | CallConcatenate _ _
  | CallRepeat _ _ | CallSlice _ _ _ _
  | CallPlus _ _ | CallPlusList _ _ | CallTimes _ _ | CallTimesLeft _ _ => true
  | _ => false
  end.

(** What a call is given from outside the container, as far as a property
    [P] of the store depends on it: an initial sequence that fits a
    container, and for traverse an action that keeps [P] itself. *)
Definition call_fits (P : W → Prop) (c : call) : Prop :=
  match c with
  | CallOf il => Z.of_nat (length il) ≤ MAX_CAPACITY
  | CallTraverse _ action => ∀ r, keeps P (action r)
  | _ => True
  end.

(** ** Vocabulary of the further properties *)

(** The contents after [k] exchanges: the outer [k] elements on either side
    are mirrored, the others are in place. *)
Definition mirrored (l c : list T) (k : nat) : Prop :=
  length c = length l ∧
  ∀ m : nat, (m < length l)%nat →
    c !! m = if decide (m < k ∨ length l - 1 - k < m)%nat
             then l !! (length l - S m)%nat else l !! m.

(** An action for traverse that replaces the element it is given by [f] of
    it, as [](T& x) { x = f(x); } does. *)
Definition update_with (f : T → T) (r : cref (T := T)) : M' unit :=
  x <- deref r ;;
  match r with
  | Slot p i => store p i (f x)
  | Val _ => ret tt
  end.

(** An action for traverse that only reads the element it is given. *)
Definition read_only (r : cref (T := T)) : M' unit :=
  deref r ;;; ret tt.

(** The store after [List<T> a = {...}; List<T> b = {...};] in an empty
    store: the objects are at the addresses 1 and 2, their buffers at the
    locations 1 and 2. *)
Definition world_with2 (il1 il2 : list T) : W :=
  match List_of il2 (S (length il2)) (world_with il1) with
  | Ok _ w => w
  | _ => world_with il1
  end.

End Specification.

Ltac int_lia := unfold MAX_CAPACITY, INT_MAX, INT_MIN in *; lia.

Section Logic.
Context {T : Type} `{EqDecision T}.
Local Abbreviation buffer := (list (option T)) (only parsing).
Local Abbreviation W := (@world T) (only parsing).
Local Abbreviation M' := (M (@world T)) (only parsing).

Lemma wp_bind st {A B} (m : M' A) (k : A → M' B) fuel w Q E :
  wp st m fuel w (λ a w', wp st (k a) fuel w' Q E) E → wp st (bind m k) fuel w Q E.
Proof. unfold wp, bind. by destruct (m fuel w). Qed.

Lemma wp_seq st {A B} (m : M' A) (k : A → M' B) fuel w (Q1 : A → W → Prop) Q E :
  wp st m fuel w Q1 E → (∀ a w', Q1 a w' → wp st (k a) fuel w' Q E) →
  wp st (bind m k) fuel w Q E.
Proof.
  intros Hm Hk. unfold wp, bind in *.
  destruct (m fuel w) as [a w'| | |]; [by apply (Hk a w') | done..].
Qed.

Lemma wp_ret st {A} (a : A) fuel w (Q : A → W → Prop) E : Q a w → wp st (ret a) fuel w Q E.
Proof. done. Qed.

Lemma wp_mono st {A} (m : M' A) fuel w (Q Q' : A → W → Prop) (E E' : exn → W → Prop) :
  wp st m fuel w Q E → (∀ a w', Q a w' → Q' a w') → (∀ e w', E e w' → E' e w') →
  wp st m fuel w Q' E'.
Proof. unfold wp. destruct (m fuel w); auto. Qed.

Lemma wp_post st {A} (m : M' A) fuel w (Q Q' : A → W → Prop) (E : exn → W → Prop) :
  wp st m fuel w Q E → (∀ a w', Q a w' → Q' a w') → wp st m fuel w Q' E.
Proof. intros Hm HQ. by eapply wp_mono. Qed.

Lemma wp_exn st {A} (m : M' A) fuel w (Q : A → W → Prop) (E E' : exn → W → Prop) :
  wp st m fuel w Q E → (∀ e w', E e w' → E' e w') → wp st m fuel w Q E'.
Proof. intros Hm HE. by eapply wp_mono. Qed.

(** Reading a total-correctness judgement back as an equation. *)
Lemma wp_returns {A} (m : M' A) fuel w (Q : A → W → Prop) (E : exn → W → Prop) :
  wp true m fuel w Q E → (∀ e w', ¬ E e w') →
  ∃ a w', m fuel w = Ok a w' ∧ Q a w'.
Proof.
  unfold wp. destruct (m fuel w) as [a w'|e w'| |]; intros Hm HE; try done.
  - by exists a, w'.
  - by destruct (HE e w').
Qed.

Lemma wp_throws {A} (m : M' A) fuel w (Q : A → W → Prop) (E : exn → W → Prop) :
  wp true m fuel w Q E → (∀ a w', ¬ Q a w') →
  ∃ e w', m fuel w = Throw e w' ∧ E e w'.
Proof.
  unfold wp. destruct (m fuel w) as [a w'|e w'| |]; intros Hm HQ; try done.
  - by destruct (HQ a w').
  - by exists e, w'.
Qed.

Lemma wp_outcome {A} (m : M' A) fuel w (Q : A → W → Prop) (E : exn → W → Prop) :
  wp true m fuel w Q E →
  (∃ a w', m fuel w = Ok a w' ∧ Q a w') ∨ (∃ e w', m fuel w = Throw e w' ∧ E e w').
Proof.
  unfold wp. destruct (m fuel w) as [a w'|e w'| |]; intros Hm; try done.
  - left. by exists a, w'.
  - right. by exists e, w'.
Qed.

Section Loop.
Context {S R : Type} (Inv : S → W → Prop) (cond : S → M' bool) (body : S → M' (flow S R)).
Variables (fuel : nat) (Q : flow S R → W → Prop) (E : exn → W → Prop).

Lemma wp_iterate_total (μ : S → W → nat) :
  (∀ s w, Inv s w →
     wp true (cond s) fuel w (λ b w',
       if b then wp true (body s) fuel w' (λ r w'',
                  match r with
                  | Next s' => Inv s' w'' ∧ (μ s' w'' < μ s w)%nat
                  | Leave v => Q (Leave v) w''
                  end) E
       else Q (Next s) w') E) →
  ∀ n s w, Inv s w → (μ s w < n)%nat → wp true (iterate n cond body s) fuel w Q E.
Proof.
  intros Hstep n. induction n as [|n IH]; intros s w HI Hμ; [lia|].
  simpl. apply wp_bind. eapply wp_mono; [by apply Hstep | | done].
  intros [] w' Hb; [|by apply wp_ret].
  apply wp_bind. eapply wp_mono; [exact Hb | | done].
  intros [s'|v] w'' Hr; [|by apply wp_ret].
  destruct Hr. apply IH; [done | lia].
Qed.

Lemma wp_loop_total (μ : S → W → nat) :
  (∀ s w, Inv s w →
     wp true (cond s) fuel w (λ b w',
       if b then wp true (body s) fuel w' (λ r w'',
                  match r with
                  | Next s' => Inv s' w'' ∧ (μ s' w'' < μ s w)%nat
                  | Leave v => Q (Leave v) w''
                  end) E
       else Q (Next s) w') E) →
  ∀ s w, Inv s w → (μ s w < fuel)%nat → wp true (loop cond body s) fuel w Q E.
Proof. intros Hstep s w HI Hμ. by apply (wp_iterate_total μ Hstep fuel). Qed.

Lemma wp_iterate_partial :
  (∀ s w, Inv s w →
     wp false (cond s) fuel w (λ b w',
       if b then wp false (body s) fuel w' (λ r w'',
                  match r with
                  | Next s' => Inv s' w''
                  | Leave v => Q (Leave v) w''
                  end) E
       else Q (Next s) w') E) →
  ∀ n s w, Inv s w → wp false (iterate n cond body s) fuel w Q E.
Proof.
  intros Hstep n. induction n as [|n IH]; intros s w HI; [done|].
  simpl. apply wp_bind. eapply wp_mono; [by apply Hstep | | done].
  intros [] w' Hb; [|by apply wp_ret].
  apply wp_bind. eapply wp_mono; [exact Hb | | done].
  intros [s'|v] w'' Hr; [|by apply wp_ret].
  by apply IH.
Qed.
End Loop.

(** Primitive rules, total form (they hold for both modes). *)
Section Prim.
Context (st : bool) (fuel : nat) (w : W) (E : exn → W → Prop).

Lemma wp_throw {A} e (Q : A → W → Prop) : E e w → wp st (throw e) fuel w Q E.
Proof. done. Qed.

Lemma wp_get_obj a o (Q : List_ → W → Prop) :
  objs w !! a = Some o → Q o w → wp st (get_obj a) fuel w Q E.
Proof. intros Ho HQ. unfold wp, get_obj. by rewrite Ho. Qed.

Lemma wp_get_size a o (Q : Z → W → Prop) :
  objs w !! a = Some o → Q (size_ o) w → wp st (get_size a) fuel w Q E.
Proof. intros Ho HQ. unfold wp, get_size, bind, get_obj. by rewrite Ho. Qed.

Lemma wp_get_capacity a o (Q : Z → W → Prop) :
  objs w !! a = Some o → Q (capacity_ o) w → wp st (get_capacity a) fuel w Q E.
Proof. intros Ho HQ. unfold wp, get_capacity, bind, get_obj. by rewrite Ho. Qed.

Lemma wp_get_data a o (Q : loc → W → Prop) :
  objs w !! a = Some o → Q (data_ o) w → wp st (get_data a) fuel w Q E.
Proof. intros Ho HQ. unfold wp, get_data, bind, get_obj. by rewrite Ho. Qed.

Lemma wp_put_obj a o f (Q : unit → W → Prop) :
  objs w !! a = Some o → Q tt (set_objs <[a := f o]> w) → wp st (put_obj a f) fuel w Q E.
Proof. intros Ho HQ. unfold wp, put_obj. by rewrite Ho. Qed.

Lemma wp_new_obj o (Q : addr → W → Prop) :
  Q (fresh (dom (objs w))) (set_objs <[fresh (dom (objs w)) := o]> w) →
  wp st (new_obj o) fuel w Q E.
Proof. done. Qed.

Lemma wp_free_obj a (Q : unit → W → Prop) :
  is_Some (objs w !! a) → Q tt (set_objs (delete a) w) → wp st (free_obj a) fuel w Q E.
Proof. intros [o Ho] HQ. unfold wp, free_obj. by rewrite Ho. Qed.

Lemma wp_new_array n (Q : loc → W → Prop) :
  0 ≤ n →
  Q (fresh (dom (heap w)))
    (set_heap <[fresh (dom (heap w)) := replicate (Z.to_nat n) None]> w) →
  wp st (new_array n) fuel w Q E.
Proof. intros Hn HQ. unfold wp, new_array. by rewrite decide_True. Qed.

Lemma wp_delete_array p (Q : unit → W → Prop) :
  is_Some (heap w !! p) → Q tt (set_heap (delete p) w) → wp st (delete_array p) fuel w Q E.
Proof. intros [b Hb] HQ. unfold wp, delete_array. by rewrite Hb. Qed.

Lemma wp_load p i b x (Q : T → W → Prop) :
  heap w !! p = Some b → 0 ≤ i → b !! Z.to_nat i = Some (Some x) → Q x w →
  wp st (load p i) fuel w Q E.
Proof. intros Hb Hi Hx HQ. unfold wp, load. by rewrite Hb, decide_True, Hx. Qed.

Lemma wp_store p i b x (Q : unit → W → Prop) :
  heap w !! p = Some b → 0 ≤ i < Z.of_nat (length b) →
  Q tt (set_heap <[p := <[Z.to_nat i := Some x]> b]> w) →
  wp st (store p i x) fuel w Q E.
Proof. intros Hb Hi HQ. unfold wp, store. by rewrite Hb, decide_True. Qed.

Lemma wp_int z (Q : Z → W → Prop) :
  INT_MIN ≤ z ≤ INT_MAX → Q z w → wp st (int z) fuel w Q E.
Proof. intros Hz HQ. unfold wp, int. by rewrite decide_True. Qed.

Lemma wp_tick (Q : unit → W → Prop) : Q tt (tick_expansions w) → wp st tick fuel w Q E.
Proof. done. Qed.

End Prim.

Lemma int_range_of_cap (z : Z) : 0 ≤ z ≤ MAX_CAPACITY + 1 → INT_MIN ≤ z ≤ INT_MAX.
Proof. unfold MAX_CAPACITY, INT_MIN, INT_MAX. lia. Qed.

Lemma cells_lookup (l : list T) (junk : buffer) (i : nat) x :
  l !! i = Some x → ((Some <$> l) ++ junk) !! i = Some (Some x).
Proof.
  intros Hx. rewrite lookup_app_l. - by rewrite list_lookup_fmap, Hx.
  - rewrite length_fmap. by eapply lookup_lt_Some.
Qed.

Lemma copy_step (l : list T) (i n : nat) x :
  l !! i = Some x → (i < n)%nat →
  <[i := Some x]> ((Some <$> take i l) ++ replicate (n - i) None)
  = (Some <$> take (S i) l) ++ replicate (n - S i) None.
Proof.
  intros Hx Hn. assert (length l > i)%nat by (by eapply lookup_lt_Some).
  erewrite take_S_r by done. rewrite fmap_app. simpl.
  replace (n - i)%nat with (S (n - S i)) by lia. simpl.
  rewrite <-(assoc_L (++)). simpl.
  rewrite insert_app_r_alt; rewrite length_fmap, length_take; [|lia].
  replace (i - i `min` length l)%nat with 0%nat by lia. done.
Qed.

(** The copy loop, from a source buffer holding [l] to a destination
    buffer of [n] fresh slots. *)
Lemma copy_elements_spec fuel (w : W) this o (l : list T) junk ps pd n
    (dst src : M' loc) (Q : unit → W → Prop) E :
  objs w !! this = Some o → size_ o = Z.of_nat (length l) →
  heap w !! ps = Some ((Some <$> l) ++ junk) →
  heap w !! pd = Some (replicate n None) → ps ≠ pd →
  (length l ≤ n)%nat → (length l < fuel)%nat → Z.of_nat (length l) < INT_MAX →
  (∀ w', objs w' = objs w → ∀ Q', Q' pd w' → wp true dst fuel w' Q' E) →
  (∀ w', objs w' = objs w → ∀ Q', Q' ps w' → wp true src fuel w' Q' E) →
  Q tt (set_heap <[pd := (Some <$> l) ++ replicate (n - length l) None]> w) →
  wp true (copy_elements this dst src) fuel w Q E.
Proof.
  intros Ho Hsz Hs Hd Hne Hn Hfuel Hmax Hdst Hsrc HQ.
  unfold copy_elements. apply wp_bind.
  apply (wp_loop_total
    (λ i w', ∃ k : nat, i = Z.of_nat k ∧ (k ≤ length l)%nat ∧
       w' = set_heap <[pd := (Some <$> take k l) ++ replicate (n - k) None]> w)
    _ _ fuel _ E (λ i _, (length l - Z.to_nat i)%nat)).
  - intros i w' (k & -> & Hk & ->).
    apply wp_bind. eapply wp_get_size; [done|]. apply wp_ret. rewrite Hsz.
    case_bool_decide as Hlt.
    + assert (k < length l)%nat as Hk' by lia.
      destruct (lookup_lt_is_Some_2 l k Hk') as [x Hx].
      apply wp_bind, Hdst; [done|]. apply wp_bind, Hsrc; [done|].
      apply wp_bind. eapply wp_load.
      { simpl. rewrite lookup_insert_ne by done. done. }
      { lia. } { rewrite Nat2Z.id. by apply cells_lookup. }
      apply wp_bind. eapply wp_store.
      { simpl. by rewrite lookup_insert_eq. }
      { rewrite length_app, length_fmap, length_take, length_replicate. lia. }
      apply wp_bind. apply wp_int; [unfold INT_MIN; lia|]. apply wp_ret.
      split; [|lia]. exists (S k). split; [lia|]. split; [lia|].
      unfold set_heap; simpl. f_equal. rewrite insert_insert_eq.
      rewrite Nat2Z.id. f_equal. by apply copy_step; [|lia].
    + apply wp_ret. assert (k = length l) as -> by lia.
      by rewrite firstn_all.
  - exists 0%nat. split; [done|]. split; [lia|]. simpl.
    rewrite Nat.sub_0_r. destruct w as [O H n']. unfold set_heap. simpl in *.
    f_equal. by rewrite insert_id.
  - simpl. lia.
Qed.

Lemma grown_min cap : 0 < cap ≤ MAX_CAPACITY → grown cap = Z.min (cap * 2) MAX_CAPACITY.
Proof.
  unfold grown. change (MAX_CAPACITY `quot` 2) with 1073741823.
  unfold MAX_CAPACITY, INT_MAX. intros. case_decide; lia.
Qed.

Lemma grown_bounds cap : 0 < cap ≤ MAX_CAPACITY → cap ≤ grown cap ≤ MAX_CAPACITY ∧ (cap < MAX_CAPACITY → cap < grown cap).
Proof. intros. rewrite grown_min by done. lia. Qed.

Lemma expand_capacity_spec fuel (w : W) this l cap p E :
  list_at w this l cap p → (length l < fuel)%nat →
  wp true (expand_capacity this) fuel w (λ _ w', w' = expanded w this l cap p) E.
Proof.
  intros [Ho (junk & Hb & Hlen) Hcap] Hfuel.
  pose proof (grown_bounds cap Hcap) as [Hg _].
  assert (fresh (dom (heap w)) ≠ p) as Hfresh.
  { intros Heq. apply (is_fresh (dom (heap w))). rewrite Heq. apply elem_of_dom. eauto. }
  unfold expand_capacity.
  apply wp_bind, wp_tick.
  apply wp_bind. eapply wp_get_capacity; [done|]. simpl.
  apply wp_bind with (Q := λ _ w', w' = expanded w this l cap p).
  eapply wp_mono with (Q := λ c w', c = grown cap ∧ w' = tick_expansions w); [| |done].
  { unfold grown. case_decide.
    - apply wp_int; [|done]. unfold MAX_CAPACITY, INT_MAX, INT_MIN in *.
      change ((2147483647 - 1) `quot` 2) with 1073741823 in *. lia.
    - by apply wp_ret. }
  intros c w' [-> ->].
  apply wp_bind. eapply wp_put_obj; [done|]. simpl.
  apply wp_bind. eapply wp_get_capacity; [simpl; by rewrite lookup_insert_eq|]. simpl.
  apply wp_bind. apply wp_new_array; [lia|]. simpl.
  apply wp_bind.
  eapply (copy_elements_spec _ _ this _ l junk p (fresh (dom (heap w)))).
  - simpl. by rewrite lookup_insert_eq.
  - done.
  - simpl. by rewrite lookup_insert_ne.
  - simpl. by rewrite lookup_insert_eq.
  - done.
  - lia.
  - done.
  - unfold MAX_CAPACITY in *. lia.
  - intros w' _ Q' HQ'. by apply wp_ret.
  - intros w' Hw' Q' HQ'. eapply wp_get_data; [rewrite Hw'; simpl; by rewrite lookup_insert_eq|done].
  - apply wp_bind. eapply wp_get_data; [simpl; by rewrite lookup_insert_eq|]. simpl.
    apply wp_bind. apply wp_delete_array.
    { simpl. rewrite lookup_insert_ne by done. rewrite lookup_insert_ne by done. eauto. }
    eapply wp_put_obj; [simpl; by rewrite lookup_insert_eq|].
    unfold expanded, set_objs, set_heap, tick_expansions. simpl.
    by rewrite !insert_insert_eq.
Qed.

Lemma wp_deref st fuel (w : W) r x p (Q : T → W → Prop) E :
  ref_to w r x p → Q x w → wp st (deref r) fuel w Q E.
Proof.
  destruct r as [y|q i]; simpl.
  - intros -> HQ. by apply wp_ret.
  - intros (_ & Hi & b & Hb & Hx) HQ. by eapply wp_load.
Qed.

Lemma shift_step (l : list T) (k : nat) x (s : option T) (rest : buffer) :
  l !! k = Some x →
  <[S k := Some x]> ((Some <$> take (S k) l) ++ s :: (Some <$> drop (S k) l) ++ rest)
  = (Some <$> take k l) ++ Some x :: (Some <$> drop k l) ++ rest.
Proof.
  intros Hx. assert (k < length l)%nat by (by eapply lookup_lt_Some).
  rewrite insert_app_r_alt; rewrite length_fmap, length_take; [|lia].
  replace (S k - S k `min` length l)%nat with 0%nat by lia. simpl.
  erewrite take_S_r by done. rewrite fmap_app, <-(assoc_L (++)). simpl.
  by erewrite (drop_S l x k).
Qed.

Lemma place_step (l : list T) (k : nat) x (s : option T) (rest : buffer) :
  (k ≤ length l)%nat →
  <[k := Some x]> ((Some <$> take k l) ++ s :: (Some <$> drop k l) ++ rest)
  = (Some <$> inserted k x l) ++ rest.
Proof.
  intros Hk. rewrite insert_app_r_alt; rewrite length_fmap, length_take; [|lia].
  replace (k - k `min` length l)%nat with 0%nat by lia. simpl.
  unfold inserted. by rewrite fmap_app, <-(assoc_L (++)).
Qed.

Lemma length_inserted k x (l : list T) : length (inserted k x l) = S (length l).
Proof.
  unfold inserted. rewrite length_app. simpl. rewrite length_take, length_drop. lia.
Qed.

(** The part of insert after the capacity check: shift, place, resize. *)
Lemma insert_shift_spec fuel (w : W) this l cap p s junk element x (idx : nat) E :
  objs w !! this = Some (mkList (Z.of_nat (length l)) cap p) →
  heap w !! p = Some ((Some <$> l) ++ s :: junk) →
  ref_to w element x p →
  (idx ≤ length l)%nat → (length l < fuel)%nat → Z.of_nat (length l) < MAX_CAPACITY →
  wp true
    (loop (R := Empty_set)
       (fun i => ret (bool_decide (i > Z.of_nat idx)))
       (fun i =>
          d <- get_data this ;;
          j <- int (i - 1) ;;
          x <- load d j ;;
          store d i x ;;;
          i' <- int (i - 1) ;;
          ret (Next i'))
       (Z.of_nat (length l)) ;;;
     d <- get_data this ;;
     x <- deref element ;;
     store d (Z.of_nat idx) x ;;;
     sz <- get_size this ;;
     sz' <- int (sz + 1) ;;
     put_size this sz')
    fuel w
    (λ _ w', w' = mkWorld (<[this := mkList (Z.of_nat (S (length l))) cap p]> (objs w))
                          (<[p := (Some <$> inserted idx x l) ++ junk]> (heap w))
                          (expansions w)) E.
Proof.
  intros Ho Hb Hr Hidx Hfuel Hmax.
  apply wp_bind.
  apply (wp_loop_total
    (λ i w', ∃ (k : nat) s', i = Z.of_nat k ∧ (idx ≤ k ≤ length l)%nat ∧
       w' = set_heap <[p := (Some <$> take k l) ++ s' :: (Some <$> drop k l) ++ junk]> w)
    _ _ fuel _ E (λ i _, Z.to_nat i)).
  - intros i w' (k & s' & -> & Hk & ->). apply wp_ret. case_bool_decide as Hgt.
    + destruct k as [|k]; [lia|].
      destruct (lookup_lt_is_Some_2 l k) as [y Hy]; [lia|].
      apply wp_bind. eapply wp_get_data; [done|]. simpl.
      apply wp_bind. apply wp_int; [int_lia|].
      apply wp_bind. eapply wp_load with (x := y).
      { simpl. by rewrite lookup_insert_eq. } { lia. }
      { replace (Z.to_nat (Z.of_nat (S k) - 1)) with k by lia.
        rewrite lookup_app_l by (rewrite length_fmap, length_take; lia).
        rewrite list_lookup_fmap, lookup_take_lt by lia. by rewrite Hy. }
      apply wp_bind. eapply wp_store.
      { simpl. by rewrite lookup_insert_eq. }
      { rewrite length_app, length_fmap, length_take, length_cons. lia. }
      apply wp_bind. apply wp_int; [int_lia|]. apply wp_ret.
      split; [|lia]. exists k, (Some y). split; [lia|]. split; [lia|].
      unfold set_heap. simpl. f_equal. rewrite insert_insert_eq. f_equal.
      rewrite Nat2Z.id. by apply shift_step.
    + assert (k = idx) as -> by lia.
      apply wp_bind. eapply wp_get_data; [done|]. simpl.
      apply wp_bind. eapply wp_deref.
      { destruct element as [y|q j]; simpl in *; [done|].
        destruct Hr as (Hq & Hj & b & Hb' & Hx). split; [done|]. split; [done|].
        exists b. by rewrite lookup_insert_ne. }
      apply wp_bind. eapply wp_store.
      { simpl. by rewrite lookup_insert_eq. }
      { rewrite length_app, length_fmap, length_take, length_cons. lia. }
      apply wp_bind. eapply wp_get_size; [done|]. simpl.
      apply wp_bind. apply wp_int; [int_lia|].
      eapply wp_put_obj; [done|].
      unfold set_objs, set_heap. simpl. f_equal.
      * do 2 f_equal. lia.
      * rewrite insert_insert_eq. f_equal. rewrite Nat2Z.id. by apply place_step.
  - exists (length l), s. split; [done|]. split; [lia|].
    rewrite firstn_all, drop_all. simpl.
    destruct w as [O H' n]. unfold set_heap. simpl in *. f_equal. by rewrite insert_id.
  - lia.
Qed.

Lemma wp_check_bounds st fuel (w : W) pos lo hi (Q : unit → W → Prop) E :
  lo ≤ pos < hi → Q tt w → wp st (check_bounds pos lo hi) fuel w Q E.
Proof. intros. unfold check_bounds. rewrite decide_True by done. by apply wp_ret. Qed.

Lemma wp_check_full st fuel (w : W) sz mx (Q : unit → W → Prop) E :
  sz < mx → Q tt w → wp st (check_full sz mx) fuel w Q E.
Proof. intros. unfold check_full. rewrite decide_False by lia. by apply wp_ret. Qed.

Lemma wp_check_empty st fuel (w : W) sz (Q : unit → W → Prop) E :
  sz ≠ 0 → Q tt w → wp st (check_empty sz) fuel w Q E.
Proof. intros. unfold check_empty. rewrite decide_False by lia. by apply wp_ret. Qed.

Lemma insert_spec fuel (w : W) this l cap p index element x E :
  list_at w this l cap p → ref_to w element x p →
  Z.of_nat (length l) < MAX_CAPACITY →
  - Z.of_nat (length l) ≤ index ≤ Z.of_nat (length l) →
  (length l < fuel)%nat →
  wp true (insert this index element) fuel w
    (λ _ w', insert_post w this l cap p (resolve index (length l)) x w') E.
Proof.
  intros Hl Hr Hmax Hidx Hfuel.
  pose proof Hl as [Ho (junk & Hb & Hlen) Hcap].
  unfold insert.
  apply wp_bind. eapply wp_get_size; [done|]. simpl.
  apply wp_bind, wp_check_full; [done|].
  apply wp_bind, wp_int; [int_lia|].
  apply wp_bind, wp_int; [int_lia|].
  apply wp_bind, wp_check_bounds; [lia|].
  apply wp_bind. eapply wp_get_capacity; [done|]. simpl.
  set (idx := resolve index (length l)).
  assert (idx ≤ length l)%nat as Hidx'.
  { unfold idx, resolve. case_decide; lia. }
  unfold insert_post.
  case_decide as Hfull.
  - (* the buffer is full: expand first *)
    rewrite bool_decide_eq_true_2 by done.
    apply wp_bind. eapply wp_mono; [by apply expand_capacity_spec | | done].
    intros _ w' ->.
    pose proof (grown_bounds cap Hcap) as [Hg Hg'].
    assert (fresh (dom (heap w)) ≠ p) as Hfresh.
    { intros Heq. apply (is_fresh (dom (heap w))). rewrite Heq. apply elem_of_dom. eauto. }
    apply wp_bind. eapply wp_get_size; [unfold expanded; simpl; by rewrite lookup_insert_eq|]. simpl.
    apply wp_seq with (Q1 := λ i w', i = Z.of_nat idx ∧ w' = expanded w this l cap p).
    { unfold idx, resolve. case_decide.
      - apply wp_ret. split; [lia|done].
      - apply wp_int; [int_lia|]. split; [lia|done]. }
    intros i w' [-> ->].
    destruct (Z.to_nat (grown cap) - length l)%nat as [|n] eqn:Hn; [lia|].
    eapply wp_mono; [eapply (insert_shift_spec _ _ this l (grown cap) (fresh (dom (heap w))) None (replicate n None) element x idx) | | done].
    + unfold expanded; simpl. by rewrite lookup_insert_eq.
    + unfold expanded; simpl. rewrite lookup_delete_ne by done.
      by rewrite lookup_insert_eq, Hn.
    + destruct element as [y|q j]; simpl in *; [done|].
      destruct Hr as (Hq & Hj & b & Hb' & Hx).
      assert (q ≠ fresh (dom (heap w))) as Hq'.
      { intros Heq. apply (is_fresh (dom (heap w))). rewrite <-Heq. apply elem_of_dom. eauto. }
      split; [done|]. split; [done|]. exists b.
      by rewrite lookup_delete_ne, lookup_insert_ne.
    + done.
    + done.
    + done.
    + intros _ w' ->. exists (replicate n None). unfold expanded. simpl. split.
      * f_equal; [by rewrite insert_insert_eq|].
        rewrite <-delete_insert_ne by done. by rewrite insert_insert_eq, delete_insert_ne.
      * rewrite length_replicate. lia.
  - rewrite bool_decide_eq_false_2 by done.
    apply wp_bind, wp_ret.
    apply wp_bind. eapply wp_get_size; [done|]. simpl.
    apply wp_seq with (Q1 := λ i w', i = Z.of_nat idx ∧ w' = w).
    { unfold idx, resolve. case_decide.
      - apply wp_ret. split; [lia|done].
      - apply wp_int; [int_lia|]. split; [lia|done]. }
    intros i w' [-> ->].
    destruct junk as [|s junk]; [simpl in *; lia|].
    eapply wp_mono; [by eapply (insert_shift_spec _ _ this l cap p s junk element x idx) | | done].
    intros _ w' ->. exists junk. split.
    + f_equal. by rewrite insert_delete_eq.
    + simpl in *. lia.
Qed.
(** ** Scoped locals *)

Lemma wp_with_local st {A} (ctor : M' addr) (body : addr → M' A) fuel (w : W) Q E :
  wp st ctor fuel w
    (λ a w1, wp st (body a) fuel w1
       (λ r w2, wp st (List_delete a) fuel w2 (λ _ w3, Q r w3) E)
       (λ e w2, wp st (List_delete a) fuel w2 (λ _ w3, E e w3) E)) E →
  wp st (with_local ctor body) fuel w Q E.
Proof.
  unfold wp, with_local. destruct (ctor fuel w) as [a w1| | |]; [|done..].
  destruct (body a fuel w1) as [r w2|e w2| |]; [| |done..].
  - unfold bind. by destruct (List_delete a fuel w2).
  - unfold bind. by destruct (List_delete a fuel w2).
Qed.

Lemma wp_returning_local st (ctor : M' addr) (body : addr → M' unit) fuel (w : W) Q E :
  wp st ctor fuel w
    (λ a w1, wp st (body a) fuel w1
       (λ _ w2, Q a w2)
       (λ e w2, wp st (List_delete a) fuel w2 (λ _ w3, E e w3) E)) E →
  wp st (returning_local ctor body) fuel w Q E.
Proof.
  unfold wp, returning_local. destruct (ctor fuel w) as [a w1| | |]; [|done..].
  destruct (body a fuel w1) as [r w2|e w2| |]; [done| |done..].
  unfold bind. by destruct (List_delete a fuel w2).
Qed.

End Logic.

Section Remove.
Context {T : Type} `{EqDecision T}.
Local Abbreviation buffer := (list (option T)) (only parsing).
Local Abbreviation W := (@world T) (only parsing).
Local Abbreviation M' := (M (@world T)) (only parsing).

Lemma list_at_lookup (w : W) a l cap p :
  list_at w a l cap p → Z.of_nat (length l) ≤ cap ∧ Z.of_nat (length l) ≤ MAX_CAPACITY.
Proof. intros [_ (junk & _ & Hlen) Hcap]. lia. Qed.

Lemma updated_list_at (w w' : W) this p l' cap' p' :
  updated w this p l' cap' p' w' → 0 < cap' ≤ MAX_CAPACITY → list_at w' this l' cap' p'.
Proof.
  intros (junk & Ho & Hh & Hlen & _) Hcap. split; [| |done].
  - by rewrite Ho, lookup_insert_eq.
  - exists junk. by rewrite Hh, lookup_insert_eq.
Qed.

Lemma updated_frame (w w' : W) this p l' cap' p' a l cap q :
  updated w this p l' cap' p' w' → a ≠ this → q ≠ p →
  list_at w a l cap q → list_at w' a l cap q.
Proof.
  intros (junk & Ho & Hh & Hlen & Hp') Ha Hq [Hoa (ja & Hb & Hla) Hcap].
  split; [| |done].
  - by rewrite Ho, lookup_insert_ne.
  - exists ja. split; [|done]. rewrite Hh.
    rewrite lookup_insert_ne, lookup_delete_ne; [done..|].
    intros ->. destruct Hp' as [->|Hn]; [done|]. by rewrite Hn in Hb.
Qed.

Lemma updated_trans (w w1 w2 : W) this p l1 c1 p1 l2 c2 p2 :
  updated w this p l1 c1 p1 w1 → updated w1 this p1 l2 c2 p2 w2 →
  updated w this p l2 c2 p2 w2.
Proof.
  intros (j1 & Ho1 & Hh1 & Hl1 & Hp1) (j2 & Ho2 & Hh2 & Hl2 & Hp2).
  exists j2. split; [by rewrite Ho2, Ho1, insert_insert_eq|].
  split; [|split; [done|]].
  - rewrite Hh2, Hh1, delete_insert_eq. f_equal.
    destruct Hp1 as [->|Hn].
    + apply map_eq. intros i. destruct (decide (i = p)) as [->|].
      * by rewrite !lookup_delete_eq.
      * by rewrite !lookup_delete_ne.
    + apply map_eq. intros i. destruct (decide (i = p1)) as [->|].
      * rewrite lookup_delete_eq. symmetry.
        destruct (decide (p1 = p)) as [->|]; [by rewrite lookup_delete_eq|].
        by rewrite lookup_delete_ne.
      * by rewrite (lookup_delete_ne _ p1 i).
  - destruct Hp2 as [->|Hn]; [done|]. rewrite Hh1 in Hn.
    destruct (decide (p2 = p1)) as [->|Hne].
    + by rewrite lookup_insert_eq in Hn.
    + rewrite lookup_insert_ne in Hn by done.
      destruct (decide (p2 = p)) as [->|]; [by left|].
      right. by rewrite lookup_delete_ne in Hn.
Qed.

Lemma updated_refl (w : W) this l cap p :
  list_at w this l cap p → updated w this p l cap p w.
Proof.
  intros [Ho (junk & Hb & Hlen) Hcap]. exists junk.
  split; [by rewrite insert_id|]. split; [|split; [done|by left]].
  by rewrite insert_delete_eq, insert_id.
Qed.

Lemma insert_post_updated (w w' : W) this l cap p idx x :
  list_at w this l cap p →
  insert_post w this l cap p idx x w' →
  ∃ cap' p', updated w this p (inserted idx x l) cap' p' w' ∧
             cap ≤ cap' ≤ MAX_CAPACITY.
Proof.
  intros [Ho (junk & Hb & Hlen) Hcap] (junk' & -> & Hlen').
  pose proof (grown_bounds cap Hcap) as [Hg _].
  eexists _, _. split.
  - exists junk'. simpl. split; [by rewrite length_inserted|]. split; [done|].
    rewrite length_inserted. split; [done|].
    case_bool_decide; [right|by left].
    apply not_elem_of_dom, is_fresh.
  - case_bool_decide; lia.
Qed.

(** ** remove *)

Lemma remove_init (l : list T) idx :
  (idx < length l)%nat → delete idx (take (S idx) l) ++ drop idx l = l.
Proof.
  intros Hi. rewrite delete_take_drop, take_take, drop_ge, app_nil_r.
  - replace (idx `min` S idx)%nat with idx by lia. apply take_drop.
  - rewrite length_take. lia.
Qed.

Lemma delete_app_lt {A} (l1 l2 : list A) i :
  (i < length l1)%nat → delete i (l1 ++ l2) = delete i l1 ++ l2.
Proof.
  revert i. induction l1 as [|a l1 IH]; intros [|i] Hi; simpl in *; try lia; [done|].
  f_equal. apply IH. lia.
Qed.

Lemma remove_step (l : list T) (idx j : nat) y (junk : buffer) :
  l !! S j = Some y → (idx ≤ j)%nat →
  <[j := Some y]> ((Some <$> delete idx (take (S j) l)) ++ (Some <$> drop j l) ++ junk)
  = (Some <$> delete idx (take (S (S j)) l)) ++ (Some <$> drop (S j) l) ++ junk.
Proof.
  intros Hy Hj. assert (S j < length l)%nat by (by eapply lookup_lt_Some).
  assert (length (delete idx (take (S j) l)) = j) as Hlen.
  { rewrite length_delete; rewrite ?length_take; [lia|].
    apply lookup_lt_is_Some_2. rewrite length_take. lia. }
  rewrite insert_app_r_alt; rewrite length_fmap, Hlen; [|lia].
  replace (j - j)%nat with 0%nat by lia.
  destruct (lookup_lt_is_Some_2 l j) as [z Hz]; [lia|].
  rewrite (drop_S l z j Hz). simpl.
  rewrite (take_S_r l (S j) y Hy).
  rewrite delete_app_lt by (rewrite length_take; lia).
  by rewrite fmap_app, <-(assoc_L (++)).
Qed.

Lemma remove_spec fuel (w : W) this l cap p index x E :
  list_at w this l cap p →
  - Z.of_nat (length l) ≤ index < Z.of_nat (length l) →
  l !! resolve index (length l) = Some x →
  (length l < fuel)%nat →
  wp true (remove this index) fuel w
    (λ r w', r = x ∧
       updated w this p (delete (resolve index (length l)) l) cap p w' ∧
       expansions w' = expansions w) E.
Proof.
  intros [Ho (junk & Hb & Hlen) Hcap] Hidx Hx Hfuel.
  set (idx := resolve index (length l)) in *.
  assert (idx < length l)%nat as Hidx' by (by eapply lookup_lt_Some).
  unfold remove.
  apply wp_bind. eapply wp_get_size; [done|]. simpl.
  apply wp_bind, wp_check_empty; [lia|].
  apply wp_bind, wp_int; [int_lia|].
  apply wp_bind, wp_check_bounds; [lia|].
  apply wp_seq with (Q1 := λ i w', i = Z.of_nat idx ∧ w' = w).
  { unfold idx, resolve. case_decide.
    - apply wp_ret. split; [lia|done].
    - apply wp_int; [int_lia|]. split; [lia|done]. }
  intros i w' [-> ->].
  apply wp_bind. eapply wp_get_data; [done|]. simpl.
  apply wp_bind. eapply wp_load with (x := x); [done|lia| |].
  { rewrite Nat2Z.id. by apply cells_lookup. }
  apply wp_bind, wp_int; [int_lia|].
  apply wp_bind.
  apply (wp_loop_total
    (λ i w', ∃ j : nat, i = Z.of_nat (S j) ∧ (idx ≤ j < length l)%nat ∧
       w' = set_heap <[p := (Some <$> delete idx (take (S j) l)) ++
                            (Some <$> drop j l) ++ junk]> w)
    _ _ fuel _ E (λ i _, (length l - Z.to_nat i)%nat)).
  - intros i w' (j & -> & Hj & ->).
    apply wp_bind. eapply wp_get_size; [done|]. apply wp_ret. simpl.
    assert (length (delete idx (take (S j) l)) = j) as Hdl.
    { rewrite length_delete; rewrite ?length_take; [lia|].
      apply lookup_lt_is_Some_2. rewrite length_take. lia. }
    case_bool_decide as Hlt.
    + destruct (lookup_lt_is_Some_2 l (S j)) as [y Hy]; [lia|].
      apply wp_bind. eapply wp_get_data; [done|]. simpl.
      apply wp_bind. eapply wp_load with (x := y).
      { simpl. by rewrite lookup_insert_eq. } { lia. }
      { rewrite Nat2Z.id.
        rewrite lookup_app_r; rewrite length_fmap, Hdl; [|lia].
        replace (S j - j)%nat with 1%nat by lia.
        rewrite lookup_app_l by (rewrite length_fmap, length_drop; lia).
        rewrite list_lookup_fmap, lookup_drop.
        replace (j + 1)%nat with (S j) by lia. by rewrite Hy. }
      apply wp_bind, wp_int; [int_lia|].
      apply wp_bind. eapply wp_store.
      { simpl. by rewrite lookup_insert_eq. }
      { rewrite !length_app, !length_fmap, Hdl, length_drop. lia. }
      apply wp_bind, wp_int; [int_lia|]. apply wp_ret.
      split; [|lia]. exists (S j). split; [lia|]. split; [lia|].
      unfold set_heap. simpl. f_equal. rewrite insert_insert_eq. f_equal.
      replace (Z.to_nat (Z.of_nat (S j) - 1)) with j by lia.
      apply remove_step; [done|lia].
    + assert (S j = length l) as Hj' by lia.
      apply wp_bind. eapply wp_get_size; [done|]. simpl.
      apply wp_bind, wp_int; [int_lia|].
      apply wp_bind. eapply wp_put_obj; [done|]. apply wp_ret.
      split; [done|]. split; [|done].
      exists ((Some <$> drop j l) ++ junk). simpl.
      rewrite Hj', firstn_all.
      assert (length (delete idx l) = j) as Hdl'.
      { rewrite length_delete; [lia|]. by apply lookup_lt_is_Some_2. }
      rewrite Hdl'. split; [do 3 f_equal; lia|].
      split; [by rewrite insert_delete_eq|].
      split; [|by left]. rewrite length_app, length_fmap, length_drop. lia.
  - exists idx. split; [lia|]. split; [lia|].
    rewrite (assoc_L (++)), <-fmap_app, remove_init by done.
    destruct w as [O H' n]. unfold set_heap. simpl in *. f_equal. by rewrite insert_id.
  - lia.
Qed.

End Remove.

Section Find.
Context {T : Type} `{EqDecision T}.
Local Abbreviation buffer := (list (option T)) (only parsing).
Local Abbreviation W := (@world T) (only parsing).
Local Abbreviation M' := (M (@world T)) (only parsing).

Lemma wp_deref_val st fuel (w : W) r x (Q : T → W → Prop) E :
  ref_val w r x → Q x w → wp st (deref r) fuel w Q E.
Proof.
  destruct r as [y|q i]; simpl.
  - intros -> HQ. by apply wp_ret.
  - intros (Hi & b & Hb & Hx) HQ. by eapply wp_load.
Qed.

Lemma ref_to_val (w : W) r x p : ref_to w r x p → ref_val w r x.
Proof. destruct r as [y|q i]; simpl; [done|]. by intros (_ & ? & ?). Qed.

Lemma slot_ref_val (w : W) this l cap p (k : nat) x :
  list_at w this l cap p → l !! k = Some x → ref_val w (Slot p (Z.of_nat k)) x.
Proof.
  intros [_ (junk & Hb & _) _] Hx. simpl. split; [lia|].
  eexists. split; [done|]. rewrite Nat2Z.id. by apply cells_lookup.
Qed.

(** ** find *)

Lemma find_spec fuel (w : W) this l cap p element x start stop E :
  list_at w this l cap p → ref_val w element x →
  0 ≤ start → (length l < fuel)%nat →
  wp true (find this element start stop) fuel w
    (λ r w', w' = w ∧ find_result l x start stop r) E.
Proof.
  intros Hl Hr Hstart Hfuel.
  pose proof Hl as [Ho (junk & Hb & Hlen) Hcap].
  unfold find.
  apply wp_bind. eapply wp_get_size; [done|]. simpl.
  set (hi := if decide (stop > Z.of_nat (length l)) then Z.of_nat (length l) else stop).
  assert (hi = Z.min stop (Z.of_nat (length l))) as Hhi by (unfold hi; case_decide; lia).
  apply wp_seq with (Q1 := λ r w',
    w' = w ∧ match r with
             | Leave i => start ≤ i < hi ∧ l !! Z.to_nat i = Some x ∧
                          ∀ j, start ≤ j < i → l !! Z.to_nat j ≠ Some x
             | Next _ => ∀ j, start ≤ j < hi → l !! Z.to_nat j ≠ Some x
             end).
  - apply (wp_loop_total
      (λ i w', w' = w ∧ start ≤ i ∧
         ∀ j, start ≤ j < Z.min i hi → l !! Z.to_nat j ≠ Some x)
      _ _ fuel _ E (λ i _, Z.to_nat (hi - i))).
    + intros i w' (-> & Hi & Hnot). apply wp_ret. case_bool_decide as Hlt.
      * destruct (lookup_lt_is_Some_2 l (Z.to_nat i)) as [y Hy]; [lia|].
        apply wp_bind. eapply wp_get_data; [done|]. simpl.
        apply wp_bind. eapply wp_load with (x := y); [done|lia|by apply cells_lookup|].
        apply wp_bind. eapply wp_deref_val; [done|].
        case_decide as Heq.
        -- apply wp_ret. subst y. split; [done|]. split; [lia|]. split; [done|].
           intros j Hj. apply Hnot. lia.
        -- apply wp_bind, wp_int; [int_lia|]. apply wp_ret.
           split; [|lia]. split; [done|]. split; [lia|].
           intros j Hj. destruct (decide (j = i)) as [->|].
           ++ rewrite Hy. congruence.
           ++ apply Hnot. lia.
      * split; [done|]. intros j Hj. apply Hnot. lia.
    + split; [done|]. split; [lia|]. intros j Hj. lia.
    + lia.
  - intros [i|i] w' [-> Hres]; apply wp_ret; (split; [done|]);
      unfold find_result; rewrite <-Hhi; [left|right]; done.
Qed.

(** A negative [start] below the clamped [stop] is used as a subscript. *)
Lemma find_negative_start fuel (w : W) this l cap p element start stop :
  list_at w this l cap p →
  start < 0 → start < stop → start < Z.of_nat (length l) → (0 < fuel)%nat →
  find this element start stop fuel w = Fault OutOfBounds.
Proof.
  intros [Ho (junk & Hb & Hlen) Hcap] Hneg Hstop Hlen' Hfuel.
  destruct fuel as [|n]; [lia|].
  unfold find, get_size, get_data, get_obj, ret, load.
  do 3 (unfold bind, loop; cbn beta iota delta [iterate]).
  rewrite Ho. cbn [size_ data_].
  rewrite bool_decide_eq_true_2 by (case_decide; lia).
  cbv beta iota. rewrite Ho. cbn [data_]. by rewrite Hb, decide_False by lia.
Qed.

(** ** count *)

Lemma occurrences_snoc (x y : T) (l : list T) :
  occurrences x (l ++ [y]) = (occurrences x l + (if decide (y = x) then 1 else 0))%nat.
Proof.
  unfold occurrences. rewrite filter_app, length_app. f_equal.
  rewrite filter_cons, filter_nil. by case_decide.
Qed.

Lemma occurrences_le (x : T) (l : list T) : (occurrences x l ≤ length l)%nat.
Proof. apply length_filter. Qed.

Lemma count_spec fuel (w : W) this l cap p element x E :
  list_at w this l cap p → ref_val w element x → (length l < fuel)%nat →
  wp true (count this element) fuel w
    (λ r w', w' = w ∧ r = Z.of_nat (occurrences x l)) E.
Proof.
  intros Hl Hr Hfuel.
  pose proof Hl as [Ho (junk & Hb & Hlen) Hcap].
  unfold count.
  apply wp_seq with (Q1 := λ r w',
    w' = w ∧ match r with
             | Next st => snd st = Z.of_nat (occurrences x l)
             | Leave v => False
             end).
  - apply (wp_loop_total
      (λ st w', w' = w ∧ ∃ k : nat, fst st = Z.of_nat k ∧ (k ≤ length l)%nat ∧
         snd st = Z.of_nat (occurrences x (take k l)))
      _ _ fuel _ E (λ st _, (length l - Z.to_nat (fst st))%nat)).
    + intros [i c] w' (-> & k & Hi & Hk & Hc). simpl in *. subst i c.
      apply wp_bind. eapply wp_get_size; [done|]. apply wp_ret. simpl.
      case_bool_decide as Hlt.
      * destruct (lookup_lt_is_Some_2 l k) as [y Hy]; [lia|].
        pose proof (occurrences_le x (take k l)) as Hle.
        rewrite length_take in Hle.
        apply wp_bind. eapply wp_get_data; [done|]. simpl.
        apply wp_bind. eapply wp_load with (x := y); [done|lia| |].
        { rewrite Nat2Z.id. by apply cells_lookup. }
        apply wp_bind. eapply wp_deref_val; [done|].
        apply wp_seq with (Q1 := λ c w',
          w' = w ∧ c = Z.of_nat (occurrences x (take (S k) l))).
        { rewrite (take_S_r l k y Hy), occurrences_snoc.
          case_decide.
          - apply wp_int; [int_lia|]. split; [done|lia].
          - apply wp_ret. split; [done|lia]. }
        intros c w' [-> ->].
        apply wp_bind, wp_int; [int_lia|]. apply wp_ret. simpl.
        split; [|lia]. split; [done|]. exists (S k). split; [lia|]. split; [lia|done].
      * split; [done|]. assert (k = length l) as -> by lia. by rewrite firstn_all.
    + split; [done|]. exists 0%nat. simpl. split; [done|]. split; [lia|done].
    + simpl. lia.
  - intros [[i c]|[]] w' [-> Hres]. apply wp_ret. by simpl in *.
Qed.

(** ** operator== *)

Lemma equal_spec fuel (w : W) this that l cap p l' cap' p' E :
  list_at w this l cap p → list_at w that l' cap' p' → (length l < fuel)%nat →
  wp true (equal this that) fuel w (λ r w', w' = w ∧ r = bool_decide (l = l')) E.
Proof.
  intros Hl Hl' Hfuel.
  pose proof Hl as [Ho (junk & Hb & Hlen) Hcap].
  pose proof Hl' as [Ho' (junk' & Hb' & Hlen') Hcap'].
  unfold equal.
  apply wp_bind. eapply wp_get_size; [done|]. simpl.
  apply wp_bind. eapply wp_get_size; [done|]. simpl.
  case_decide as Hsz.
  { apply wp_ret. split; [done|]. rewrite bool_decide_eq_false_2; [done|].
    intros ->. lia. }
  assert (length l' = length l) as Hll by lia.
  apply wp_seq with (Q1 := λ r w',
    w' = w ∧ match r with
             | Leave b => b = false ∧ l ≠ l'
             | Next _ => l = l'
             end).
  - apply (wp_loop_total
      (λ i w', w' = w ∧ ∃ k : nat, i = Z.of_nat k ∧ (k ≤ length l)%nat ∧
         take k l = take k l')
      _ _ fuel _ E (λ i _, (length l - Z.to_nat i)%nat)).
    + intros i w' (-> & k & -> & Hk & Htake).
      apply wp_bind. eapply wp_get_size; [done|]. apply wp_ret. simpl.
      case_bool_decide as Hlt.
      * destruct (lookup_lt_is_Some_2 l k) as [x Hx]; [lia|].
        destruct (lookup_lt_is_Some_2 l' k) as [y Hy]; [lia|].
        apply wp_bind. eapply wp_get_data; [done|]. simpl.
        apply wp_bind. eapply wp_load with (x := x); [done|lia| |].
        { rewrite Nat2Z.id. by apply cells_lookup. }
        apply wp_bind. eapply wp_get_data; [done|]. simpl.
        apply wp_bind. eapply wp_load with (x := y); [done|lia| |].
        { rewrite Nat2Z.id. by apply cells_lookup. }
        case_decide as Hxy.
        -- apply wp_ret. split; [done|]. split; [done|]. intros ->. congruence.
        -- apply wp_bind, wp_int; [int_lia|]. apply wp_ret.
           split; [|lia]. split; [done|]. exists (S k). split; [lia|]. split; [lia|].
           rewrite (take_S_r l k x Hx), (take_S_r l' k y Hy), Htake.
           f_equal. f_equal. by destruct (decide (x = y)).
      * split; [done|]. assert (k = length l) as -> by lia.
        rewrite firstn_all in Htake. rewrite <-Hll, firstn_all in Htake. done.
    + split; [done|]. exists 0%nat. split; [done|]. split; [lia|done].
    + lia.
  - intros [i|b] w' [-> Hres]; apply wp_ret; (split; [done|]).
    + by rewrite bool_decide_eq_true_2.
    + destruct Hres as [-> Hne]. by rewrite bool_decide_eq_false_2.
Qed.

End Find.

Section Uniquify.
Context {T : Type} `{EqDecision T}.
Local Abbreviation buffer := (list (option T)) (only parsing).
Local Abbreviation W := (@world T) (only parsing).
Local Abbreviation M' := (M (@world T)) (only parsing).

(** ** The pure functions *)

Lemma remove_first_delete (x : T) (l : list T) (r : nat) :
  l !! r = Some x → (∀ i, (i < r)%nat → l !! i ≠ Some x) →
  remove_first x l = delete r l.
Proof.
  revert r. induction l as [|y l IH]; intros [|r] Hr Hfirst; simpl in *; try done.
  - injection Hr as ->. by rewrite decide_True.
  - case_decide as Hy.
    + subst y. by destruct (Hfirst 0%nat ltac:(lia)).
    + f_equal. apply IH; [done|]. intros i Hi. apply (Hfirst (S i)). lia.
Qed.

Lemma remove_first_absent (x : T) (l : list T) :
  (∀ i, l !! i ≠ Some x) → remove_first x l = l.
Proof.
  induction l as [|y l IH]; intros Hno; simpl; [done|].
  case_decide as Hy.
  - subst y. by destruct (Hno 0%nat).
  - f_equal. apply IH. intros i. apply (Hno (S i)).
Qed.

Lemma remove_first_middle (x : T) (l1 l2 : list T) :
  x ∉ l1 → remove_first x (l1 ++ x :: l2) = l1 ++ l2.
Proof.
  induction l1 as [|y l1 IH]; intros Hx; simpl.
  - by rewrite decide_True.
  - apply not_elem_of_cons in Hx as [Hne Hx].
    rewrite decide_False by done. f_equal. by apply IH.
Qed.

Lemma occurrences_app (x : T) (l1 l2 : list T) :
  occurrences x (l1 ++ l2) = (occurrences x l1 + occurrences x l2)%nat.
Proof. unfold occurrences. by rewrite filter_app, length_app. Qed.

Lemma occurrences_cons (x y : T) (l : list T) :
  occurrences x (y :: l) = ((if decide (y = x) then 1 else 0) + occurrences x l)%nat.
Proof. unfold occurrences. rewrite filter_cons. by case_decide. Qed.

Lemma occurrences_zero (x : T) (l : list T) : occurrences x l = 0%nat ↔ x ∉ l.
Proof.
  induction l as [|y l IH]; [by split; [intros _; apply not_elem_of_nil|]|].
  rewrite occurrences_cons, not_elem_of_cons. case_decide as Hy.
  - split; [lia|]. intros [Hne _]. by destruct Hne.
  - rewrite <-IH. split; [intros; split; [congruence|lia]|intros [_ ?]; lia].
Qed.

Lemma keep_last_elem_of (x : T) (l : list T) : x ∈ keep_last l ↔ x ∈ l.
Proof.
  induction l as [|y l IH]; simpl; [done|].
  case_decide as Hy; rewrite ?elem_of_cons, IH; [|done].
  split; [by right|]. intros [->|]; done.
Qed.

Lemma keep_last_NoDup (l : list T) : NoDup (keep_last l).
Proof.
  induction l as [|y l IH]; simpl; [constructor|].
  case_decide as Hy; [done|]. constructor; [|done]. by rewrite keep_last_elem_of.
Qed.

Lemma keep_last_id (l : list T) : NoDup l → keep_last l = l.
Proof.
  induction 1 as [|y l Hy Hl IH]; simpl; [done|].
  rewrite decide_False by done. by f_equal.
Qed.

Lemma keep_last_middle (y : T) (l1 l2 : list T) :
  y ∈ l2 → keep_last (l1 ++ y :: l2) = keep_last (l1 ++ l2).
Proof.
  intros Hy. induction l1 as [|a l1 IH]; simpl.
  - by rewrite decide_True.
  - rewrite IH. destruct (decide (a ∈ l1 ++ y :: l2)) as [Hin|Hin],
      (decide (a ∈ l1 ++ l2)) as [Hin'|Hin']; try done; exfalso.
    + apply Hin'. rewrite elem_of_app in *. rewrite elem_of_cons in Hin.
      destruct Hin as [?|[->|?]]; auto.
    + apply Hin. rewrite elem_of_app in *. rewrite elem_of_cons.
      destruct Hin' as [?|?]; auto.
Qed.

(** ** remove_value *)

Lemma remove_value_spec fuel (w : W) this l cap p element x E :
  list_at w this l cap p → ref_val w element x → (length l < fuel)%nat →
  wp true (remove_value this element) fuel w
    (λ _ w', updated w this p (remove_first x l) cap p w' ∧
             expansions w' = expansions w) E.
Proof.
  intros Hl Hr Hfuel. unfold remove_value.
  pose proof (list_at_lookup _ _ _ _ _ Hl) as [_ Hmax].
  eapply wp_seq.
  { eapply (find_spec _ _ _ l cap p _ x); [done|done|unfold find_default_start; lia|done]. }
  intros r w' [-> Hres]. unfold find_result, find_default_stop, find_default_start in Hres.
  rewrite Z.min_r in Hres by lia.
  destruct Hres as [[-> Hno]|(Hr' & Hx & Hfirst)].
  - destruct (decide (-1 ≠ -1)) as [?|_]; [done|]. apply wp_ret.
    rewrite remove_first_absent.
    + split; [by apply updated_refl|done].
    + intros i Hi. assert (i < length l)%nat by (by eapply lookup_lt_Some).
      apply (Hno (Z.of_nat i)); [lia|]. by rewrite Nat2Z.id.
  - rewrite decide_True by lia.
    apply wp_bind. eapply wp_mono; [eapply (remove_spec _ _ _ _ _ _ r x); [done|lia| |done]| |done].
    + unfold resolve. by rewrite decide_True by lia.
    + intros _ w' (_ & Hup & Hexp). apply wp_ret. split; [|done].
      unfold resolve in Hup. rewrite decide_True in Hup by lia.
      rewrite (remove_first_delete x l (Z.to_nat r)); [done..|].
      intros i Hi. specialize (Hfirst (Z.of_nat i)). rewrite Nat2Z.id in Hfirst.
      apply Hfirst. lia.
Qed.

(** ** uniquify *)

Lemma uniquify_inv_remaining (w : W) this l cap p A B w' :
  uniquify_inv w this l cap p A B w' →
  remaining this (Z.of_nat (length A)) w' = length B.
Proof.
  intros ((junk & Ho & _) & _). unfold remaining. rewrite Ho, lookup_insert_eq. simpl.
  rewrite length_app. lia.
Qed.

Lemma uniquify_spec fuel (w : W) this l cap p E :
  list_at w this l cap p → (length l < fuel)%nat →
  wp true (uniquify this) fuel w
    (λ _ w', updated w this p (keep_last l) cap p w' ∧
             expansions w' = expansions w) E.
Proof.
  intros Hl Hfuel. pose proof (la_cap _ _ _ _ _ Hl) as Hcap.
  pose proof (list_at_lookup _ _ _ _ _ Hl) as [_ Hmax].
  unfold uniquify. apply wp_bind.
  apply (wp_loop_total
    (λ i w', ∃ A B, i = Z.of_nat (length A) ∧ uniquify_inv w this l cap p A B w')
    _ _ fuel _ E (remaining this)).
  - intros i w1 (A & B & -> & Hinv).
    pose proof Hinv as (Hup & Hexp & HA & Hdis & Hkeep & Hlen).
    pose proof (updated_list_at _ _ _ _ _ _ _ Hup Hcap) as Hl1.
    apply wp_bind. eapply wp_get_size; [apply Hl1|]. apply wp_ret. simpl.
    rewrite length_app. case_bool_decide as Hlt.
    + (* the inner loop *)
      apply wp_seq with (Q1 := λ _ w2, ∃ y B',
        uniquify_inv w this l cap p A (y :: B') w2 ∧ (y ∉ B') ∧ (length B' < length B)%nat).
      * apply (wp_loop_total
          (λ _ w2, ∃ y B', uniquify_inv w this l cap p A (y :: B') w2 ∧
                           (length B' < length B)%nat)
          _ _ fuel _ E (λ _, remaining this (Z.of_nat (length A)))).
        -- intros [] w2 (y & B' & Hinv2 & HB').
           pose proof Hinv2 as (Hup2 & Hexp2 & _ & Hdis2 & Hkeep2 & Hlen2).
           pose proof (updated_list_at _ _ _ _ _ _ _ Hup2 Hcap) as Hl2.
           assert ((A ++ y :: B') !! length A = Some y) as Hy.
           { by rewrite lookup_app_r, Nat.sub_diag by lia. }
           assert (occurrences y (A ++ y :: B') = S (occurrences y B')) as Hocc.
           { rewrite occurrences_app, occurrences_cons, decide_True by done.
             assert (occurrences y A = 0)%nat as ->; [|done].
             apply occurrences_zero. intros HyA. apply (Hdis2 y HyA). by left. }
           apply wp_bind. eapply wp_get_data; [apply Hl2|]. simpl.
           apply wp_bind. eapply wp_mono;
             [eapply (count_spec _ _ _ _ _ _ _ y); [done| |lia]| |done].
           { by eapply slot_ref_val. }
           intros c w' [-> ->]. apply wp_ret. rewrite Hocc.
           case_bool_decide as Hc.
           ++ assert (y ∈ B') as HyB.
              { destruct (decide (y ∈ B')) as [|Hn]; [done|].
                apply occurrences_zero in Hn. lia. }
              apply wp_bind. eapply wp_get_data; [apply Hl2|]. simpl.
              apply wp_bind. eapply wp_mono;
                [eapply (remove_value_spec _ _ _ _ _ _ _ y); [done| |lia]| |done].
              { by eapply slot_ref_val. }
              intros _ w3 [Hup3 Hexp3]. apply wp_ret.
              rewrite remove_first_middle in Hup3
                by (intros HyA; apply (Hdis2 y HyA); by left).
              destruct B' as [|z B'']; [by apply elem_of_nil in HyB|].
              assert (uniquify_inv w this l cap p A (z :: B'') w3) as Hinv3.
              { split; [by eapply updated_trans|]. split; [congruence|].
                split; [done|]. split.
                - intros x Hx Hx'. apply (Hdis2 x Hx). by right.
                - split; [by rewrite <-Hkeep2, (keep_last_middle y A (z :: B''))|].
                  rewrite length_app in *. simpl in *. lia. }
              split.
              ** exists z, B''. split; [done|]. simpl in *. lia.
              ** rewrite (uniquify_inv_remaining _ _ _ _ _ _ _ _ Hinv3),
                   (uniquify_inv_remaining _ _ _ _ _ _ _ _ Hinv2). simpl. lia.
           ++ exists y, B'. split; [done|]. split; [|done].
              apply occurrences_zero. lia.
        -- destruct B as [|y B']; [simpl in *; lia|].
           exists y, B'. split; [done|]. simpl. lia.
        -- rewrite (uniquify_inv_remaining _ _ _ _ _ _ _ _ Hinv).
           rewrite length_app in Hlen. lia.
      * intros _ w2 (y & B' & Hinv2 & Hy & HB').
        pose proof Hinv2 as (Hup2 & Hexp2 & HA2 & Hdis2 & Hkeep2 & Hlen2).
        apply wp_bind, wp_int; [rewrite length_app in Hlen; int_lia|]. apply wp_ret.
        assert (uniquify_inv w this l cap p (A ++ [y]) B' w2) as Hinv3.
        { unfold uniquify_inv. rewrite <-(assoc_L (++)). simpl. split; [done|]. split; [done|].
          split; [|split; [|done]].
          - apply NoDup_app. split; [done|]. split; [|apply NoDup_singleton].
            intros x Hx ->%list_elem_of_singleton. apply (Hdis2 y Hx). by left.
          - intros x [Hx| ->%list_elem_of_singleton]%elem_of_app; [|done].
            intros Hx'. apply (Hdis2 x Hx). by right. }
        split.
        -- exists (A ++ [y]), B'. split; [|done]. rewrite length_app. simpl. lia.
        -- replace (Z.of_nat (length A) + 1) with (Z.of_nat (length (A ++ [y])))
             by (rewrite length_app; simpl; lia).
           rewrite (uniquify_inv_remaining _ _ _ _ _ _ _ _ Hinv3),
             (uniquify_inv_remaining _ _ _ _ _ _ _ _ Hinv). lia.
    + apply wp_ret. destruct B as [|y B']; [|simpl in *; lia].
      rewrite app_nil_r in *. rewrite keep_last_id in Hkeep by done.
      by rewrite <-Hkeep.
  - exists [], l. split; [done|]. simpl.
    split; [by apply updated_refl|]. split; [done|]. split; [constructor|].
    split; [|done]. intros x Hx. by apply elem_of_nil in Hx.
  - unfold remaining. rewrite (la_obj _ _ _ _ _ Hl). simpl. lia.
Qed.

End Uniquify.

Section Construct.
Context {T : Type} `{EqDecision T}.
Local Abbreviation buffer := (list (option T)) (only parsing).
Local Abbreviation W := (@world T) (only parsing).
Local Abbreviation M' := (M (@world T)) (only parsing).

Lemma fresh_heap (w : W) : heap w !! fresh (dom (heap w)) = None.
Proof. apply not_elem_of_dom, is_fresh. Qed.

Lemma fresh_objs (w : W) : objs w !! fresh (dom (objs w)) = None.
Proof. apply not_elem_of_dom, is_fresh. Qed.

(** ** Facts about [created] and [dropped] *)

Lemma created_list_at (w w1 : W) a l cap q :
  created w a l cap q w1 → 0 < cap ≤ MAX_CAPACITY → list_at w1 a l cap q.
Proof.
  intros (junk & _ & _ & Ho & Hh & Hlen) Hcap. split; [| |done].
  - by rewrite Ho, lookup_insert_eq.
  - exists junk. by rewrite Hh, lookup_insert_eq.
Qed.

Lemma created_frame (w w1 : W) a la ca qa b l cap q :
  created w a la ca qa w1 → list_at w b l cap q → list_at w1 b l cap q.
Proof.
  intros (junk & Hna & Hnq & Ho & Hh & _) [Hob (jb & Hb & Hlb) Hcap].
  split; [| |done].
  - rewrite Ho, lookup_insert_ne; [done|]. intros ->. by rewrite Hna in Hob.
  - exists jb. split; [|done]. rewrite Hh, lookup_insert_ne; [done|].
    intros ->. by rewrite Hnq in Hb.
Qed.

Lemma created_updated (w w1 w2 : W) a l0 c0 q0 l ca qa :
  created w a l0 c0 q0 w1 → updated w1 a q0 l ca qa w2 → created w a l ca qa w2.
Proof.
  intros (j0 & Hna & Hnq & Ho & Hh & _) (junk & Ho2 & Hh2 & Hlen & Hq).
  exists junk. split; [done|].
  assert (heap w !! qa = None) as Hqa.
  { destruct Hq as [->|Hn]; [done|]. rewrite Hh in Hn.
    destruct (decide (qa = q0)) as [->|]; [done|].
    by rewrite lookup_insert_ne in Hn. }
  split; [done|]. split; [by rewrite Ho2, Ho, insert_insert_eq|]. split; [|done].
  by rewrite Hh2, Hh, delete_insert_eq, (delete_id _ q0).
Qed.

Lemma updated_drop_local (w w1 w2 : W) a la ca qa this p l' c' p' :
  created w a la ca qa w1 → updated w1 this p l' c' p' w2 →
  this ≠ a → p ≠ qa →
  updated w this p l' c' p' (dropped a qa w2).
Proof.
  intros (ja & Hna & Hnq & Ho & Hh & _) (junk & Ho2 & Hh2 & Hlen & Hp') Hne Hpq.
  assert (p' ≠ qa) as Hp'q.
  { intros ->. destruct Hp' as [->|Hn]; [done|].
    by rewrite Hh, lookup_insert_eq in Hn. }
  exists junk. unfold dropped. simpl. split; [|split; [|split; [done|]]].
  - rewrite Ho2, Ho, delete_insert_ne, delete_insert_eq, delete_id by done. done.
  - rewrite Hh2, Hh, delete_insert_ne by done. f_equal.
    apply map_eq. intros i.
    destruct (decide (i = qa)) as [->|Hi].
    + rewrite lookup_delete_eq. symmetry.
      by rewrite lookup_delete_ne.
    + rewrite lookup_delete_ne by done.
      destruct (decide (i = p)) as [->|Hip].
      * by rewrite !lookup_delete_eq.
      * by rewrite !lookup_delete_ne, lookup_insert_ne.
  - destruct Hp' as [->|Hn]; [by left|right].
    by rewrite Hh, lookup_insert_ne in Hn.
Qed.

Lemma to_int_small z : INT_MIN ≤ z ≤ INT_MAX → to_int z = z.
Proof.
  unfold to_int, INT_MIN, INT_MAX. intros Hz.
  rewrite Z.mod_small; lia.
Qed.

(** ** Constructors and destructor *)

Lemma List_new_spec fuel (w : W) E :
  wp true List_new fuel w
    (λ a w', a = fresh (dom (objs w)) ∧ expansions w' = expansions w ∧
             created w a [] INIT_CAPACITY (fresh (dom (heap w))) w') E.
Proof.
  unfold List_new. apply wp_bind, wp_new_array; [done|]. apply wp_new_obj.
  split; [done|]. split; [done|]. exists (replicate 4 None). simpl.
  split; [apply fresh_objs|]. split; [apply fresh_heap|]. done.
Qed.

Lemma List_delete_spec fuel (w : W) this l cap p E :
  list_at w this l cap p →
  wp true (List_delete this) fuel w (λ _ w', w' = dropped this p w) E.
Proof.
  intros [Ho (junk & Hb & _) _]. unfold List_delete.
  apply wp_bind. eapply wp_get_data; [done|]. simpl.
  apply wp_bind, wp_delete_array; [eauto|].
  apply wp_free_obj; [simpl; eauto|]. done.
Qed.

Lemma List_copy_spec fuel (w : W) that l cap q E :
  list_at w that l cap q → (length l < fuel)%nat →
  wp true (List_copy that) fuel w
    (λ a w', a = fresh (dom (objs w)) ∧ expansions w' = expansions w ∧
             created w a l cap (fresh (dom (heap w))) w') E.
Proof.
  intros [Ho (junk & Hb & Hlen) Hcap] Hfuel. unfold List_copy.
  pose proof (fresh_heap w) as Hfh. pose proof (fresh_objs w) as Hfo.
  set (p := fresh (dom (heap w))) in *. set (a := fresh (dom (objs w))) in *.
  assert (q ≠ p) as Hqp by (intros ->; by rewrite Hfh in Hb).
  assert (that ≠ a) as Hta by (intros ->; by rewrite Hfo in Ho).
  apply wp_bind. eapply wp_get_size; [done|]. simpl.
  apply wp_bind. eapply wp_get_capacity; [done|]. simpl.
  apply wp_bind, wp_new_array; [lia|]. fold p.
  apply wp_bind, wp_new_obj. simpl. fold a.
  apply wp_bind.
  eapply (copy_elements_spec _ _ a _ l junk q p).
  - simpl. by rewrite lookup_insert_eq.
  - done.
  - simpl. by rewrite lookup_insert_ne.
  - simpl. by rewrite lookup_insert_eq.
  - done.
  - lia.
  - done.
  - int_lia.
  - intros w' Hw' Q' HQ'. eapply wp_get_data; [rewrite Hw'; simpl; by rewrite lookup_insert_eq|done].
  - intros w' Hw' Q' HQ'. eapply wp_get_data; [rewrite Hw'; simpl; by rewrite lookup_insert_ne|done].
  - apply wp_ret. split; [done|]. split; [done|].
    exists (replicate (Z.to_nat cap - length l) None). simpl.
    split; [done|]. split; [done|]. split; [done|].
    split; [by rewrite insert_insert_eq|]. rewrite length_replicate. lia.
Qed.

Lemma List_of_spec fuel (w : W) (il : list T) E :
  Z.of_nat (length il) ≤ INT_MAX → (length il < fuel)%nat →
  wp true (List_of il) fuel w
    (λ a w', a = fresh (dom (objs w)) ∧ expansions w' = expansions w ∧
             created w a il (Z.max (Z.of_nat (length il)) INIT_CAPACITY)
               (fresh (dom (heap w))) w') E.
Proof.
  intros Hlen Hfuel. unfold List_of.
  rewrite to_int_small by int_lia.
  set (cap := if decide (Z.of_nat (length il) >= INIT_CAPACITY)
              then Z.of_nat (length il) else INIT_CAPACITY).
  assert (cap = Z.max (Z.of_nat (length il)) INIT_CAPACITY) as Hcap
    by (unfold cap; case_decide; lia).
  assert (0 ≤ cap ∧ Z.of_nat (length il) ≤ cap) as [Hc0 Hc1]
    by (unfold INIT_CAPACITY in *; lia).
  pose proof (fresh_heap w) as Hfh. pose proof (fresh_objs w) as Hfo.
  set (p := fresh (dom (heap w))) in *. set (a := fresh (dom (objs w))) in *.
  apply wp_bind, wp_new_array; [done|]. fold p.
  apply wp_bind, wp_new_obj. simpl. fold a.
  set (w1 := set_objs _ _).
  apply wp_bind.
  apply (wp_loop_total
    (λ i w', ∃ k : nat, i = Z.of_nat k ∧ (k ≤ length il)%nat ∧
       w' = set_heap <[p := (Some <$> take k il) ++ replicate (Z.to_nat cap - k) None]> w1)
    _ _ fuel _ E (λ i _, (length il - Z.to_nat i)%nat)).
  - intros i w' (k & -> & Hk & ->).
    apply wp_bind. eapply wp_get_size; [simpl; by rewrite lookup_insert_eq|].
    apply wp_ret. simpl. case_bool_decide as Hlt.
    + destruct (lookup_lt_is_Some_2 il k) as [x Hx]; [lia|].
      apply wp_bind. eapply wp_get_data; [simpl; by rewrite lookup_insert_eq|]. simpl.
      rewrite Nat2Z.id, Hx.
      apply wp_bind. eapply wp_store; [simpl; by rewrite lookup_insert_eq| |].
      { rewrite length_app, length_fmap, length_take, length_replicate. lia. }
      apply wp_bind, wp_int; [int_lia|]. apply wp_ret.
      split; [|lia]. exists (S k). split; [lia|]. split; [lia|].
      unfold set_heap. simpl. f_equal. rewrite !insert_insert_eq. f_equal.
      rewrite Nat2Z.id. apply copy_step; [done|lia].
    + apply wp_ret. assert (k = length il) as -> by lia.
      rewrite firstn_all, <-Hcap. split; [done|]. split; [done|].
      exists (replicate (Z.to_nat cap - length il) None). simpl.
      split; [done|]. split; [done|]. split; [done|].
      split; [by rewrite insert_insert_eq|]. rewrite length_replicate. lia.
  - exists 0%nat. split; [done|]. split; [lia|]. simpl. rewrite Nat.sub_0_r.
    unfold w1, set_heap, set_objs. simpl. by rewrite insert_insert_eq.
  - lia.
Qed.

(** ** Copy assignment *)

Lemma assign_spec fuel (w : W) this that l1 c1 p1 l2 c2 p2 E :
  list_at w this l1 c1 p1 → list_at w that l2 c2 p2 →
  this ≠ that → p1 ≠ p2 → (length l2 < fuel)%nat →
  wp true (assign this that) fuel w
    (λ _ w', ∃ p', updated w this p1 l2 c2 p' w' ∧ expansions w' = expansions w) E.
Proof.
  intros [Ho1 (j1 & Hb1 & Hlen1) Hcap1] [Ho2 (j2 & Hb2 & Hlen2) Hcap2] Hne Hpne Hfuel.
  unfold assign. rewrite decide_True by done.
  apply wp_bind. eapply wp_get_size; [done|]. simpl.
  apply wp_bind. eapply wp_put_obj; [done|]. simpl.
  apply wp_bind. eapply wp_get_capacity; [simpl; by rewrite lookup_insert_ne|]. simpl.
  apply wp_bind. eapply wp_put_obj; [simpl; by rewrite lookup_insert_eq|]. simpl.
  apply wp_bind. eapply wp_get_data; [simpl; by rewrite lookup_insert_eq|]. simpl.
  apply wp_bind, wp_delete_array; [simpl; eauto|]. simpl.
  apply wp_bind. eapply wp_get_capacity; [simpl; by rewrite lookup_insert_eq|]. simpl.
  apply wp_bind, wp_new_array; [lia|]. simpl.
  set (p := fresh (dom (delete p1 (heap w)))).
  assert (delete p1 (heap w) !! p = None) as Hp by apply not_elem_of_dom, is_fresh.
  assert (p2 ≠ p) as Hp2.
  { intros <-. by rewrite lookup_delete_ne, Hb2 in Hp. }
  apply wp_bind. eapply wp_put_obj; [simpl; by rewrite lookup_insert_eq|]. simpl.
  eapply (copy_elements_spec _ _ this _ l2 j2 p2 p).
  - simpl. by rewrite lookup_insert_eq.
  - done.
  - simpl. by rewrite lookup_insert_ne, lookup_delete_ne.
  - simpl. by rewrite lookup_insert_eq.
  - done.
  - lia.
  - done.
  - int_lia.
  - intros w' Hw' Q' HQ'. eapply wp_get_data; [rewrite Hw'; simpl; by rewrite lookup_insert_eq|done].
  - intros w' Hw' Q' HQ'. eapply wp_get_data; [rewrite Hw'; simpl; by rewrite !lookup_insert_ne|done].
  - exists p. split; [|done].
    exists (replicate (Z.to_nat c2 - length l2) None). simpl.
    rewrite !insert_insert_eq.
    split; [done|]. split; [done|].
    split; [rewrite length_replicate; lia|].
    destruct (decide (p = p1)) as [->|Hpp]; [by left|right].
    by rewrite lookup_delete_ne in Hp.
Qed.

End Construct.

Section Concat.
Context {T : Type} `{EqDecision T}.
Local Abbreviation buffer := (list (option T)) (only parsing).
Local Abbreviation W := (@world T) (only parsing).
Local Abbreviation M' := (M (@world T)) (only parsing).

Lemma wp_check_full_throw st fuel (w : W) sz mx (Q : unit → W → Prop) (E : exn → W → Prop) :
  mx ≤ sz → E CapacityExceeded w → wp st (check_full sz mx) fuel w Q E.
Proof. intros. unfold check_full. by rewrite decide_True by lia. Qed.

(** insert on a list that has reached MAX_CAPACITY *)
Lemma insert_full_spec fuel (w : W) this l cap p index element :
  list_at w this l cap p → Z.of_nat (length l) = MAX_CAPACITY →
  wp true (insert this index element) fuel w
    (λ _ _, False) (λ e w', e = CapacityExceeded ∧ w' = w).
Proof.
  intros [Ho _ _] Hfull. unfold insert.
  apply wp_bind. eapply wp_get_size; [done|]. simpl.
  apply wp_bind, wp_check_full_throw; [lia|done].
Qed.

Lemma inserted_end (x : T) (l : list T) : inserted (length l) x l = l ++ [x].
Proof. unfold inserted. by rewrite firstn_all, drop_all. Qed.

(** ** append *)

Lemma append_spec fuel (w : W) this l cap p element x :
  list_at w this l cap p → ref_to w element x p → (length l < fuel)%nat →
  wp true (append this element) fuel w
    (λ _ w', Z.of_nat (length l) < MAX_CAPACITY ∧
             insert_post w this l cap p (length l) x w')
    (λ e w', e = CapacityExceeded ∧ Z.of_nat (length l) = MAX_CAPACITY ∧ w' = w).
Proof.
  intros Hl Hr Hfuel. unfold append.
  pose proof (list_at_lookup _ _ _ _ _ Hl) as [_ Hmax].
  apply wp_bind. eapply wp_get_size; [apply Hl|]. simpl.
  destruct (decide (Z.of_nat (length l) = MAX_CAPACITY)) as [Hfull|Hnot].
  - eapply wp_mono; [by eapply insert_full_spec|by intros _ w' []|]. by intros e w' [-> ->].
  - eapply wp_post; [eapply insert_spec; [done|done|lia|lia|done]|].
    intros [] w' Hpost. split; [lia|].
    assert (resolve (Z.of_nat (length l)) (length l) = length l) as Hres
      by (unfold resolve; rewrite decide_True by lia; lia).
    by rewrite Hres in Hpost.
Qed.

(** ** The append loop of operator+= *)

Lemma append_all_spec fuel (w : W) this src l1 c1 p1 l2 c2 p2 :
  list_at w this l1 c1 p1 → list_at w src l2 c2 p2 →
  this ≠ src → p1 ≠ p2 →
  (Z.to_nat (Z.min (Z.of_nat (length l1 + length l2)) MAX_CAPACITY) < fuel)%nat →
  wp true (append_all this src) fuel w
    (λ _ w', Z.of_nat (length l1 + length l2) ≤ MAX_CAPACITY ∧
       ∃ c' p', updated w this p1 (l1 ++ l2) c' p' w' ∧ c1 ≤ c' ≤ MAX_CAPACITY)
    (λ e w', e = CapacityExceeded ∧
       Z.of_nat (length l1 + length l2) > MAX_CAPACITY ∧
       ∃ (k : nat) c' p', Z.of_nat (length l1 + k) = MAX_CAPACITY ∧
         updated w this p1 (l1 ++ take k l2) c' p' w' ∧ c1 ≤ c' ≤ MAX_CAPACITY).
Proof.
  intros Hl1 Hl2 Hne Hpne Hfuel.
  pose proof (list_at_lookup _ _ _ _ _ Hl1) as [_ Hmax1].
  pose proof (list_at_lookup _ _ _ _ _ Hl2) as [_ Hmax2].
  pose proof (la_cap _ _ _ _ _ Hl1) as Hcap1.
  unfold append_all. apply wp_bind.
  apply (wp_loop_total
    (λ i w', ∃ (k : nat) c' p', i = Z.of_nat k ∧ (k ≤ length l2)%nat ∧
       Z.of_nat (length l1 + k) ≤ MAX_CAPACITY ∧
       updated w this p1 (l1 ++ take k l2) c' p' w' ∧ c1 ≤ c' ≤ MAX_CAPACITY)
    _ _ fuel _ _ (λ i _, (length l2 - Z.to_nat i)%nat)).
  - intros i w1 (k & c' & p' & -> & Hk & Hsum & Hup & Hc').
    assert (list_at w1 this (l1 ++ take k l2) c' p') as Hthis
      by (eapply updated_list_at; [done|lia]).
    assert (list_at w1 src l2 c2 p2) as Hsrc by (by eapply updated_frame).
    assert (p2 ≠ p') as Hp2.
    { destruct Hup as (_ & _ & _ & _ & [->|Hn]); [done|].
      destruct Hl2 as [_ (j2 & Hb2 & _) _]. intros <-. by rewrite Hb2 in Hn. }
    apply wp_bind. eapply wp_get_size; [apply Hsrc|]. apply wp_ret. simpl.
    case_bool_decide as Hlt.
    + destruct (lookup_lt_is_Some_2 l2 k) as [x Hx]; [lia|].
      apply wp_bind. eapply wp_get_data; [apply Hsrc|]. simpl.
      assert (length (l1 ++ take k l2) = (length l1 + k)%nat) as Hlen
        by (rewrite length_app, length_take; lia).
      apply wp_bind. eapply wp_mono; [eapply (append_spec _ _ _ _ _ _ _ x); [done| |]| |].
      * pose proof (slot_ref_val _ _ _ _ _ _ _ Hsrc Hx) as [Hi Hb]. by split.
      * rewrite Hlen. lia.
      * intros _ w2 [Hlt' Hpost].
        apply insert_post_updated in Hpost as (c'' & p'' & Hup2 & Hc''); [|done].
        apply wp_bind, wp_int; [int_lia|]. apply wp_ret.
        split; [|lia]. exists (S k), c'', p''. split; [lia|]. split; [lia|].
        split; [lia|]. split; [|lia].
        rewrite inserted_end, <-(assoc_L (++)), <-take_S_r in Hup2 by done.
        by eapply updated_trans.
      * intros e w2 (-> & Hfull & ->). split; [done|]. split; [lia|].
        exists k, c', p'. split; [lia|done].
    + apply wp_ret. assert (k = length l2) as -> by lia.
      rewrite firstn_all in Hup. split; [done|]. by exists c', p'.
  - exists 0%nat, c1, p1. split; [done|]. split; [lia|]. split; [lia|].
    rewrite take_0, app_nil_r. split; [by apply updated_refl|lia].
  - lia.
Qed.

(** ** operator+=(const List&) *)

Lemma concatenate_other_spec fuel (w : W) this list l1 c1 p1 l2 c2 p2 :
  list_at w this l1 c1 p1 → list_at w list l2 c2 p2 →
  this ≠ list → p1 ≠ p2 →
  (Z.to_nat (Z.min (Z.of_nat (length l1 + length l2)) MAX_CAPACITY) < fuel)%nat →
  wp true (concatenate this list) fuel w
    (λ _ w', concat_post w this l1 l2 c1 p1 w')
    (λ e w', concat_fail w this l1 l2 c1 p1 e w').
Proof.
  intros. unfold concatenate. rewrite decide_False by done.
  by eapply append_all_spec.
Qed.

Lemma concatenate_self_spec fuel (w : W) this l cap p :
  list_at w this l cap p →
  (Z.to_nat (Z.min (Z.of_nat (length l + length l)) MAX_CAPACITY) < fuel)%nat →
  wp true (concatenate this this) fuel w
    (λ _ w', concat_post w this l l cap p w')
    (λ e w', concat_fail w this l l cap p e w').
Proof.
  intros Hl Hfuel. unfold concatenate. rewrite decide_True by done.
  pose proof (list_at_lookup _ _ _ _ _ Hl) as [_ Hmax].
  pose proof (la_cap _ _ _ _ _ Hl) as Hcap.
  apply wp_with_local.
  eapply wp_mono; [eapply List_copy_spec; [done|lia]| |done].
  intros saved w1 (-> & _ & Hcr). set (saved := fresh (dom (objs w))) in *.
  set (q := fresh (dom (heap w))) in *.
  pose proof (created_list_at _ _ _ _ _ _ Hcr Hcap) as Hsaved.
  pose proof (created_frame _ _ _ _ _ _ _ _ _ _ Hcr Hl) as Hthis.
  assert (this ≠ saved) as Hne.
  { intros ->. destruct Hl as [Ho _ _]. unfold saved in Ho. by rewrite fresh_objs in Ho. }
  assert (p ≠ q) as Hpq.
  { intros ->. destruct Hl as [_ (j & Hb & _) _]. unfold q in Hb. by rewrite fresh_heap in Hb. }
  eapply wp_mono; [by eapply (append_all_spec _ _ this saved l cap p l cap q)| |].
  - intros _ w2 (Hsum & c' & p' & Hup & Hc').
    eapply wp_mono; [eapply (List_delete_spec _ _ saved l cap q);
                     by eapply updated_frame| |done].
    intros _ w3 ->. split; [done|]. exists c', p'. split; [|done].
    by eapply updated_drop_local.
  - intros e w2 (-> & Hsum & k & c' & p' & Hk & Hup & Hc').
    eapply wp_mono; [eapply (List_delete_spec _ _ saved l cap q);
                     by eapply updated_frame| |done].
    intros _ w3 ->. split; [done|]. split; [done|]. exists k, c', p'.
    split; [done|]. split; [|done]. by eapply updated_drop_local.
Qed.

End Concat.

Section Repeat.
Context {T : Type} `{EqDecision T}.
Local Abbreviation buffer := (list (option T)) (only parsing).
Local Abbreviation W := (@world T) (only parsing).
Local Abbreviation M' := (M (@world T)) (only parsing).

Lemma length_copies (n : nat) (l : list T) : length (copies n l) = (n * length l)%nat.
Proof. induction n as [|n IH]; simpl; [done|]. rewrite length_app, IH. lia. Qed.

Lemma created_dropped (w w' : W) a l c q :
  created w a l c q w' →
  objs (dropped a q w') = objs w ∧ heap (dropped a q w') = heap w.
Proof.
  intros (junk & Hna & Hnq & Ho & Hh & _). unfold dropped. simpl.
  rewrite Ho, Hh, !delete_insert_eq, !delete_id by done. done.
Qed.

Lemma repeat_spec fuel (w : W) this l cap p times :
  list_at w this l cap p → times ≤ INT_MAX →
  (Z.to_nat times < fuel)%nat → (length l < fuel)%nat →
  (Z.to_nat (Z.min (times * Z.of_nat (length l)) MAX_CAPACITY) < fuel)%nat →
  wp true (repeat this times) fuel w
    (λ _ w', repeat_post w this l p times w')
    (λ e w', repeat_fail w l times e w').
Proof.
  intros Hl Hint Hf1 Hf2 Hf3. unfold repeat.
  case_decide as Hneg; [apply wp_throw; left; done|].
  pose proof (list_at_lookup _ _ _ _ _ Hl) as [_ Hmax].
  pose proof (la_cap _ _ _ _ _ Hl) as Hcap.
  set (n := Z.of_nat (length l)) in *.
  apply wp_with_local.
  eapply wp_post; [apply List_new_spec|].
  intros a w1 (-> & _ & Hcr). set (a := fresh (dom (objs w))) in *.
  assert (this ≠ a) as Hne.
  { intros ->. destruct Hl as [Ho _ _]. unfold a in Ho. by rewrite fresh_objs in Ho. }
  eapply wp_seq with (Q1 := λ _ w2, times * n ≤ MAX_CAPACITY ∧
    ∃ ca qa, created w a (copies (Z.to_nat times) l) ca qa w2 ∧ 0 < ca ≤ MAX_CAPACITY).
  - eapply wp_exn with (E := λ e w2, e = CapacityExceeded ∧ times * n > MAX_CAPACITY ∧
      ∃ la ca qa, created w a la ca qa w2 ∧ 0 < ca ≤ MAX_CAPACITY).
    + apply (wp_loop_total
        (λ i w2, ∃ (k : nat) ca qa, i = Z.of_nat k ∧ Z.of_nat k ≤ times ∧
           Z.of_nat k * n ≤ MAX_CAPACITY ∧
           created w a (copies k l) ca qa w2 ∧ 0 < ca ≤ MAX_CAPACITY)
        _ _ fuel _ _ (λ i _, Z.to_nat (times - i))).
      * intros i w2 (k & ca & qa & -> & Hk & Hkn & Hcr2 & Hca).
        apply wp_ret. case_bool_decide as Hlt.
        -- pose proof (created_list_at _ _ _ _ _ _ Hcr2 Hca) as Hla.
           pose proof (created_frame _ _ _ _ _ _ _ _ _ _ Hcr2 Hl) as Hlthis.
           assert (qa ≠ p) as Hqp.
           { intros ->. destruct Hcr2 as (_ & _ & Hnq & _).
             destruct Hl as [_ (j & Hb & _) _]. by rewrite Hb in Hnq. }
           assert (Z.of_nat (length (copies k l) + length l) = (Z.of_nat k + 1) * n) as Hlen.
           { rewrite length_copies. unfold n. lia. }
           assert ((Z.of_nat k + 1) * n ≤ times * n) as Hmono by (unfold n; nia).
           apply wp_bind.
           eapply wp_mono;
             [eapply (concatenate_other_spec _ _ a this (copies k l) ca qa l cap p);
              [done|done|done|done|rewrite Hlen; lia]| |].
           ++ intros _ w3 (Hsum & c' & p' & Hup & Hc').
              apply wp_bind, wp_int; [int_lia|]. apply wp_ret.
              split; [|lia]. exists (S k), c', p'.
              split; [lia|]. split; [lia|]. split; [lia|]. split; [|lia].
              by eapply created_updated.
           ++ intros e w3 (-> & Hsum & j & c' & p' & Hj & Hup & Hc').
              split; [done|]. split; [lia|].
              eexists _, c', p'. split; [by eapply created_updated|lia].
        -- assert (Z.to_nat times = k) as Hkt by lia.
           split; [lia|]. exists ca, qa. by rewrite Hkt.
      * exists 0%nat, INIT_CAPACITY, (fresh (dom (heap w))).
        split; [done|]. split; [lia|]. split; [unfold n; int_lia|]. split; [done|].
        unfold INIT_CAPACITY. int_lia.
      * lia.
    + intros e w2 (-> & Hover & la & ca & qa & Hcr2 & Hca).
      eapply wp_post; [eapply (List_delete_spec _ _ a la ca qa);
                       by eapply created_list_at|].
      intros _ w3 ->. right. split; [done|]. split; [lia|]. split; [done|].
      by eapply created_dropped.
  - intros _ w2 (Hsum & ca & qa & Hcr2 & Hca).
    pose proof (created_list_at _ _ _ _ _ _ Hcr2 Hca) as Hla.
    pose proof (created_frame _ _ _ _ _ _ _ _ _ _ Hcr2 Hl) as Hlthis.
    assert (p ≠ qa) as Hqp.
    { intros ->. destruct Hcr2 as (_ & _ & Hnq & _).
      destruct Hl as [_ (j & Hb & _) _]. by rewrite Hb in Hnq. }
    eapply wp_post.
    { eapply (assign_spec _ _ this a l cap p _ ca qa); [done|done|done|done|].
      rewrite length_copies. unfold n in *. lia. }
    intros _ w3 (p' & Hup & _).
    eapply wp_post; [eapply (List_delete_spec _ _ a _ ca qa); by eapply updated_frame|].
    intros _ w4 ->. split; [lia|]. split; [done|]. exists ca, p'.
    split; [by eapply updated_drop_local|done].
Qed.

End Repeat.

Section Slice.
Context {T : Type} `{EqDecision T}.
Local Abbreviation buffer := (list (option T)) (only parsing).
Local Abbreviation W := (@world T) (only parsing).
Local Abbreviation M' := (M (@world T)) (only parsing).

Lemma wp_check_bounds_throw st fuel (w : W) pos lo hi (Q : unit → W → Prop)
    (E : exn → W → Prop) :
  ¬ (lo ≤ pos < hi) → E IndexOutOfRange w → wp st (check_bounds pos lo hi) fuel w Q E.
Proof. intros. unfold check_bounds. by rewrite decide_False. Qed.

(** ** clear *)

Lemma clear_spec fuel (w : W) this l cap p E :
  list_at w this l cap p →
  wp true (clear this) fuel w
    (λ _ w',
       if decide (l = []) then w' = w
       else
         let p' := fresh (dom (delete p (heap w))) in
         w' = mkWorld (<[this := mkList 0 INIT_CAPACITY p']> (objs w))
                      (<[p' := replicate 4 None]> (delete p (heap w)))
                      (expansions w)) E.
Proof.
  intros [Ho (junk & Hb & Hlen) Hcap]. unfold clear.
  destruct (decide (l = [])) as [->|Hne].
  { apply wp_bind. eapply wp_get_size; [done|]. simpl.
    by apply wp_ret. }
  apply wp_bind. eapply wp_get_size; [done|]. simpl.
  rewrite decide_True by (destruct l; [done|simpl; lia]).
  apply wp_bind. eapply wp_put_obj; [done|]. simpl.
  apply wp_bind. eapply wp_put_obj; [simpl; by rewrite lookup_insert_eq|]. simpl.
  apply wp_bind. eapply wp_get_data; [simpl; by rewrite lookup_insert_eq|]. simpl.
  apply wp_bind, wp_delete_array; [simpl; eauto|]. simpl.
  apply wp_bind. eapply wp_get_capacity; [simpl; by rewrite lookup_insert_eq|]. simpl.
  apply wp_bind, wp_new_array; [done|]. simpl.
  eapply wp_put_obj; [simpl; by rewrite lookup_insert_eq|].
  unfold set_objs, set_heap. simpl. by rewrite !insert_insert_eq.
Qed.

(** ** slice *)

Lemma slice_count_pos (start stop step : Z) (j : nat) :
  step > 0 →
  (j < slice_count start stop step)%nat ↔ start + Z.of_nat j * step < stop.
Proof.
  intros Hstep. unfold slice_count. rewrite decide_True by done.
  set (d := stop - start).
  pose proof (Z.div_mod (d + step - 1) step ltac:(lia)) as Hdm.
  pose proof (Z.mod_pos_bound (d + step - 1) step ltac:(lia)) as Hmod.
  split; intros H; nia.
Qed.

Lemma slice_count_neg (start stop step : Z) (j : nat) :
  step < 0 →
  (j < slice_count start stop step)%nat ↔ start + Z.of_nat j * step > stop.
Proof.
  intros Hstep. unfold slice_count. rewrite decide_False by lia.
  set (d := start - stop).
  pose proof (Z.div_mod (d - step - 1) (- step) ltac:(lia)) as Hdm.
  pose proof (Z.mod_pos_bound (d - step - 1) (- step) ltac:(lia)) as Hmod.
  split; intros H; nia.
Qed.

Lemma slice_picks_S (l : list T) (start step : Z) (n : nat) x :
  l !! Z.to_nat (start + Z.of_nat n * step) = Some x →
  slice_picks l start step (S n) = slice_picks l start step n ++ [x].
Proof.
  intros Hx. unfold slice_picks. rewrite seq_S, omap_app. simpl. by rewrite Hx.
Qed.

Lemma length_slice_picks (l : list T) (start step : Z) (n : nat) :
  (length (slice_picks l start step n) ≤ n)%nat.
Proof.
  unfold slice_picks. induction n as [|n IH]; [done|].
  rewrite seq_S, omap_app, length_app. simpl. destruct (l !! _); simpl; lia.
Qed.

Lemma slice_picks_all (l : list T) (n : nat) :
  (n ≤ length l)%nat → slice_picks l 0 1 n = take n l.
Proof.
  induction n as [|n IH]; intros Hn; [done|].
  destruct (lookup_lt_is_Some_2 l n) as [x Hx]; [lia|].
  rewrite (slice_picks_S _ _ _ _ x), IH, (take_S_r _ _ x) by
    (try done; try lia; by replace (Z.to_nat (0 + Z.of_nat n * 1)) with n by lia).
  done.
Qed.

Lemma sliced_all (l : list T) : sliced l 0 (Z.of_nat (length l)) 1 = l.
Proof.
  unfold sliced. rewrite !decide_False by lia.
  replace (slice_count 0 (Z.of_nat (length l)) 1) with (length l).
  - by rewrite slice_picks_all, firstn_all.
  - unfold slice_count. rewrite decide_True by lia.
    rewrite Z.div_1_r. lia.
Qed.

Lemma slice_spec fuel (w : W) this l cap p start stop step :
  list_at w this l cap p →
  INT_MIN ≤ step → step ≤ INT_MAX - Z.of_nat (length l) →
  (length l < fuel)%nat →
  wp true (slice this start stop step) fuel w
    (λ a w', slice_args_ok (Z.of_nat (length l)) start stop step ∧
             a = fresh (dom (objs w)) ∧
             ∃ ca qa, created w a (sliced l start stop step) ca qa w' ∧
                      0 < ca ≤ MAX_CAPACITY)
    (slice_fail w (Z.of_nat (length l)) start stop step).
Proof.
  intros Hl Hmin Hstep Hfuel.
  pose proof Hl as [Ho (junk & Hb & Hlen) Hcap].
  pose proof (list_at_lookup _ _ _ _ _ Hl) as [_ Hmax].
  set (len := Z.of_nat (length l)) in *.
  unfold slice. case_decide as Hz; [apply wp_throw; split; [done|by left]|].
  apply wp_bind. eapply wp_get_size; [done|]. simpl. fold len.
  apply wp_bind, wp_int; [int_lia|].
  destruct (decide (- len ≤ start < len)) as [Hs|Hs].
  2:{ apply wp_bind, wp_check_bounds_throw; [done|].
      split; [done|]. right. split; [done|]. split; [done|]. by intros [? _]. }
  apply wp_bind, wp_check_bounds; [done|].
  apply wp_bind, wp_int; [int_lia|].
  apply wp_bind, wp_int; [int_lia|].
  destruct (decide (- len - 1 ≤ stop ≤ len)) as [Ht|Ht].
  2:{ apply wp_bind, wp_check_bounds_throw; [lia|].
      split; [done|]. right. split; [done|]. split; [done|]. by intros [_ ?]. }
  apply wp_bind, wp_check_bounds; [lia|].
  set (s0 := if decide (start < 0) then start + len else start).
  set (t0 := if decide (stop < 0) then stop + len else stop).
  assert (0 ≤ s0 < len) as Hs0 by (unfold s0; case_decide; lia).
  assert (-1 ≤ t0 ≤ len) as Ht0 by (unfold t0; case_decide; lia).
  apply wp_seq with (Q1 := λ i w', i = s0 ∧ w' = w).
  { unfold s0. case_decide; [apply wp_int; [int_lia|done]|by apply wp_ret]. }
  intros ? ? [-> ->].
  apply wp_seq with (Q1 := λ i w', i = t0 ∧ w' = w).
  { unfold t0. case_decide; [apply wp_int; [int_lia|done]|by apply wp_ret]. }
  intros ? ? [-> ->].
  apply wp_returning_local.
  eapply wp_post; [apply List_new_spec|].
  intros a w1 (-> & _ & Hcr). set (a := fresh (dom (objs w))) in *.
  set (count := slice_count s0 t0 step).
  assert (∀ j : nat, (j < count)%nat ↔
            if decide (step > 0) then s0 + Z.of_nat j * step < t0
            else s0 + Z.of_nat j * step > t0) as Hcount.
  { intros j. case_decide; [by apply slice_count_pos|apply slice_count_neg; lia]. }
  apply wp_bind.
  eapply wp_exn with (E := λ _ _, False); [|by intros e w' []].
  apply (wp_loop_total
    (λ i w', ∃ (j : nat) ca qa, i = s0 + Z.of_nat j * step ∧ (j ≤ count)%nat ∧
       created w a (slice_picks l s0 step j) ca qa w' ∧ 0 < ca ≤ MAX_CAPACITY)
    _ _ fuel _ _
    (λ i _, Z.to_nat (if decide (step > 0) then t0 - i else i - t0))).
  - intros i w2 (j & ca & qa & -> & Hj & Hcr2 & Hca).
    apply wp_ret. specialize (Hcount j).
    assert ((if decide (step > 0)
             then bool_decide (s0 + Z.of_nat j * step < t0)
             else bool_decide (s0 + Z.of_nat j * step > t0)) = bool_decide (j < count)%nat)
      as ->.
    { case_decide; apply bool_decide_ext; by rewrite Hcount. }
    case_bool_decide as Hlt.
    + pose proof (proj1 Hcount Hlt) as Hlt'.
      assert (0 ≤ s0 + Z.of_nat j * step < len ∧ Z.of_nat j < len) as [Hi Hjl].
      { case_decide; nia. }
      destruct (lookup_lt_is_Some_2 l (Z.to_nat (s0 + Z.of_nat j * step))) as [x Hx];
        [lia|].
      pose proof (created_list_at _ _ _ _ _ _ Hcr2 Hca) as Hla.
      pose proof (created_frame _ _ _ _ _ _ _ _ _ _ Hcr2 Hl) as Hlthis.
      pose proof (length_slice_picks l s0 step j) as Hlp.
      assert (p ≠ qa) as Hpq.
      { intros ->. destruct Hcr2 as (_ & _ & Hnq & _). by rewrite Hb in Hnq. }
      apply wp_bind. eapply wp_get_data; [apply Hlthis|]. simpl.
      apply wp_bind. eapply wp_mono;
        [eapply (append_spec _ _ a _ ca qa _ x); [done| |lia]| |].
      * split; [done|]. split; [lia|].
        destruct Hlthis as [_ (j' & Hb' & _) _]. eexists. split; [done|].
        by apply cells_lookup.
      * intros _ w3 [_ Hpost].
        apply insert_post_updated in Hpost as (c'' & p'' & Hup & Hc''); [|done].
        apply wp_bind, wp_int; [case_decide; int_lia|]. apply wp_ret.
        split.
        -- exists (S j), c'', p''. split; [lia|]. split; [lia|]. split; [|lia].
           rewrite inserted_end in Hup. rewrite (slice_picks_S _ _ _ _ x) by done.
           by eapply created_updated.
        -- case_decide; lia.
      * intros e w3 (_ & Hfull & _). lia.
    + apply wp_ret. assert (j = count) as -> by lia.
      split; [done|]. split; [done|]. by exists ca, qa.
  - exists 0%nat, INIT_CAPACITY, (fresh (dom (heap w))).
    split; [lia|]. split; [lia|]. split; [done|]. unfold INIT_CAPACITY. int_lia.
  - case_decide; lia.
Qed.

End Slice.

Section Sort.
Context {T : Type} `{EqDecision T}.
Local Abbreviation buffer := (list (option T)) (only parsing).
Local Abbreviation W := (@world T) (only parsing).
Local Abbreviation M' := (M (@world T)) (only parsing).

Variable cmp : T → T → bool.

(** ** Exchanges preserve the elements and the order of ties *)

Lemma exchange_length (l l' : list T) : exchange cmp l l' → length l' = length l.
Proof. intros (l1 & a & b & l2 & -> & -> & _). by rewrite !length_app. Qed.

Lemma exchange_perm (l l' : list T) : exchange cmp l l' → l' ≡ₚ l.
Proof.
  intros (l1 & a & b & l2 & -> & -> & _). apply Permutation_app_head, perm_swap.
Qed.

Lemma exchange_stable (l l' : list T) :
  strict_weak cmp → exchange cmp l l' → stable cmp l l'.
Proof.
  intros [Hasym Htrans] (l1 & a & b & l2 & -> & -> & Hba) x.
  rewrite !filter_app. f_equal. rewrite !filter_cons.
  destruct (decide (ties cmp x b = true)) as [Hb|Hb],
           (decide (ties cmp x a = true)) as [Ha|Ha]; try done.
  exfalso. unfold ties in *.
  apply andb_true_iff in Ha as [Hxa Hax], Hb as [Hxb Hbx].
  apply negb_true_iff in Hxa, Hax, Hxb, Hbx.
  by rewrite (Htrans _ _ _ Hxa Hbx) in Hba.
Qed.

Lemma exchanges_length (l l' : list T) : rtc (exchange cmp) l l' → length l' = length l.
Proof.
  induction 1 as [|l l1 l2 H1 _ IH]; [done|]. by rewrite IH, (exchange_length l l1).
Qed.

Lemma exchanges_perm (l l' : list T) : rtc (exchange cmp) l l' → l' ≡ₚ l.
Proof.
  induction 1 as [|l l1 l2 H1 _ IH]; [done|]. by rewrite IH, (exchange_perm l l1).
Qed.

Lemma exchanges_stable (l l' : list T) :
  strict_weak cmp → rtc (exchange cmp) l l' → stable cmp l l'.
Proof.
  intros Hsw. induction 1 as [|l l1 l2 H1 _ IH]; [done|].
  intros x. by rewrite IH, (exchange_stable l l1).
Qed.

(** ** Exchanging two neighbours in place *)

Lemma neighbours_split (l : list T) (j : nat) a b :
  l !! j = Some a → l !! S j = Some b →
  l = take j l ++ a :: b :: drop (S (S j)) l.
Proof.
  intros Ha Hb. rewrite <-(take_drop j l) at 1. f_equal.
  by rewrite (drop_S l a j Ha), (drop_S l b (S j) Hb).
Qed.

Lemma neighbours_swapped (l : list T) (j : nat) a b :
  l !! j = Some a → l !! S j = Some b →
  <[S j := a]> (<[j := b]> l) = take j l ++ b :: a :: drop (S (S j)) l.
Proof.
  intros Ha Hb. assert (S j < length l)%nat by (by eapply lookup_lt_Some).
  rewrite (neighbours_split l j a b Ha Hb) at 1.
  assert (length (take j l) = j) as Hlen by (rewrite length_take; lia).
  rewrite insert_app_r_alt by lia. rewrite Hlen, Nat.sub_diag. simpl.
  rewrite insert_app_r_alt by lia. rewrite Hlen.
  by replace (S j - j)%nat with 1%nat by lia.
Qed.

Lemma swap_exchange (l : list T) (j : nat) a b :
  l !! j = Some a → l !! S j = Some b → cmp b a = true →
  exchange cmp l (<[S j := a]> (<[j := b]> l)).
Proof.
  intros Ha Hb Hba. exists (take j l), a, b, (drop (S (S j)) l).
  split; [by apply neighbours_split|]. split; [by apply neighbours_swapped|done].
Qed.

Lemma swapped_lookup (l : list T) (j k : nat) a b :
  (S j < length l)%nat →
  <[S j := a]> (<[j := b]> l) !! k =
    if decide (k = S j) then Some a else if decide (k = j) then Some b else l !! k.
Proof.
  intros Hj. case_decide as Hk.
  - subst k. by rewrite list_lookup_insert_eq by (rewrite length_insert; lia).
  - rewrite list_lookup_insert_ne by done. case_decide as Hk'.
    + subst k. by rewrite list_lookup_insert_eq by lia.
    + by rewrite list_lookup_insert_ne.
Qed.

Lemma swapped_cells (l : list T) (junk : buffer) (j : nat) a b :
  (S j < length l)%nat →
  <[S j := Some a]> (<[j := Some b]> ((Some <$> l) ++ junk))
  = (Some <$> <[S j := a]> (<[j := b]> l)) ++ junk.
Proof.
  intros Hj. rewrite !list_fmap_insert.
  rewrite insert_app_l by (rewrite length_fmap; lia).
  by rewrite insert_app_l by (rewrite length_insert, length_fmap; lia).
Qed.

(** ** Order facts along one pass *)

Lemma settled_swap (l : list T) (s j : nat) a b :
  l !! j = Some a → l !! S j = Some b → (S j < s)%nat →
  settled_from cmp l s → settled_from cmp (<[S j := a]> (<[j := b]> l)) s.
Proof.
  intros Ha Hb Hs Hset k k' x y Hk Hk'.
  assert (S j < length l)%nat as Hlen by (by eapply lookup_lt_Some).
  rewrite !swapped_lookup by done.
  rewrite (decide_False (P := k' = S j)), (decide_False (P := k' = j)) by lia.
  intros Hx Hy. repeat case_decide; simplify_eq.
  - by apply (Hset j k' x y); [lia..| |].
  - by apply (Hset (S j) k' x y); [lia..| |].
  - by apply (Hset k k' x y).
Qed.

Lemma settled_weaken (l : list T) (s s' : nat) :
  (s ≤ s')%nat → settled_from cmp l s → settled_from cmp l s'.
Proof. intros Hs Hset k k' a b Hk Hk'. apply Hset; [done|lia]. Qed.

Lemma settled_all (l : list T) : settled_from cmp l 1 → sorted_by cmp l.
Proof. intros Hset k k' a b Hk _. apply Hset; [done|lia]. Qed.

(** ** The store while sorting *)

Lemma holding_id (w : W) p junk (l : list T) :
  heap w !! p = Some ((Some <$> l) ++ junk) → holding w p junk l = w.
Proof.
  intros Hb. destruct w as [O H' n]. unfold holding, set_heap. simpl in *.
  f_equal. by apply insert_id.
Qed.

Lemma wp_load_holding st fuel (w : W) p junk (l : list T) (k : nat) x
    (Q : T → W → Prop) E :
  l !! k = Some x → Q x (holding w p junk l) →
  wp st (load p (Z.of_nat k)) fuel (holding w p junk l) Q E.
Proof.
  intros Hx HQ. eapply wp_load; [simpl; by rewrite lookup_insert_eq|lia| |done].
  rewrite Nat2Z.id. by apply cells_lookup.
Qed.

Lemma wp_swap_holding st fuel (w : W) p junk (l : list T) (j : nat) a b
    (Q : unit → W → Prop) E :
  l !! j = Some a → l !! S j = Some b →
  Q tt (holding w p junk (<[S j := a]> (<[j := b]> l))) →
  wp st (swap_slots p (Z.of_nat j) (Z.of_nat (S j))) fuel (holding w p junk l) Q E.
Proof.
  intros Ha Hb HQ. assert (S j < length l)%nat as Hlen by (by eapply lookup_lt_Some).
  unfold swap_slots.
  apply wp_bind. eapply wp_load_holding; [done|].
  apply wp_bind. eapply wp_load_holding; [done|].
  apply wp_bind. eapply wp_store; [simpl; by rewrite lookup_insert_eq| |].
  { rewrite length_app, length_fmap. lia. }
  eapply wp_store; [simpl; by rewrite lookup_insert_eq| |].
  { rewrite length_insert, length_app, length_fmap. lia. }
  unfold holding, set_heap in *. simpl. rewrite !insert_insert_eq, !Nat2Z.id.
  by rewrite swapped_cells.
Qed.

(** ** sort *)

Lemma sort_spec fuel (w : W) this l cap p E :
  strict_weak cmp → list_at w this l cap p → (length l < fuel)%nat →
  wp true (sort this cmp) fuel w
    (λ _ w', ∃ l', updated w this p l' cap p w' ∧ expansions w' = expansions w ∧
               rtc (exchange cmp) l l' ∧ sorted_by cmp l') E.
Proof.
  intros [Hasym Htrans] Hl Hfuel.
  pose proof Hl as [Ho (junk & Hb & Hlen) Hcap].
  pose proof (list_at_lookup _ _ _ _ _ Hl) as [_ Hmax].
  set (n := length l) in *.
  assert (∀ l', rtc (exchange cmp) l l' →
            objs (holding w p junk l') !! this = Some (mkList (Z.of_nat n) cap p))
    as Hobj by done.
  unfold sort. apply wp_bind.
  apply wp_post with (Q := λ _ w', ∃ l', w' = holding w p junk l' ∧
                                    rtc (exchange cmp) l l' ∧ sorted_by cmp l').
  2:{ intros _ w' (l' & -> & Hex & Hsorted). apply wp_ret. exists l'.
      split; [|done]. exists junk. pose proof (exchanges_length _ _ Hex) as Hlen'.
      simpl. rewrite Hlen'. fold n.
      split; [by rewrite insert_id|]. split; [by rewrite insert_delete_eq|].
      split; [done|by left]. }
  apply (wp_loop_total
    (λ i w', ∃ (k : nat) l', i = Z.of_nat k ∧ (k ≤ n)%nat ∧ w' = holding w p junk l' ∧
       rtc (exchange cmp) l l' ∧ settled_from cmp l' (n - k))
    _ _ fuel _ E (λ i _, (n - Z.to_nat i)%nat)).
  - intros i w1 (k & L & -> & Hk & -> & Hex & Hset).
    pose proof (exchanges_length _ _ Hex) as HlenL. fold n in HlenL.
    apply wp_bind. eapply wp_get_size; [by apply Hobj|]. simpl.
    apply wp_bind, wp_int; [int_lia|]. apply wp_ret.
    case_bool_decide as Hlt.
    + (* one pass over the positions 0 .. n - k - 1 *)
      apply wp_seq with (Q1 := λ r w', ∃ sw L', r = Next (Z.of_nat (n - k - 1), sw) ∧
        w' = holding w p junk L' ∧ rtc (exchange cmp) l L' ∧
        settled_from cmp L' (n - k - 1) ∧ (sw = false → sorted_by cmp L')).
      * apply (wp_loop_total
          (λ st w', ∃ (j : nat) L', fst st = Z.of_nat j ∧ (j ≤ n - k - 1)%nat ∧
             w' = holding w p junk L' ∧ rtc (exchange cmp) l L' ∧
             settled_from cmp L' (n - k) ∧
             (∀ k0 a b, (k0 < j)%nat → L' !! k0 = Some a → L' !! j = Some b →
                        cmp b a = false) ∧
             (snd st = false → ∀ k0 k1 a b, (k0 < k1 ≤ j)%nat →
                L' !! k0 = Some a → L' !! k1 = Some b → cmp b a = false))
          _ _ fuel _ E (λ st _, (n - Z.to_nat (fst st))%nat)).
        -- intros [jz sw] w2 (j & L' & Hj & Hjm & -> & Hex' & Hset' & Hmax' & Hpre).
           simpl in Hj, Hpre. subst jz. simpl.
           pose proof (exchanges_length _ _ Hex') as HlenL'. fold n in HlenL'.
           apply wp_bind. eapply wp_get_size; [by apply Hobj|]. simpl.
           apply wp_bind, wp_int; [int_lia|].
           apply wp_bind, wp_int; [int_lia|]. apply wp_ret.
           case_bool_decide as Hjlt.
           ++ destruct (lookup_lt_is_Some_2 L' j) as [a Ha]; [lia|].
              destruct (lookup_lt_is_Some_2 L' (S j)) as [b Hb']; [lia|].
              apply wp_bind. eapply wp_get_data; [by apply Hobj|]. simpl.
              apply wp_bind, wp_int; [int_lia|].
              replace (Z.of_nat j + 1) with (Z.of_nat (S j)) by lia.
              apply wp_bind. eapply wp_load_holding; [done|].
              apply wp_bind. eapply wp_load_holding; [done|].
              destruct (cmp b a) eqn:Hba.
              ** apply wp_bind, wp_bind. eapply wp_swap_holding; [done..|].
                 apply wp_ret. apply wp_bind, wp_int; [int_lia|]. apply wp_ret.
                 split; [|simpl; lia].
                 exists (S j), (<[S j := a]> (<[j := b]> L')). simpl.
                 split; [lia|]. split; [lia|]. split; [done|].
                 split; [eapply rtc_r; [done|by apply swap_exchange]|].
                 split; [apply settled_swap; [done..|lia|done]|].
                 split; [|done].
                 intros k0 x y Hk0. rewrite !swapped_lookup by lia.
                 rewrite (decide_True (P := S j = S j)) by done.
                 rewrite (decide_False (P := k0 = S j)) by lia.
                 intros Hx [= <-]. case_decide; simplify_eq.
                 --- by apply Hasym.
                 --- apply (Hmax' k0 x a); [lia|done..].
              ** apply wp_bind, wp_ret. apply wp_bind, wp_int; [int_lia|]. apply wp_ret.
                 split; [|simpl; lia].
                 exists (S j), L'. simpl.
                 split; [lia|]. split; [lia|]. split; [done|]. split; [done|].
                 split; [done|].
                 assert (∀ k0 x y, (k0 < S j)%nat → L' !! k0 = Some x →
                           L' !! S j = Some y → cmp y x = false) as Hmax''.
                 { intros k0 x y Hk0 Hx Hy. assert (y = b) as -> by congruence.
                   destruct (decide (k0 = j)) as [->|];
                     [by assert (x = a) as -> by congruence|].
                   apply (Htrans x a b); [|done]. apply (Hmax' k0 x a); [lia|done..]. }
                 split; [done|].
                 intros Hsw k0 k1 x y Hk01 Hx Hy.
                 destruct (decide (k1 = S j)) as [->|].
                 --- apply (Hmax'' k0 x y); [lia|done..].
                 --- apply (Hpre Hsw k0 k1 x y); [lia|done..].
           ++ assert (j = (n - k - 1)%nat) as -> by lia.
              exists sw, L'. split; [done|]. split; [done|]. split; [done|]. split.
              ** intros k0 k1 x y Hk01 Hk1 Hx Hy.
                 destruct (decide (k1 = (n - k - 1)%nat)) as [->|].
                 --- apply (Hmax' k0 x y); done.
                 --- apply (Hset' k0 k1 x y); [done|lia|done..].
              ** intros Hsw k0 k1 x y Hk01 _ Hx Hy.
                 destruct (decide (k1 ≤ n - k - 1)%nat).
                 --- apply (Hpre Hsw k0 k1 x y); [lia|done..].
                 --- apply (Hset' k0 k1 x y); [done|lia|done..].
        -- exists 0%nat, L. simpl. split; [done|]. split; [lia|]. split; [done|].
           split; [done|]. split; [done|]. split; [intros; lia|intros; lia].
        -- simpl. lia.
      * intros r w2 (sw & L' & -> & -> & Hex' & Hset' & Hsorted).
        simpl. case_decide as Hsw.
        -- apply wp_ret. exists L'. split; [done|]. split; [done|]. by apply Hsorted.
        -- apply wp_bind, wp_int; [int_lia|]. apply wp_ret.
           split; [|lia]. exists (S k), L'. split; [lia|]. split; [lia|].
           split; [done|]. split; [done|].
           by replace (n - S k)%nat with (n - k - 1)%nat by lia.
    + exists L. split; [done|]. split; [done|].
      apply settled_all. eapply settled_weaken; [|done]. lia.
  - exists 0%nat, l. split; [done|]. split; [lia|].
    split; [by rewrite holding_id|]. split; [done|].
    intros k k' a b Hk Hk' _ Hb'. apply lookup_lt_Some in Hb'. fold n in Hb'. lia.
  - lia.
Qed.

End Sort.

Section Partial.
Context {T : Type} `{EqDecision T}.
Local Abbreviation buffer := (list (option T)) (only parsing).
Local Abbreviation W := (@world T) (only parsing).
Local Abbreviation M' := (M (@world T)) (only parsing).

(** ** Partial-correctness rules for the primitives *)

Section Rules.
Context (fuel : nat) (w : W) (E : exn → W → Prop).

Lemma wpp_get_obj a (Q : List_ → W → Prop) :
  (∀ o, objs w !! a = Some o → Q o w) → wp false (get_obj a) fuel w Q E.
Proof. intros HQ. unfold wp, get_obj. destruct (objs w !! a) eqn:Ho; [by apply HQ|done]. Qed.

Lemma wpp_get_size a (Q : Z → W → Prop) :
  (∀ o, objs w !! a = Some o → Q (size_ o) w) → wp false (get_size a) fuel w Q E.
Proof. intros HQ. apply wp_bind, wpp_get_obj. intros o Ho. by apply wp_ret, HQ. Qed.

Lemma wpp_get_capacity a (Q : Z → W → Prop) :
  (∀ o, objs w !! a = Some o → Q (capacity_ o) w) → wp false (get_capacity a) fuel w Q E.
Proof. intros HQ. apply wp_bind, wpp_get_obj. intros o Ho. by apply wp_ret, HQ. Qed.

Lemma wpp_get_data a (Q : loc → W → Prop) :
  (∀ o, objs w !! a = Some o → Q (data_ o) w) → wp false (get_data a) fuel w Q E.
Proof. intros HQ. apply wp_bind, wpp_get_obj. intros o Ho. by apply wp_ret, HQ. Qed.

Lemma wpp_put_obj a f (Q : unit → W → Prop) :
  (∀ o, objs w !! a = Some o → Q tt (set_objs <[a := f o]> w)) →
  wp false (put_obj a f) fuel w Q E.
Proof. intros HQ. unfold wp, put_obj. destruct (objs w !! a) eqn:Ho; [by apply HQ|done]. Qed.

Lemma wpp_free_obj a (Q : unit → W → Prop) :
  Q tt (set_objs (delete a) w) → wp false (free_obj a) fuel w Q E.
Proof. intros HQ. unfold wp, free_obj. by destruct (objs w !! a). Qed.

Lemma wpp_new_array n (Q : loc → W → Prop) :
  (∀ p b, 0 ≤ n → Q p (set_heap <[p := b]> w)) → wp false (new_array n) fuel w Q E.
Proof. intros HQ. unfold wp, new_array. case_decide; [by apply HQ|done]. Qed.

Lemma wpp_delete_array p (Q : unit → W → Prop) :
  Q tt (set_heap (delete p) w) → wp false (delete_array p) fuel w Q E.
Proof. intros HQ. unfold wp, delete_array. by destruct (heap w !! p). Qed.

Lemma wpp_load p i (Q : T → W → Prop) :
  (∀ x, Q x w) → wp false (load p i) fuel w Q E.
Proof.
  intros HQ. unfold wp, load. destruct (heap w !! p); [|done].
  case_decide; [|done]. by destruct (_ !! _) as [[x|]|].
Qed.

Lemma wpp_store p i x (Q : unit → W → Prop) :
  (∀ b, Q tt (set_heap <[p := b]> w)) → wp false (store p i x) fuel w Q E.
Proof.
  intros HQ. unfold wp, store. destruct (heap w !! p); [|done]. by case_decide.
Qed.

Lemma wpp_deref r (Q : T → W → Prop) :
  (∀ x, Q x w) → wp false (deref r) fuel w Q E.
Proof. intros HQ. destruct r; [by apply wp_ret|by apply wpp_load]. Qed.

Lemma wpp_int z (Q : Z → W → Prop) :
  (INT_MIN ≤ z ≤ INT_MAX → Q z w) → wp false (int z) fuel w Q E.
Proof. intros HQ. unfold wp, int. case_decide; [by apply HQ|done]. Qed.

Lemma wpp_check_bounds pos lo hi (Q : unit → W → Prop) :
  (lo ≤ pos < hi → Q tt w) → E IndexOutOfRange w →
  wp false (check_bounds pos lo hi) fuel w Q E.
Proof. intros HQ HE. unfold wp, check_bounds. case_decide; [by apply HQ|done]. Qed.

Lemma wpp_check_full sz mx (Q : unit → W → Prop) :
  (sz < mx → Q tt w) → E CapacityExceeded w → wp false (check_full sz mx) fuel w Q E.
Proof. intros HQ HE. unfold wp, check_full. case_decide; [done|apply HQ; lia]. Qed.

Lemma wpp_check_empty sz (Q : unit → W → Prop) :
  (sz ≠ 0 → Q tt w) → E EmptyContainer w → wp false (check_empty sz) fuel w Q E.
Proof. intros HQ HE. unfold wp, check_empty. case_decide; [done|by apply HQ]. Qed.

End Rules.

(** A computation that keeps [P] can be stepped over. *)
Lemma wpp_keeps {A} (P : W → Prop) (m : M' A) fuel (w : W) (Q : A → W → Prop) E :
  keeps P m → P w → (∀ a w', P w' → Q a w') → (∀ e w', P w' → E e w') →
  wp false m fuel w Q E.
Proof. intros Hm HP HQ HE. eapply wp_mono; [by apply Hm|eauto..]. Qed.

(** ** Structural rules for [keeps] *)

Section Keeps.
Context (P : W → Prop).

Lemma keeps_ret {A} (a : A) : keeps P (ret a).
Proof. by intros fuel w HP. Qed.

Lemma keeps_throw {A} e : keeps P (A := A) (throw e).
Proof. by intros fuel w HP. Qed.

Lemma keeps_undefined {A} f : keeps P (A := A) (undefined f).
Proof. by intros fuel w HP. Qed.

Lemma keeps_bind {A B} (m : M' A) (k : A → M' B) :
  keeps P m → (∀ a, keeps P (k a)) → keeps P (bind m k).
Proof.
  intros Hm Hk fuel w HP. apply wp_bind.
  eapply wp_mono; [by apply Hm| |done]. intros a w' HP'. by apply Hk.
Qed.

Lemma keeps_loop {S R} (cond : S → M' bool) (body : S → M' (flow S R)) s :
  (∀ s, keeps P (cond s)) → (∀ s, keeps P (body s)) → keeps P (loop cond body s).
Proof.
  intros Hc Hb fuel w HP. unfold loop.
  apply (wp_iterate_partial (λ _ w', P w') cond body fuel (λ _ w', P w') (λ _ w', P w'));
    [|done].
  intros s' w' HP'. eapply wp_mono; [by apply Hc| |done].
  intros [] w'' HP''; [|done]. eapply wp_mono; [by apply Hb| |done].
  by intros [?|?] ? ?.
Qed.

Lemma keeps_with_local {A} (ctor : M' addr) (body : addr → M' A) :
  keeps P ctor → (∀ a, keeps P (body a)) → (∀ a, keeps P (List_delete a)) →
  keeps P (with_local ctor body).
Proof.
  intros Hc Hb Hd fuel w HP. apply wp_with_local.
  eapply wp_mono; [by apply Hc| |done]. intros a w1 HP1.
  eapply wp_mono; [by apply Hb| |]; intros ? w2 HP2; by apply Hd.
Qed.

Lemma keeps_returning_local (ctor : M' addr) (body : addr → M' unit) :
  keeps P ctor → (∀ a, keeps P (body a)) → (∀ a, keeps P (List_delete a)) →
  keeps P (returning_local ctor body).
Proof.
  intros Hc Hb Hd fuel w HP. apply wp_returning_local.
  eapply wp_mono; [by apply Hc| |done]. intros a w1 HP1.
  eapply wp_mono; [by apply Hb| |]; intros ? w2 HP2; [done|by apply Hd].
Qed.

(** The primitives that touch no field keep every field-only assertion. *)
Hypothesis HP : field_only P.

Lemma keeps_get_obj a : keeps P (get_obj a).
Proof. intros fuel w Hw. by apply wpp_get_obj. Qed.

Lemma keeps_get_size a : keeps P (get_size a).
Proof. intros fuel w Hw. by apply wpp_get_size. Qed.

Lemma keeps_get_capacity a : keeps P (get_capacity a).
Proof. intros fuel w Hw. by apply wpp_get_capacity. Qed.

Lemma keeps_get_data a : keeps P (get_data a).
Proof. intros fuel w Hw. by apply wpp_get_data. Qed.

Lemma keeps_new_array n : keeps P (new_array n).
Proof. intros fuel w Hw. apply wpp_new_array. intros p b _. by apply (HP w). Qed.

Lemma keeps_delete_array p : keeps P (delete_array p).
Proof. intros fuel w Hw. apply wpp_delete_array. by apply (HP w). Qed.

Lemma keeps_load p i : keeps P (load p i).
Proof. intros fuel w Hw. by apply wpp_load. Qed.

Lemma keeps_store p i x : keeps P (store p i x).
Proof. intros fuel w Hw. apply wpp_store. intros b. by apply (HP w). Qed.

Lemma keeps_deref r : keeps P (deref r).
Proof. intros fuel w Hw. by apply wpp_deref. Qed.

Lemma keeps_int z : keeps P (int (W := W) z).
Proof. intros fuel w Hw. by apply wpp_int. Qed.

Lemma keeps_check_bounds pos lo hi : keeps P (check_bounds pos lo hi).
Proof. intros fuel w Hw. by apply wpp_check_bounds. Qed.

Lemma keeps_check_full sz mx : keeps P (check_full sz mx).
Proof. intros fuel w Hw. by apply wpp_check_full. Qed.

Lemma keeps_check_empty sz : keeps P (check_empty sz).
Proof. intros fuel w Hw. by apply wpp_check_empty. Qed.

End Keeps.

End Partial.

Ltac keeps_prim HP :=
  lazymatch goal with
  | |- keeps _ (ret _) => apply keeps_ret
  | |- keeps _ (throw _) => apply keeps_throw
  | |- keeps _ (undefined _) => apply keeps_undefined
  | |- keeps _ (get_obj _) => apply keeps_get_obj; try exact HP
  | |- keeps _ (get_size _) => apply keeps_get_size; try exact HP
  | |- keeps _ (get_capacity _) => apply keeps_get_capacity; try exact HP
  | |- keeps _ (get_data _) => apply keeps_get_data; try exact HP
  | |- keeps _ (new_array _) => apply keeps_new_array; try exact HP
  | |- keeps _ (delete_array _) => apply keeps_delete_array; try exact HP
  | |- keeps _ (load _ _) => apply keeps_load; try exact HP
  | |- keeps _ (store _ _ _) => apply keeps_store; try exact HP
  | |- keeps _ (deref _) => apply keeps_deref; try exact HP
  | |- keeps _ (int _) => apply keeps_int; try exact HP
  | |- keeps _ (check_bounds _ _ _) => apply keeps_check_bounds; try exact HP
  | |- keeps _ (check_full _ _) => apply keeps_check_full; try exact HP
  | |- keeps _ (check_empty _) => apply keeps_check_empty; try exact HP
  end.

Ltac keeps_heap HP :=
  repeat first
    [ keeps_prim HP
    | assumption
    | lazymatch goal with
      | |- keeps _ (bind _ _) => apply keeps_bind; [|intros ?]
      | |- keeps _ (loop _ _ _) => apply keeps_loop; intros ?
      | |- keeps _ (if decide _ then _ else _) => case_decide
      | |- keeps _ (if ?b then _ else _) => destruct b
      | |- keeps _ (match ?r with Next _ => _ | Leave _ => _ end) => destruct r
      | |- keeps _ (match ?r with end) => destruct r
      | |- keeps _ (match ?o with Some _ => _ | None => _ end) => destruct o
      end ].

(** ** Operations that touch no field *)

Section Quiet.
Context {T : Type} `{EqDecision T}.
Local Abbreviation W := (@world T) (only parsing).
Local Abbreviation M' := (M (@world T)) (only parsing).
Context (P : W → Prop) (HP : field_only P).

Lemma keeps_swap_slots p i j : keeps P (swap_slots p i j).
Proof. unfold swap_slots. keeps_heap HP. Qed.

Lemma keeps_copy_elements this (dst src : M' loc) :
  keeps P dst → keeps P src → keeps P (copy_elements this dst src).
Proof. intros Hd Hs. unfold copy_elements. keeps_heap HP. Qed.

Lemma keeps_find this element start stop : keeps P (find this element start stop).
Proof. unfold find. keeps_heap HP. Qed.

Lemma keeps_contains this element start stop :
  keeps P (contains this element start stop).
Proof. unfold contains. apply keeps_bind; [apply keeps_find|intros ?; apply keeps_ret]. Qed.

Lemma keeps_count this element : keeps P (count this element).
Proof. unfold count. keeps_heap HP. Qed.

Lemma keeps_equal this that : keeps P (equal this that).
Proof. unfold equal. keeps_heap HP. Qed.

Lemma keeps_reverse this : keeps P (reverse this).
Proof.
  unfold reverse, swap_slots. keeps_heap HP.
Qed.

Lemma keeps_sort this cmp : keeps P (sort this cmp).
Proof.
  unfold sort, swap_slots. keeps_heap HP.
Qed.

Lemma keeps_subscript this index : keeps P (subscript this index).
Proof. unfold subscript. keeps_heap HP. Qed.

Lemma keeps_size this : keeps P (size this).
Proof. unfold size. keeps_heap HP. Qed.

Lemma keeps_is_empty this : keeps P (is_empty this).
Proof. unfold is_empty. keeps_heap HP. Qed.

Lemma keeps_not_equal this that : keeps P (not_equal this that).
Proof. unfold not_equal. apply keeps_bind; [apply keeps_equal|intros ?; apply keeps_ret]. Qed.

Lemma keeps_min greater this : keeps P (min greater this).
Proof. unfold min. keeps_heap HP. Qed.

Lemma keeps_max less this : keeps P (max less this).
Proof. unfold max. keeps_heap HP. Qed.

(** traverse keeps what its action keeps. *)
Lemma keeps_traverse this (action : cref → M' unit) :
  (∀ r, keeps P (action r)) → keeps P (traverse this action).
Proof.
  intros Ha. unfold traverse.
  apply keeps_bind; [|intros ?; apply keeps_ret].
  apply keeps_loop; intros i; [keeps_heap HP|].
  apply keeps_bind; [keeps_heap HP|intros d].
  apply keeps_bind; [apply Ha|intros ?]. keeps_heap HP.
Qed.

End Quiet.

Ltac norm_lookup H :=
  repeat (rewrite lookup_insert_eq in H || rewrite lookup_insert_ne in H by done).

Section Invariant.
Context {T : Type} `{EqDecision T}.
Local Abbreviation buffer := (list (option T)) (only parsing).
Local Abbreviation W := (@world T) (only parsing).
Local Abbreviation M' := (M (@world T)) (only parsing).

Lemma field_only_same (w : W) : field_only (same_fields w).
Proof. intros w1 w2 Ho He [Ho1 He1]. split; congruence. Qed.

Lemma field_only_world_ok : field_only (world_ok (T := T)).
Proof. intros w1 w2 Ho He Hok a o Ha. apply (Hok a). by rewrite <-Ho. Qed.

Lemma field_only_ok_at n : field_only (ok_at (T := T) n).
Proof.
  intros w1 w2 Ho He [Hok Hn]. split; [by eapply field_only_world_ok|congruence].
Qed.

Lemma same_fields_refl (w : W) : same_fields w w.
Proof. done. Qed.

Lemma same_fields_ok (w w' : W) : same_fields w w' → world_ok w → world_ok w'.
Proof. intros [Ho He]. by apply field_only_world_ok. Qed.

Lemma same_fields_ok_at n (w w' : W) : same_fields w w' → ok_at n w → ok_at n w'.
Proof. intros [Ho He]. by apply field_only_ok_at. Qed.

Lemma world_ok_update (w w' : W) a o :
  world_ok w → objs w' = <[a := o]> (objs w) → obj_ok o → world_ok w'.
Proof.
  intros Hok Ho Hobj b ob. rewrite Ho. destruct (decide (b = a)) as [->|].
  - rewrite lookup_insert_eq. by intros [= <-].
  - rewrite lookup_insert_ne by done. apply Hok.
Qed.

Lemma world_ok_delete (w w' : W) a :
  world_ok w → objs w' = delete a (objs w) → world_ok w'.
Proof.
  intros Hok Ho b ob. rewrite Ho. destruct (decide (b = a)) as [->|].
  - by rewrite lookup_delete_eq.
  - rewrite lookup_delete_ne by done. apply Hok.
Qed.

Lemma keeps_ok_at_world_ok {A} (m : M' A) :
  (∀ n, keeps (ok_at n) m) → keeps world_ok m.
Proof.
  intros Hm fuel w Hok.
  eapply wp_mono; [by apply (Hm (expansions w))| |]; by intros ? ? [? ?].
Qed.

(** Stepping over code that touches no field. *)
Lemma wpp_quiet {A} (m : M' A) fuel (w : W) (Q : A → W → Prop) E :
  (∀ P, field_only P → keeps P m) →
  (∀ a w', same_fields w w' → Q a w') → (∀ e w', same_fields w w' → E e w') →
  wp false m fuel w Q E.
Proof.
  intros Hm HQ HE.
  eapply (wpp_keeps (same_fields w)); [apply Hm, field_only_same|done|done..].
Qed.

(** ** expand_capacity and insert *)

Lemma obj_ok_grown sz cap p p' :
  obj_ok (mkList sz cap p) → obj_ok (mkList sz (grown cap) p').
Proof.
  unfold obj_ok. simpl. intros (? & ? & ? & ?).
  pose proof (grown_bounds cap ltac:(lia)) as [? _]. lia.
Qed.

Lemma expand_capacity_fields fuel (w : W) this o :
  world_ok w → objs w !! this = Some o →
  wp false (expand_capacity this) fuel w
    (λ _ w', ∃ p', objs w' = <[this := mkList (size_ o) (grown (capacity_ o)) p']> (objs w))
    (λ _ w', world_ok w').
Proof.
  intros Hok Ho. pose proof (Hok _ _ Ho) as Hobj. destruct o as [sz cap p]. simpl.
  unfold expand_capacity.
  apply wp_bind, wp_tick.
  apply wp_bind, wpp_get_capacity. simpl. intros o' Ho'. rewrite Ho in Ho'.
  injection Ho' as <-. simpl.
  apply wp_seq with (Q1 := λ c w', c = grown cap ∧ w' = tick_expansions w).
  { unfold grown. case_decide; [apply wpp_int; by intros _|by apply wp_ret]. }
  intros c w' [-> ->].
  apply wp_bind, wpp_put_obj. simpl. intros o' Ho'. rewrite Ho in Ho'.
  injection Ho' as <-. simpl.
  apply wp_bind, wpp_get_capacity. simpl. intros o' _.
  apply wp_bind, wpp_new_array. intros tmp b _.
  set (w1 := set_heap _ _).
  assert (world_ok w1) as Hok1.
  { eapply (world_ok_update w); [done|done|]. by eapply obj_ok_grown. }
  apply wp_bind. apply wpp_quiet.
  { intros P HP. apply keeps_copy_elements; [done|apply keeps_ret|by apply keeps_get_data]. }
  2:{ intros e w' Hs. by eapply same_fields_ok. }
  intros _ w2 [Ho2 He2].
  apply wp_bind, wpp_get_data. intros o2 Ho2'.
  apply wp_bind, wpp_delete_array.
  apply wpp_put_obj. simpl. intros o3 Ho3. rewrite Ho2 in Ho3. simpl in Ho3.
  rewrite lookup_insert_eq in Ho3. injection Ho3 as <-. simpl.
  exists tmp. rewrite Ho2. unfold w1. simpl. by rewrite insert_insert_eq.
Qed.

Lemma keeps_insert this index (element : @cref T) :
  keeps world_ok (insert this index element).
Proof.
  intros fuel w Hok. unfold insert.
  apply wp_bind, wpp_get_size. intros o Ho. pose proof (Hok _ _ Ho) as Hobj.
  apply wp_bind, wpp_check_full; [intros Hfull|done].
  apply wp_bind, wpp_int. intros _. apply wp_bind, wpp_int. intros _.
  apply wp_bind, wpp_check_bounds; [intros Hidx|done].
  apply wp_bind, wpp_get_capacity. intros o' Ho'. rewrite Ho in Ho'.
  injection Ho' as <-.
  apply wp_seq with (Q1 := λ _ w1, world_ok w1 ∧
    ∃ o1, objs w1 !! this = Some o1 ∧ size_ o1 = size_ o ∧ size_ o1 < capacity_ o1).
  { case_decide as Hfull'.
    - eapply wp_post; [by apply expand_capacity_fields|].
      intros _ w1 (p' & Ho1). destruct o as [sz cap p]. simpl in *. subst cap.
      split.
      + eapply world_ok_update; [done|done|]. by eapply obj_ok_grown.
      + eexists. rewrite Ho1, lookup_insert_eq. split; [done|]. simpl. split; [done|].
        destruct Hobj as (? & ? & ? & ?). simpl in *.
        pose proof (grown_bounds sz ltac:(lia)) as [_ Hg]. apply Hg. lia.
    - apply wp_ret. split; [done|]. exists o. split; [done|]. split; [done|].
      destruct Hobj as (? & ? & ? & ?). lia. }
  intros _ w1 (Hok1 & o1 & Ho1 & Hsz & Hlt).
  apply wp_bind, wpp_get_size. intros o2 _.
  apply wp_bind. apply wpp_quiet.
  { intros P HP. case_decide; keeps_heap HP. }
  2:{ intros e w' Hs. by eapply same_fields_ok. }
  intros idx w2 Hs2.
  apply wp_bind. apply wpp_quiet.
  { intros P HP. keeps_heap HP. }
  2:{ intros e w' Hs. eapply same_fields_ok; [done|]. by eapply same_fields_ok. }
  intros _ w3 Hs3.
  apply wp_bind, wpp_get_data. intros o3 _.
  apply wp_bind, wpp_deref. intros x.
  apply wp_bind, wpp_store. intros b.
  apply wp_bind, wpp_get_size. simpl. intros o4 Ho4.
  destruct Hs2 as [Ho2 _], Hs3 as [Ho3 _]. rewrite Ho3, Ho2, Ho1 in Ho4.
  injection Ho4 as <-.
  apply wp_bind, wpp_int. intros _.
  apply wpp_put_obj. simpl. intros o5 Ho5. rewrite Ho3, Ho2, Ho1 in Ho5.
  injection Ho5 as <-.
  eapply (world_ok_update w1); [done|simpl; by rewrite Ho3, Ho2|].
  pose proof (Hok1 _ _ Ho1) as (? & ? & ? & ?). unfold obj_ok. simpl. lia.
Qed.

(** ** remove *)

Lemma ok_at_update n (w w' : W) a o :
  ok_at n w → objs w' = <[a := o]> (objs w) → expansions w' = expansions w →
  obj_ok o → ok_at n w'.
Proof.
  intros [Hok Hn] Ho He Hobj. split; [by eapply world_ok_update|congruence].
Qed.

Lemma keeps_remove n this index : keeps (ok_at n) (remove (T := T) this index).
Proof.
  intros fuel w Hok. unfold remove.
  apply wp_bind, wpp_get_size. intros o Ho. pose proof (proj1 Hok _ _ Ho) as Hobj.
  apply wp_bind, wpp_check_empty; [intros Hne|done].
  apply wp_bind, wpp_int. intros _.
  apply wp_bind, wpp_check_bounds; [intros Hidx|done].
  apply wp_bind. apply wpp_quiet.
  { intros P HP. keeps_heap HP. }
  2:{ intros e w' Hs. by eapply same_fields_ok_at. }
  intros idx w1 Hs1.
  apply wp_bind. apply wpp_quiet.
  { intros P HP. keeps_heap HP. }
  2:{ intros e w' Hs. eapply same_fields_ok_at; [done|]. by eapply same_fields_ok_at. }
  intros d w2 Hs2.
  apply wp_bind, wpp_load. intros x.
  apply wp_bind, wpp_int. intros _.
  apply wp_bind. apply wpp_quiet.
  { intros P HP. keeps_heap HP. }
  2:{ intros e w' Hs. do 3 (eapply same_fields_ok_at; [done|]). done. }
  intros _ w3 Hs3.
  destruct Hs1 as [Ho1 He1], Hs2 as [Ho2 He2], Hs3 as [Ho3 He3].
  apply wp_bind, wpp_get_size. intros o4 Ho4. rewrite Ho3, Ho2, Ho1, Ho in Ho4.
  injection Ho4 as <-.
  apply wp_bind, wpp_int. intros _.
  apply wp_bind, wpp_put_obj. intros o5 Ho5. rewrite Ho3, Ho2, Ho1, Ho in Ho5.
  injection Ho5 as <-. apply wp_ret.
  eapply (ok_at_update n w); [done|simpl; by rewrite Ho3, Ho2, Ho1|simpl; congruence|].
  destruct Hobj as (? & ? & ? & ?). unfold obj_ok. simpl. lia.
Qed.

(** ** Construction, destruction, assignment *)

Lemma ok_at_objs n (w w' : W) :
  ok_at n w → expansions w' = expansions w →
  (∀ a o, objs w' !! a = Some o → obj_ok o ∨ objs w !! a = Some o) →
  ok_at n w'.
Proof.
  intros [Hok Hn] He Ho. split; [|congruence].
  intros a o Ha. destruct (Ho a o Ha) as [?|Ha']; [done|by eapply Hok].
Qed.

Lemma obj_ok_init (p : loc) : obj_ok (mkList 0 INIT_CAPACITY p).
Proof. unfold obj_ok, INIT_CAPACITY. simpl. int_lia. Qed.

Lemma keeps_List_new n : keeps (ok_at n) (List_new (T := T)).
Proof.
  intros fuel w Hok. unfold List_new.
  apply wp_bind, wpp_new_array. intros p b _. apply wp_new_obj.
  eapply (ok_at_update n w); [done|done|done|apply obj_ok_init].
Qed.

Lemma keeps_List_delete n this : keeps (ok_at n) (List_delete (T := T) this).
Proof.
  intros fuel w [Hok Hn]. unfold List_delete.
  apply wp_bind, wpp_get_data. intros o Ho.
  apply wp_bind, wpp_delete_array. apply wpp_free_obj.
  split; [by eapply (world_ok_delete w)|done].
Qed.

Lemma keeps_List_copy n that : keeps (ok_at n) (List_copy (T := T) that).
Proof.
  intros fuel w Hok. unfold List_copy.
  apply wp_bind, wpp_get_size. intros o Ho. pose proof (proj1 Hok _ _ Ho) as Hobj.
  apply wp_bind, wpp_get_capacity. intros o' Ho'. rewrite Ho in Ho'. injection Ho' as <-.
  apply wp_bind, wpp_new_array. intros p b _.
  apply wp_bind, wp_new_obj.
  set (w1 := set_objs _ _).
  assert (ok_at n w1) as Hok1.
  { eapply (ok_at_update n w); [done|done|done|]. by destruct o. }
  apply wp_bind. apply wpp_quiet.
  { intros P HP. apply keeps_copy_elements; [done|by apply keeps_get_data..]. }
  2:{ intros e w' Hs. by eapply same_fields_ok_at. }
  intros _ w2 Hs2. apply wp_ret. by eapply same_fields_ok_at.
Qed.

Lemma keeps_List_move n that : keeps (ok_at n) (List_move (T := T) that).
Proof.
  intros fuel w Hok. unfold List_move.
  apply wp_bind, wpp_get_obj. intros o Ho. pose proof (proj1 Hok _ _ Ho) as Hobj.
  apply wp_bind, wp_new_obj.
  set (this := fresh (dom (objs w))).
  assert (that ≠ this) as Hne.
  { intros Heq. pose proof (is_fresh (dom (objs w))) as Hf. fold this in Hf.
    rewrite <-Heq in Hf. apply Hf, elem_of_dom. eauto. }
  apply wp_bind, wpp_put_obj. simpl. intros o1 Ho1.
  apply wp_bind, wpp_put_obj. simpl. intros o2 Ho2.
  apply wp_bind, wpp_get_capacity. simpl. intros o3 Ho3.
  apply wp_bind, wpp_new_array. intros p b _.
  apply wp_bind, wpp_put_obj. simpl. intros o4 Ho4. apply wp_ret.
  rewrite lookup_insert_eq in Ho2, Ho3, Ho4. simplify_eq. simpl.
  eapply (ok_at_objs n w); [done|done|]. simpl. intros a oa Ha.
  repeat (rewrite lookup_insert in Ha; case_decide; simplify_eq);
    first [by right | left; apply obj_ok_init | left; by destruct o | idtac].
Qed.

Lemma keeps_assign n this that : keeps (ok_at n) (assign (T := T) this that).
Proof.
  intros fuel w Hok. unfold assign. case_decide as Hne; [|by apply wp_ret].
  apply wp_bind, wpp_get_size. intros o Ho. pose proof (proj1 Hok _ _ Ho) as Hobj.
  apply wp_bind, wpp_put_obj. intros o1 Ho1.
  apply wp_bind, wpp_get_capacity. simpl. intros o' Ho'.
  rewrite lookup_insert_ne in Ho' by done. rewrite Ho in Ho'. injection Ho' as <-.
  apply wp_bind, wpp_put_obj. simpl. intros o2 Ho2.
  rewrite lookup_insert_eq in Ho2. injection Ho2 as <-. simpl.
  apply wp_bind, wpp_get_data. simpl. intros o3 _.
  apply wp_bind, wpp_delete_array.
  apply wp_bind, wpp_get_capacity. simpl. intros o4 _.
  apply wp_bind, wpp_new_array. intros p b _.
  apply wp_bind, wpp_put_obj. simpl. intros o5 Ho5.
  rewrite lookup_insert_eq in Ho5. injection Ho5 as <-. simpl.
  set (w1 := set_objs _ _).
  assert (ok_at n w1) as Hok1.
  { eapply (ok_at_update n w);
      [done|unfold w1; simpl; by rewrite !insert_insert_eq|done|]. by destruct o. }
  apply wpp_quiet.
  { intros P HP. apply keeps_copy_elements; [done|by apply keeps_get_data..]. }
  - intros _ w2 Hs2. by eapply same_fields_ok_at.
  - intros e w2 Hs2. by eapply same_fields_ok_at.
Qed.

Lemma keeps_move_assign n this that : keeps (ok_at n) (move_assign (T := T) this that).
Proof.
  intros fuel w Hok. unfold move_assign. case_decide as Hne; [|by apply wp_ret].
  apply wp_bind, wpp_get_data. intros o0 _.
  apply wp_bind, wpp_delete_array.
  apply wp_bind, wpp_get_size. simpl. intros o Ho. pose proof (proj1 Hok _ _ Ho) as Hobj.
  apply wp_bind, wpp_put_obj. simpl. intros o1 Ho1.
  apply wp_bind, wpp_get_capacity. simpl. intros o' Ho'.
  rewrite lookup_insert_ne in Ho' by done. rewrite Ho in Ho'. injection Ho' as <-.
  apply wp_bind, wpp_put_obj. simpl. intros o2 Ho2.
  norm_lookup Ho2. injection Ho2 as <-. simpl.
  apply wp_bind, wpp_get_data. simpl. intros o3 Ho3.
  norm_lookup Ho3. rewrite Ho in Ho3. injection Ho3 as <-.
  apply wp_bind, wpp_put_obj. simpl. intros o4 Ho4.
  norm_lookup Ho4. injection Ho4 as <-. simpl.
  apply wp_bind, wpp_put_obj. simpl. intros o5 Ho5.
  apply wp_bind, wpp_put_obj. simpl. intros o6 Ho6.
  norm_lookup Ho6. injection Ho6 as <-. simpl.
  apply wp_bind, wpp_get_capacity. simpl. intros o7 _.
  apply wp_bind, wpp_new_array. intros p b _.
  apply wpp_put_obj. simpl. intros o8 Ho8.
  norm_lookup Ho8. injection Ho8 as <-. simpl.
  eapply (ok_at_objs n w); [done|done|]. simpl. intros a oa Ha.
  repeat (rewrite lookup_insert in Ha; case_decide; simplify_eq);
    first [by right | left; apply obj_ok_init | left; by destruct o | idtac].
Qed.

Lemma keeps_clear n this : keeps (ok_at n) (clear (T := T) this).
Proof.
  intros fuel w Hok. unfold clear.
  apply wp_bind, wpp_get_size. intros o Ho.
  case_decide; [|by apply wp_ret].
  apply wp_bind, wpp_put_obj. intros o1 Ho1.
  apply wp_bind, wpp_put_obj. simpl. intros o2 Ho2.
  norm_lookup Ho2. injection Ho2 as <-. simpl.
  apply wp_bind, wpp_get_data. simpl. intros o3 _.
  apply wp_bind, wpp_delete_array.
  apply wp_bind, wpp_get_capacity. simpl. intros o4 _.
  apply wp_bind, wpp_new_array. intros p b _.
  apply wpp_put_obj. simpl. intros o5 Ho5.
  norm_lookup Ho5. injection Ho5 as <-. simpl.
  eapply (ok_at_objs n w); [done|done|]. simpl. intros a oa Ha.
  repeat (rewrite lookup_insert in Ha; case_decide; simplify_eq);
    first [by right | left; apply obj_ok_init | idtac].
Qed.

Lemma keeps_swap n this that : keeps (ok_at n) (swap (T := T) this that).
Proof.
  intros fuel w Hok. unfold swap.
  apply wp_bind, wpp_get_size. intros o Ho. pose proof (proj1 Hok _ _ Ho) as Hobj.
  apply wp_bind, wpp_get_size. intros o' Ho'. pose proof (proj1 Hok _ _ Ho') as Hobj'.
  destruct (decide (this = that)) as [->|Hne].
  { (* swapping an object with itself *)
    rewrite Ho in Ho'. injection Ho' as <-.
    apply wp_bind, wpp_put_obj. intros o1 Ho1. rewrite Ho in Ho1. injection Ho1 as <-.
    apply wp_bind, wpp_put_obj. simpl. intros o2 Ho2.
    norm_lookup Ho2. injection Ho2 as <-. simpl.
    apply wp_bind, wpp_get_capacity. simpl. intros o3 Ho3.
    norm_lookup Ho3. injection Ho3 as <-. simpl.
    apply wp_bind, wpp_get_capacity. simpl. intros o4 Ho4.
    norm_lookup Ho4. injection Ho4 as <-. simpl.
    apply wp_bind, wpp_put_obj. simpl. intros o5 Ho5.
    norm_lookup Ho5. injection Ho5 as <-. simpl.
    apply wp_bind, wpp_put_obj. simpl. intros o6 Ho6.
    norm_lookup Ho6. injection Ho6 as <-. simpl.
    apply wp_bind, wpp_get_data. simpl. intros o7 Ho7.
    norm_lookup Ho7. injection Ho7 as <-. simpl.
    apply wp_bind, wpp_get_data. simpl. intros o8 Ho8.
    norm_lookup Ho8. injection Ho8 as <-. simpl.
    apply wp_bind, wpp_put_obj. simpl. intros o9 Ho9.
    norm_lookup Ho9. injection Ho9 as <-. simpl.
    apply wpp_put_obj. simpl. intros o10 Ho10.
    norm_lookup Ho10. injection Ho10 as <-. simpl.
    eapply (ok_at_objs n w); [done|done|]. simpl. intros a oa Ha.
    repeat (rewrite lookup_insert in Ha; case_decide; simplify_eq);
      first [by right | left; by destruct o | idtac]. }
  apply wp_bind, wpp_put_obj. intros o1 Ho1. rewrite Ho in Ho1. injection Ho1 as <-.
  apply wp_bind, wpp_put_obj. simpl. intros o2 Ho2.
  norm_lookup Ho2. rewrite Ho' in Ho2. injection Ho2 as <-.
  apply wp_bind, wpp_get_capacity. simpl. intros o3 Ho3.
  norm_lookup Ho3. injection Ho3 as <-. simpl.
  apply wp_bind, wpp_get_capacity. simpl. intros o4 Ho4.
  norm_lookup Ho4. injection Ho4 as <-. simpl.
  apply wp_bind, wpp_put_obj. simpl. intros o5 Ho5.
  norm_lookup Ho5. injection Ho5 as <-. simpl.
  apply wp_bind, wpp_put_obj. simpl. intros o6 Ho6.
  norm_lookup Ho6. injection Ho6 as <-. simpl.
  apply wp_bind, wpp_get_data. simpl. intros o7 Ho7.
  norm_lookup Ho7. injection Ho7 as <-. simpl.
  apply wp_bind, wpp_get_data. simpl. intros o8 Ho8.
  norm_lookup Ho8. injection Ho8 as <-. simpl.
  apply wp_bind, wpp_put_obj. simpl. intros o9 Ho9.
  norm_lookup Ho9. injection Ho9 as <-. simpl.
  apply wpp_put_obj. simpl. intros o10 Ho10.
  norm_lookup Ho10. injection Ho10 as <-. simpl.
  eapply (ok_at_objs n w); [done|done|]. simpl. intros a oa Ha.
  repeat (rewrite lookup_insert in Ha; case_decide; simplify_eq);
    first [by right | left; by destruct o | left; by destruct o' | idtac].
Qed.

(** ** Construction from an initial sequence *)

Lemma keeps_List_of n il :
  Z.of_nat (length il) ≤ MAX_CAPACITY → keeps (ok_at n) (List_of (T := T) il).
Proof.
  intros Hlen fuel w Hok. unfold List_of.
  rewrite to_int_small by int_lia.
  apply wp_bind, wpp_new_array. intros p b _.
  apply wp_bind, wp_new_obj.
  set (w1 := set_objs _ _).
  assert (ok_at n w1) as Hok1.
  { eapply (ok_at_update n w); [done|done|done|].
    unfold obj_ok, INIT_CAPACITY. simpl. case_decide; int_lia. }
  apply wp_bind. apply wpp_quiet.
  { intros P HP. keeps_heap HP. }
  2:{ intros e w' Hs. by eapply same_fields_ok_at. }
  intros _ w2 Hs2. apply wp_ret. by eapply same_fields_ok_at.
Qed.

(** ** The operations built on insert and remove *)

Lemma keeps_append this (element : @cref T) : keeps world_ok (append this element).
Proof.
  unfold append. apply keeps_bind; [apply keeps_get_size|intros ?; apply keeps_insert].
Qed.

Lemma keeps_append_all this src : keeps world_ok (append_all (T := T) this src).
Proof.
  pose proof (field_only_world_ok) as HP.
  unfold append_all. apply keeps_bind; [|intros ?; apply keeps_ret].
  apply keeps_loop; intros i; [keeps_heap HP|].
  apply keeps_bind; [keeps_heap HP|intros d].
  apply keeps_bind; [apply keeps_append|intros ?]. keeps_heap HP.
Qed.

Lemma keeps_concatenate this list : keeps world_ok (concatenate (T := T) this list).
Proof.
  unfold concatenate. case_decide; [|apply keeps_append_all].
  apply keeps_with_local.
  - apply keeps_ok_at_world_ok. intros n. apply keeps_List_copy.
  - intros ?. apply keeps_append_all.
  - intros ?. apply keeps_ok_at_world_ok. intros n. apply keeps_List_delete.
Qed.

Lemma keeps_repeat this times : keeps world_ok (repeat (T := T) this times).
Proof.
  pose proof (field_only_world_ok) as HP.
  unfold repeat. case_decide; [apply keeps_throw|].
  apply keeps_with_local.
  - apply keeps_ok_at_world_ok. intros n. apply keeps_List_new.
  - intros ?. apply keeps_bind.
    + apply keeps_loop; intros i; [keeps_heap HP|].
      apply keeps_bind; [apply keeps_concatenate|intros ?]. keeps_heap HP.
    + intros ?. apply keeps_ok_at_world_ok. intros n. apply keeps_assign.
  - intros ?. apply keeps_ok_at_world_ok. intros n. apply keeps_List_delete.
Qed.

Lemma keeps_slice this start stop step :
  keeps world_ok (slice (T := T) this start stop step).
Proof.
  pose proof (field_only_world_ok) as HP.
  unfold slice. case_decide; [apply keeps_throw|].
  do 8 (apply keeps_bind; [keeps_heap HP|intros ?]).
  apply keeps_returning_local.
  - apply keeps_ok_at_world_ok. intros n. apply keeps_List_new.
  - intros ?. apply keeps_bind; [|intros ?; apply keeps_ret].
    apply keeps_loop; intros i; [keeps_heap HP|].
    apply keeps_bind; [keeps_heap HP|intros d].
    apply keeps_bind; [apply keeps_append|intros ?]. keeps_heap HP.
  - intros ?. apply keeps_ok_at_world_ok. intros n. apply keeps_List_delete.
Qed.

Lemma keeps_remove_value n this (element : @cref T) :
  keeps (ok_at n) (remove_value this element).
Proof.
  pose proof (field_only_ok_at n) as HP.
  unfold remove_value. apply keeps_bind; [by apply keeps_find|intros index].
  case_decide; [|apply keeps_ret].
  apply keeps_bind; [apply keeps_remove|intros ?; apply keeps_ret].
Qed.

Lemma keeps_uniquify n this : keeps (ok_at n) (uniquify (T := T) this).
Proof.
  pose proof (field_only_ok_at n) as HP.
  unfold uniquify. apply keeps_bind; [|intros ?; apply keeps_ret].
  apply keeps_loop; intros i; [keeps_heap HP|].
  apply keeps_bind; [|intros ?; keeps_heap HP].
  apply keeps_loop; intros [].
  - apply keeps_bind; [keeps_heap HP|intros d].
    apply keeps_bind; [by apply keeps_count|intros ?]. keeps_heap HP.
  - apply keeps_bind; [keeps_heap HP|intros d].
    apply keeps_bind; [apply keeps_remove_value|intros ?]. keeps_heap HP.
Qed.

(** ** Every call *)

Lemma keeps_discard (P : W → Prop) {A} (m : M' A) : keeps P m → keeps P (m ;;; ret tt).
Proof. intros Hm. apply keeps_bind; [done|intros ?; apply keeps_ret]. Qed.

(** The operators that produce a list work on a copy of their operand. *)
Lemma keeps_produce (P : W → Prop) this (body : addr → M' unit) :
  (∀ a, keeps P (List_copy (T := T) a)) → (∀ a, keeps P (List_delete (T := T) a)) →
  (∀ a, keeps P (body a)) →
  keeps P (with_local (List_copy this) (fun new_list => body new_list ;;; List_copy new_list)).
Proof.
  intros Hc Hd Hb. apply keeps_with_local; [done| |done].
  intros a. apply keeps_bind; [done|intros ?; done].
Qed.

Lemma keeps_minus n this (element : @cref T) : keeps (ok_at n) (minus this element).
Proof.
  apply (keeps_produce _ this (fun a => remove_value a element)); intros a.
  - apply keeps_List_copy.
  - apply keeps_List_delete.
  - apply keeps_remove_value.
Qed.

Lemma keeps_plus this (element : @cref T) : keeps world_ok (plus this element).
Proof.
  apply (keeps_produce _ this (fun a => append a element)); intros a.
  - apply keeps_ok_at_world_ok. intros n. apply keeps_List_copy.
  - apply keeps_ok_at_world_ok. intros n. apply keeps_List_delete.
  - apply keeps_append.
Qed.

Lemma keeps_plus_list this list : keeps world_ok (plus_list (T := T) this list).
Proof.
  apply (keeps_produce _ this (fun a => concatenate a list)); intros a.
  - apply keeps_ok_at_world_ok. intros n. apply keeps_List_copy.
  - apply keeps_ok_at_world_ok. intros n. apply keeps_List_delete.
  - apply keeps_concatenate.
Qed.

Lemma keeps_times this n : keeps world_ok (times (T := T) this n).
Proof.
  apply (keeps_produce _ this (fun a => repeat a n)); intros a.
  - apply keeps_ok_at_world_ok. intros k. apply keeps_List_copy.
  - apply keeps_ok_at_world_ok. intros k. apply keeps_List_delete.
  - apply keeps_repeat.
Qed.

(** A call that does not insert keeps the invariant and the counter. *)
Lemma keeps_quiet_call n (c : call (T := T)) :
  inserts c = false → call_fits (ok_at n) c → keeps (ok_at n) (run_call c).
Proof.
  pose proof (field_only_ok_at n) as HP.
  destruct c; simpl; intros Hins Hfit; try discriminate.
  - apply keeps_discard, keeps_List_new.
  - by apply keeps_discard, keeps_List_of.
  - apply keeps_discard, keeps_List_copy.
  - apply keeps_discard, keeps_List_move.
  - apply keeps_List_delete.
  - apply keeps_assign.
  - apply keeps_move_assign.
  - apply keeps_discard, keeps_remove.
  - apply keeps_remove_value.
  - apply keeps_clear.
  - by apply keeps_reverse.
  - apply keeps_uniquify.
  - by apply keeps_sort.
  - apply keeps_swap.
  - by apply keeps_discard, keeps_find.
  - by apply keeps_discard, keeps_contains.
  - by apply keeps_discard, keeps_count.
  - by apply keeps_discard, keeps_equal.
  - by apply keeps_discard, keeps_subscript.
  - by apply keeps_discard, keeps_size.
  - by apply keeps_discard, keeps_is_empty.
  - by apply keeps_discard, keeps_not_equal.
  - by apply keeps_discard, keeps_min.
  - by apply keeps_discard, keeps_max.
  - by apply keeps_traverse.
  - apply keeps_discard, keeps_minus.
Qed.

(** Every call keeps the invariant. *)
Lemma keeps_call (c : call (T := T)) : call_fits world_ok c → keeps world_ok (run_call c).
Proof.
  intros Hfit. destruct (inserts c) eqn:Hins.
  - destruct c; simpl in *; try discriminate.
    + apply keeps_insert.
    + apply keeps_append.
    + apply keeps_concatenate.
    + apply keeps_repeat.
    + apply keeps_discard, keeps_slice.
    + apply keeps_discard, keeps_plus.
    + apply keeps_discard, keeps_plus_list.
    + apply keeps_discard, keeps_times.
    + apply keeps_discard, keeps_times.
  - destruct c; try (apply keeps_ok_at_world_ok; intros n; by apply keeps_quiet_call).
    simpl in *. by apply keeps_traverse.
Qed.

End Invariant.

(** * The specification, statement by statement *)

Section Statements.
Context {T : Type} `{EqDecision T}.
Local Abbreviation buffer := (list (option T)) (only parsing).
Local Abbreviation W := (@world T) (only parsing).
Local Abbreviation M' := (M (@world T)) (only parsing).

(** ** Lists built by the initializer-list constructor *)

Lemma world_with_created (il : list T) :
  Z.of_nat (length il) ≤ INT_MAX →
  created empty_world 1%positive il (Z.max (Z.of_nat (length il)) INIT_CAPACITY)
    1%positive (world_with il) ∧
  List_of il (S (length il)) empty_world = Ok 1%positive (world_with il).
Proof.
  intros Hlen.
  destruct (wp_returns _ _ _ _ _
              (List_of_spec (S (length il)) empty_world il no_throw Hlen ltac:(lia)))
    as (a & w' & Hrun & Ha & _ & Hcr); [by intros ? ? []|].
  unfold world_with. rewrite Hrun. by subst a.
Qed.

Lemma world_with_list_at (il : list T) :
  Z.of_nat (length il) ≤ MAX_CAPACITY →
  list_at (world_with il) 1%positive il
    (Z.max (Z.of_nat (length il)) INIT_CAPACITY) 1%positive.
Proof.
  intros Hlen. destruct (world_with_created il) as [Hcr _]; [int_lia|].
  eapply created_list_at; [done|]. unfold INIT_CAPACITY. int_lia.
Qed.

(** ** C1: self-concatenation *)

(** Beyond the bound CapacityExceeded is thrown. *)
Lemma concatenate_self_too_long fuel (w : W) c s cap p :
  list_at w c s cap p →
  2 * Z.of_nat (length s) > MAX_CAPACITY →
  (Z.to_nat MAX_CAPACITY < fuel)%nat →
  ∃ w', concatenate c c fuel w = Throw CapacityExceeded w'.
Proof.
  intros Hl Hsum Hfuel.
  destruct (wp_throws _ _ _ _ _ (concatenate_self_spec fuel w c s cap p Hl ltac:(lia)))
    as (e & w' & Hrun & -> & _).
  { intros [] w' (Hle & _). lia. }
  by exists w'.
Qed.

(** C1, as amended.  For every list [c] with contents [s], the fuel covering
    the elements to append: (1) when [2 * length s ≤ MAX_CAPACITY],
    [c += c] returns and leaves [c] with length [2 * length s], the first
    half and the second half both equal to [s] — whether or not the buffer
    was reallocated on the way ([p'] is the old buffer or a new one) — and
    no other object is touched; (2) when [2 * length s > MAX_CAPACITY],
    [c += c] does not return: it throws CapacityExceeded. *)
Theorem concatenate_self_doubles fuel (w : W) c s cap p :
  list_at w c s cap p →
  (Z.to_nat (Z.min (2 * Z.of_nat (length s)) MAX_CAPACITY) < fuel)%nat →
  (2 * Z.of_nat (length s) ≤ MAX_CAPACITY →
   ∃ w' cap' p',
     concatenate c c fuel w = Ok tt w' ∧
     list_at w' c (s ++ s) cap' p' ∧
     length (s ++ s) = (2 * length s)%nat ∧
     take (length s) (s ++ s) = s ∧
     drop (length s) (s ++ s) = s ∧
     (p' = p ∨ heap w !! p' = None) ∧
     (∀ b, b ≠ c → objs w' !! b = objs w !! b)) ∧
  (2 * Z.of_nat (length s) > MAX_CAPACITY →
   ∃ w', concatenate c c fuel w = Throw CapacityExceeded w').
Proof.
  intros Hl Hfuel. pose proof (la_cap _ _ _ _ _ Hl) as Hcap. split.
  - intros Hsum.
    destruct (wp_returns _ _ _ _ _ (concatenate_self_spec fuel w c s cap p Hl ltac:(lia)))
      as ([] & w' & Hrun & _ & cap' & p' & Hup & Hc').
    { intros e w' (_ & Hover & _). lia. }
    exists w', cap', p'. split; [done|].
    split; [eapply updated_list_at; [done|lia]|].
    split; [rewrite length_app; lia|].
    split; [by rewrite take_app_length|]. split; [by rewrite drop_app_length|].
    destruct Hup as (junk & Ho & _ & _ & Hp'). split; [done|].
    intros b Hb. by rewrite Ho, lookup_insert_ne.
  - intros Hsum. eapply concatenate_self_too_long; [done|done|lia].
Qed.

(** ** Expansion *)

Lemma grown_is_min cap :
  0 < cap ≤ MAX_CAPACITY → grown cap = Z.min (cap * 2) MAX_CAPACITY.
Proof. apply grown_min. Qed.

(** X29.  For an element passed by value or through a reference that does
    not point into the buffer of the list: (1) an insert into a list whose
    length equals its capacity, below MAX_CAPACITY, performs exactly one
    expansion; afterwards the capacity is [min (2 * capacity) MAX_CAPACITY]
    and the contents are the old ones with the new element at its place;
    (2) an insert into a list with room left performs no expansion and
    keeps the capacity and the buffer.  (3) From a store that satisfies the
    invariant, a call of any operation that adds no element — all but
    insert, operator+=, operator*=, slice, operator+ and operator* —
    leaves, whenever it returns or throws, the number of expansions as it
    was, traverse being given an action that does and a constructor from
    an initializer list at most MAX_CAPACITY elements. *)
Theorem expansion_only_on_full_insert :
  (∀ fuel (w : W) this l cap p index element x,
     list_at w this l cap p →
     Z.of_nat (length l) = cap → cap < MAX_CAPACITY →
     ref_to w element x p →
     - Z.of_nat (length l) ≤ index ≤ Z.of_nat (length l) →
     (length l < fuel)%nat →
     ∃ w' p',
       insert this index element fuel w = Ok tt w' ∧
       expansions w' = S (expansions w) ∧
       list_at w' this (inserted (resolve index (length l)) x l)
         (Z.min (cap * 2) MAX_CAPACITY) p')
  ∧
  (∀ fuel (w : W) this l cap p index element x,
     list_at w this l cap p →
     Z.of_nat (length l) < cap →
     ref_to w element x p →
     - Z.of_nat (length l) ≤ index ≤ Z.of_nat (length l) →
     (length l < fuel)%nat →
     ∃ w',
       insert this index element fuel w = Ok tt w' ∧
       expansions w' = expansions w ∧
       list_at w' this (inserted (resolve index (length l)) x l) cap p)
  ∧
  (∀ (c : call) (n fuel : nat) (w : W),
     inserts c = false → call_fits (ok_at n) c → ok_at n w →
     match run_call c fuel w with
     | Ok _ w' | Throw _ w' => expansions w' = n
     | Fault _ | OutOfFuel => True
     end).
Proof.
  split; [|split].
  - intros fuel w this l cap p index element x Hl Hfull Hmax Hr Hidx Hfuel.
    pose proof (la_cap _ _ _ _ _ Hl) as Hcap.
    destruct (wp_returns _ _ _ _ _
                (insert_spec fuel w this l cap p index element x no_throw
                   Hl Hr ltac:(lia) Hidx Hfuel))
      as ([] & w' & Hrun & junk & -> & Hlen); [by intros ? ? []|].
    rewrite bool_decide_eq_true_2 in Hlen, Hrun by done.
    eexists _, _. split; [done|]. split; [done|].
    rewrite <-grown_min by done.
    pose proof (grown_bounds cap Hcap) as [Hg _].
    split; simpl; [by rewrite length_inserted, lookup_insert_eq| |lia].
    exists junk. rewrite lookup_insert_eq, length_inserted. done.
  - intros fuel w this l cap p index element x Hl Hroom Hr Hidx Hfuel.
    pose proof (la_cap _ _ _ _ _ Hl) as Hcap.
    destruct (wp_returns _ _ _ _ _
                (insert_spec fuel w this l cap p index element x no_throw
                   Hl Hr ltac:(lia) Hidx Hfuel))
      as ([] & w' & Hrun & junk & -> & Hlen); [by intros ? ? []|].
    rewrite bool_decide_eq_false_2 in Hlen, Hrun by lia.
    eexists. split; [done|]. split; [done|].
    split; simpl; [by rewrite length_inserted, lookup_insert_eq| |lia].
    exists junk. rewrite lookup_insert_eq, length_inserted. done.
  - intros c n fuel w Hins Hfit Hok.
    pose proof (keeps_quiet_call n c Hins Hfit fuel w Hok) as Hwp.
    unfold wp in Hwp. destruct (run_call c fuel w); try done; by destruct Hwp.
Qed.

(** ** C10: self-assignment *)

(** C10.  Copy-assigning and move-assigning a list to itself return at once
    and leave the whole store as it was: contents, length, capacity and
    buffer of the list are untouched, nothing is freed. *)
Theorem self_assignment_is_identity (x : addr) (fuel : nat) (w : W) :
  assign x x fuel w = Ok tt w ∧ move_assign x x fuel w = Ok tt w.
Proof.
  unfold assign, move_assign.
  by destruct (decide (x ≠ x)).
Qed.

(** ** C3: uniquify *)

Lemma keep_first_snoc (m : list T) x :
  keep_first (m ++ [x]) = keep_first m ++ (if decide (x ∈ m) then [] else [x]).
Proof.
  induction m as [|y m IH]; simpl; [done|].
  rewrite IH, filter_app. f_equal. f_equal.
  destruct (decide (x ∈ m)) as [Hin|Hin].
  - by rewrite decide_True by (by right).
  - destruct (decide (x = y)) as [->|Hne].
    + rewrite decide_True by left. rewrite filter_cons. by rewrite decide_False by auto.
    + rewrite decide_False by (by intros [?|?]%elem_of_cons).
      rewrite filter_cons. by rewrite decide_True by done.
Qed.

Lemma keep_last_rev (l : list T) : keep_last l = rev (keep_first (rev l)).
Proof.
  induction l as [|x l IH]; simpl; [done|].
  rewrite keep_first_snoc, rev_app_distr, <-IH.
  assert (x ∈ rev l ↔ x ∈ l) as Hrev by (by rewrite !list_elem_of_In, <-in_rev).
  destruct (decide (x ∈ l)) as [Hin|Hin].
  - by rewrite decide_True by (by apply Hrev).
  - by rewrite decide_False by (by rewrite Hrev).
Qed.

(** C3, as amended.  [uniquify] returns and leaves the list with every value
    of the original contents exactly once (no duplicates, the same set of
    values), capacity and buffer unchanged; each value stays at the place of
    its LAST occurrence, so the result is the first-seen-order deduplication
    of the reversed contents, reversed. *)
Theorem uniquify_keeps_last_occurrences fuel (w : W) this l cap p :
  list_at w this l cap p → (length l < fuel)%nat →
  ∃ w', uniquify this fuel w = Ok tt w' ∧
        list_at w' this (keep_last l) cap p ∧
        NoDup (keep_last l) ∧
        (∀ x, x ∈ keep_last l ↔ x ∈ l) ∧
        keep_last l = rev (keep_first (rev l)).
Proof.
  intros Hl Hfuel.
  destruct (wp_returns _ _ _ _ _ (uniquify_spec fuel w this l cap p no_throw Hl Hfuel))
    as ([] & w' & Hrun & Hup & _); [by intros ? ? []|].
  exists w'. split; [done|].
  split; [eapply updated_list_at; [done|by destruct Hl]|].
  split; [apply keep_last_NoDup|]. split; [intros x; apply keep_last_elem_of|apply keep_last_rev].
Qed.

(** ** C4: clear and remove *)

(** C4, as amended.  (1) On a list that is not empty, [clear] leaves length 0
    and the initial capacity; the old buffer is released and a new one of
    the initial capacity is allocated; no other object changes.  (2) On an
    empty list [clear] does nothing at all: capacity and buffer stay.
    (3) [remove] returns the removed element and keeps capacity and
    buffer. *)
Theorem clear_resets_and_remove_keeps_capacity :
  (∀ fuel (w : W) this l cap p,
     list_at w this l cap p → l ≠ [] →
     ∃ w' p',
       clear this fuel w = Ok tt w' ∧
       list_at w' this [] INIT_CAPACITY p' ∧
       heap w' = <[p' := replicate (Z.to_nat INIT_CAPACITY) None]> (delete p (heap w)) ∧
       (∀ b, b ≠ this → objs w' !! b = objs w !! b))
  ∧
  (∀ fuel (w : W) this cap p,
     list_at w this [] cap p → clear this fuel w = Ok tt w)
  ∧
  (∀ fuel (w : W) this l cap p index,
     list_at w this l cap p →
     - Z.of_nat (length l) ≤ index < Z.of_nat (length l) →
     (length l < fuel)%nat →
     ∃ x w',
       remove this index fuel w = Ok x w' ∧
       l !! resolve index (length l) = Some x ∧
       list_at w' this (delete (resolve index (length l)) l) cap p).
Proof.
  split; [|split].
  - intros fuel w this l cap p Hl Hne.
    destruct (wp_returns _ _ _ _ _ (clear_spec fuel w this l cap p no_throw Hl))
      as ([] & w' & Hrun & Hpost); [by intros ? ? []|].
    rewrite decide_False in Hpost by done. simpl in Hpost.
    exists w', (fresh (dom (delete p (heap w)))). split; [done|]. subst w'.
    split; [|split; [done|]].
    + split; simpl; [by rewrite lookup_insert_eq| |unfold INIT_CAPACITY; int_lia].
      exists (replicate 4 None). by rewrite lookup_insert_eq.
    + intros b Hb. simpl. by rewrite lookup_insert_ne.
  - intros fuel w this cap p Hl.
    destruct (wp_returns _ _ _ _ _ (clear_spec fuel w this [] cap p no_throw Hl))
      as ([] & w' & Hrun & Hpost); [by intros ? ? []|].
    rewrite decide_True in Hpost by done. by subst w'.
  - intros fuel w this l cap p index Hl Hidx Hfuel.
    set (idx := resolve index (length l)).
    destruct (lookup_lt_is_Some_2 l idx) as [x Hx].
    { unfold idx, resolve. case_decide; lia. }
    destruct (wp_returns _ _ _ _ _
                (remove_spec fuel w this l cap p index x no_throw Hl Hidx Hx Hfuel))
      as (r & w' & Hrun & -> & Hup & _); [by intros ? ? []|].
    exists x, w'. split; [done|]. split; [done|].
    eapply updated_list_at; [done|by destruct Hl].
Qed.

(** ** C5: slice *)

(** C5, as amended.  (1) On a list that is not empty, [slice(0, length, 1)]
    returns a new list, at an address and with a buffer that were free, that
    holds the contents of the receiver and compares equal to it; the receiver
    and everything else in the store are as before.  (2) For a step other
    than 0 (and small enough for the cursor not to overflow), [slice] accepts
    exactly the starts in [-length, length) and the stops in
    [-length - 1, length]: within these it returns the selected elements in a
    new list, outside it throws IndexOutOfRange and leaves the store as it
    was. *)
Theorem slice_whole_list_and_bounds :
  (∀ fuel (w : W) this l cap p,
     list_at w this l cap p → l ≠ [] → (length l < fuel)%nat →
     ∃ a w' ca qa,
       slice this 0 (Z.of_nat (length l)) 1 fuel w = Ok a w' ∧
       created w a l ca qa w' ∧
       list_at w' a l ca qa ∧
       list_at w' this l cap p ∧
       equal this a fuel w' = Ok true w')
  ∧
  (∀ fuel (w : W) this l cap p start stop step,
     list_at w this l cap p →
     step ≠ 0 → INT_MIN ≤ step → step ≤ INT_MAX - Z.of_nat (length l) →
     (length l < fuel)%nat →
     (- Z.of_nat (length l) ≤ start < Z.of_nat (length l) ∧
      - Z.of_nat (length l) - 1 ≤ stop ≤ Z.of_nat (length l) →
      ∃ a w' ca qa,
        slice this start stop step fuel w = Ok a w' ∧
        created w a (sliced l start stop step) ca qa w' ∧
        list_at w' a (sliced l start stop step) ca qa ∧
        list_at w' this l cap p)
     ∧
     (¬ (- Z.of_nat (length l) ≤ start < Z.of_nat (length l) ∧
         - Z.of_nat (length l) - 1 ≤ stop ≤ Z.of_nat (length l)) →
      slice this start stop step fuel w = Throw IndexOutOfRange w)).
Proof.
  assert (∀ fuel (w : W) this l cap p start stop step,
     list_at w this l cap p →
     step ≠ 0 → INT_MIN ≤ step → step ≤ INT_MAX - Z.of_nat (length l) →
     (length l < fuel)%nat →
     - Z.of_nat (length l) ≤ start < Z.of_nat (length l) ∧
     - Z.of_nat (length l) - 1 ≤ stop ≤ Z.of_nat (length l) →
     ∃ a w' ca qa,
        slice this start stop step fuel w = Ok a w' ∧
        created w a (sliced l start stop step) ca qa w' ∧
        list_at w' a (sliced l start stop step) ca qa ∧
        list_at w' this l cap p) as Haccept.
  { intros fuel w this l cap p start stop step Hl Hz Hmin Hstep Hfuel Hrange.
    destruct (wp_returns _ _ _ _ _
                (slice_spec fuel w this l cap p start stop step Hl Hmin Hstep Hfuel))
      as (a & w' & Hrun & _ & _ & ca & qa & Hcr & Hca).
    { intros e w' (_ & [[_ ?]|(_ & _ & ?)]); done. }
    exists a, w', ca, qa. split; [done|]. split; [done|].
    split; [by eapply created_list_at|by eapply created_frame]. }
  split.
  - intros fuel w this l cap p Hl Hne Hfuel.
    pose proof (list_at_lookup _ _ _ _ _ Hl) as [_ Hmax].
    destruct (Haccept fuel w this l cap p 0 (Z.of_nat (length l)) 1 Hl)
      as (a & w' & ca & qa & Hrun & Hcr & Hla & Hlthis);
      [done|int_lia|int_lia|done|destruct l; [done|simpl; lia]|].
    rewrite sliced_all in Hcr, Hla.
    exists a, w', ca, qa. do 4 (split; [done|]).
    destruct (wp_returns _ _ _ _ _
                (equal_spec fuel w' this a l cap p l ca qa no_throw Hlthis Hla Hfuel))
      as (r & w'' & Hrun' & -> & ->); [by intros ? ? []|].
    by rewrite Hrun', bool_decide_eq_true_2.
  - intros fuel w this l cap p start stop step Hl Hz Hmin Hstep Hfuel.
    split; [by apply Haccept|]. intros Hrange.
    destruct (wp_throws _ _ _ _ _
                (slice_spec fuel w this l cap p start stop step Hl Hmin Hstep Hfuel))
      as (e & w' & Hrun & -> & [[_ ?]|(-> & _ & _)]); [|done|done].
    intros a w' (Hok & _). apply Hrange. by destruct Hok as (_ & ? & ?).
Qed.

(** ** C7: repetition *)

(** What happens when the copies do not fit: CapacityExceeded, and the
    list is as it was. *)
Lemma repeat_too_long fuel (w : W) this l cap p times :
  list_at w this l cap p → 0 ≤ times → times ≤ INT_MAX →
  times * Z.of_nat (length l) > MAX_CAPACITY →
  (Z.to_nat times < fuel)%nat → (length l < fuel)%nat →
  (Z.to_nat MAX_CAPACITY < fuel)%nat →
  ∃ w', repeat this times fuel w = Throw CapacityExceeded w' ∧
        list_at w' this l cap p.
Proof.
  intros Hl Hpos Hint Hover Hf1 Hf2 Hf3.
  destruct (wp_throws _ _ _ _ _
              (repeat_spec fuel w this l cap p times Hl Hint Hf1 Hf2 ltac:(lia)))
    as (e & w' & Hrun & [(_ & ? & _)|(-> & _ & _ & Ho & Hh)]); [|lia|].
  { intros [] w' (_ & ? & _). lia. }
  exists w'. split; [done|]. destruct Hl as [Hobj (junk & Hb & Hlen) Hcap].
  split; [by rewrite Ho| |done]. exists junk. by rewrite Hh.
Qed.

(** C7, as amended.  [times] being an int: (1) for [times < 0] the call
    throws InvalidArgument and the store is as before; (2) for [times ≥ 0]
    with [times * length ≤ MAX_CAPACITY] it returns and the list holds
    [times] consecutive copies of the original contents, of length
    [times * length] (nothing for [times = 0]); (3) for [times ≥ 0] with
    [times * length > MAX_CAPACITY] it throws CapacityExceeded and the list
    is as before; (4) so InvalidArgument is thrown exactly when
    [times < 0]. *)
Theorem repeat_outcomes fuel (w : W) this l cap p times :
  list_at w this l cap p → times ≤ INT_MAX →
  (Z.to_nat times < fuel)%nat → (length l < fuel)%nat →
  (Z.to_nat (Z.min (times * Z.of_nat (length l)) MAX_CAPACITY) < fuel)%nat →
  (times < 0 → repeat this times fuel w = Throw InvalidArgument w) ∧
  (0 ≤ times → times * Z.of_nat (length l) ≤ MAX_CAPACITY →
   ∃ w' cap' p',
     repeat this times fuel w = Ok tt w' ∧
     list_at w' this (copies (Z.to_nat times) l) cap' p' ∧
     Z.of_nat (length (copies (Z.to_nat times) l)) = times * Z.of_nat (length l) ∧
     (times = 0 → copies (Z.to_nat times) l = [])) ∧
  (0 ≤ times → times * Z.of_nat (length l) > MAX_CAPACITY →
   ∃ w', repeat this times fuel w = Throw CapacityExceeded w' ∧
         list_at w' this l cap p) ∧
  ((∃ w', repeat this times fuel w = Throw InvalidArgument w') ↔ times < 0).
Proof.
  intros Hl Hint Hf1 Hf2 Hf3.
  pose proof (repeat_spec fuel w this l cap p times Hl Hint Hf1 Hf2 Hf3) as Hwp.
  assert (times < 0 → repeat this times fuel w = Throw InvalidArgument w) as Hneg.
  { intros Hlt. unfold repeat. by rewrite decide_True. }
  split; [done|]. split; [|split].
  - intros Hpos Hfit.
    destruct (wp_returns _ _ _ _ _ Hwp) as ([] & w' & Hrun & _ & _ & c' & p' & Hup & Hc').
    { intros e w' [(_ & ? & _)|(_ & _ & ? & _)]; lia. }
    exists w', c', p'. split; [done|]. split; [by eapply updated_list_at|].
    split; [rewrite length_copies; lia|]. by intros ->.
  - intros Hpos Hover.
    destruct (wp_throws _ _ _ _ _ Hwp) as (e & w' & Hrun & [(_ & ? & _)|(-> & _ & _ & Ho & Hh)]);
      [|lia|].
    { intros [] w' (_ & ? & _). lia. }
    exists w'. split; [done|]. destruct Hl as [Hobj (junk & Hb & Hlen) Hcap].
    split; [by rewrite Ho| |done]. exists junk. by rewrite Hh.
  - split; [|intros Hlt; exists w; by apply Hneg].
    intros (w' & Hrun). unfold wp in Hwp. rewrite Hrun in Hwp.
    by destruct Hwp as [(_ & ? & _)|(? & _)].
Qed.

(** ** C8: sort *)

(** C8.  For a comparator that is a strict weak ordering ([comparator a b]
    holds iff [a] must precede [b]), [sort] returns and leaves in the same
    buffer a permutation of the original contents that is sorted under the
    comparator (no element must precede an earlier one) and in which the
    elements that compare equal keep their original relative order. *)
Theorem sort_sorted_and_stable (cmp : T → T → bool) fuel (w : W) this l cap p :
  strict_weak cmp → list_at w this l cap p → (length l < fuel)%nat →
  ∃ w' l',
    sort this cmp fuel w = Ok tt w' ∧
    list_at w' this l' cap p ∧
    l' ≡ₚ l ∧
    sorted_by cmp l' ∧
    stable cmp l l'.
Proof.
  intros Hcmp Hl Hfuel.
  destruct (wp_returns _ _ _ _ _ (sort_spec cmp fuel w this l cap p no_throw Hcmp Hl Hfuel))
    as ([] & w' & Hrun & l' & Hup & _ & Hex & Hsorted); [by intros ? ? []|].
  exists w', l'. split; [done|].
  split; [eapply updated_list_at; [done|by destruct Hl]|].
  split; [by eapply exchanges_perm|]. split; [done|by apply exchanges_stable].
Qed.

(** ** The class invariant *)

(** The constructor from an initializer list of INT_MAX elements. *)
Lemma List_of_too_long (il : list T) fuel :
  Z.of_nat (length il) = INT_MAX → (length il < fuel)%nat →
  ∃ w', List_of il fuel empty_world = Ok 1%positive w' ∧
        objs w' !! 1%positive = Some (mkList INT_MAX INT_MAX 1%positive) ∧
        ¬ world_ok w'.
Proof.
  intros Hlen Hfuel.
  destruct (wp_returns _ _ _ _ _
              (List_of_spec fuel empty_world il no_throw ltac:(lia) Hfuel))
    as (a & w' & Hrun & -> & _ & junk & _ & _ & Ho & _); [by intros ? ? []|].
  rewrite Hlen in Ho.
  replace (Z.max INT_MAX INIT_CAPACITY) with INT_MAX in Ho
    by (unfold INT_MAX, INIT_CAPACITY; lia).
  assert (objs w' !! 1%positive = Some (mkList INT_MAX INT_MAX 1%positive)) as Hobj.
  { rewrite Ho. apply lookup_insert_eq. }
  exists w'. split; [exact Hrun|]. split; [exact Hobj|].
  intros Hok. destruct (Hok _ _ Hobj) as (_ & _ & Hcap & _).
  revert Hcap. unfold MAX_CAPACITY. cbn [capacity_]. lia.
Qed.

(** A list built by the initializer-list constructor satisfies the
    invariant. *)
Lemma world_with_ok (il : list T) :
  Z.of_nat (length il) ≤ MAX_CAPACITY → world_ok (world_with il).
Proof.
  intros Hlen. destruct (world_with_created il) as [_ Hrun]; [int_lia|].
  assert (ok_at 0 (@empty_world T)) as Hok.
  { split; [|done]. intros a o Ha. unfold empty_world in Ha. simpl in Ha.
    by rewrite lookup_empty in Ha. }
  pose proof (keeps_List_of 0 il Hlen (S (length il)) empty_world Hok) as Hwp.
  unfold wp in Hwp. rewrite Hrun in Hwp. by destruct Hwp.
Qed.

(** X3.  Every operation keeps the invariant — every constructor, the
    destructor, every member function and operator, and the non-member
    operator* — a constructor from an initializer list being given at most
    MAX_CAPACITY elements and traverse an action that keeps the invariant:
    whenever a call returns or throws from a store in which every list
    satisfies [0 ≤ size ≤ capacity ≤ MAX_CAPACITY] and [0 < capacity], every
    list of the store it leaves does. *)
Theorem operations_keep_invariant (c : call) fuel (w : W) :
  call_fits world_ok c → world_ok w →
  match run_call c fuel w with
  | Ok _ w' | Throw _ w' => world_ok w'
  | Fault _ | OutOfFuel => True
  end.
Proof.
  intros Hfit Hok. pose proof (keeps_call c Hfit fuel w Hok) as Hwp.
  unfold wp in Hwp. by destruct (run_call c fuel w).
Qed.

(** ** find *)

(** X1.  From a start that is not negative, [find] returns the first position of
    the element at or after [start] and before both [stop] and the length,
    or -1 when there is none; it throws nothing and leaves the store as it
    was, and [contains] tells whether that result is not -1. *)
Theorem find_from_valid_start fuel (w : W) this l cap p element x start stop :
  list_at w this l cap p → ref_val w element x →
  0 ≤ start → (length l < fuel)%nat →
  ∃ r, find this element start stop fuel w = Ok r w ∧
       find_result l x start stop r ∧
       contains this element start stop fuel w = Ok (bool_decide (r ≠ -1)) w.
Proof.
  intros Hl Hx Hstart Hfuel.
  destruct (wp_returns _ _ _ _ _
              (find_spec fuel w this l cap p element x start stop no_throw
                 Hl Hx Hstart Hfuel))
    as (r & w' & Hrun & -> & Hres); [by intros ? ? []|].
  exists r. split; [done|]. split; [done|].
  unfold contains, bind. by rewrite Hrun.
Qed.

(** X2.  From a negative start below both [stop] and the length, [find] reads
    the buffer at a negative subscript. *)
Theorem find_from_negative_start fuel (w : W) this l cap p element start stop :
  list_at w this l cap p →
  start < 0 → start < stop → start < Z.of_nat (length l) → (0 < fuel)%nat →
  find this element start stop fuel w = Fault OutOfBounds.
Proof. apply find_negative_start. Qed.

End Statements.

(** * The statements on concrete lists *)

(** Hypotheses on a concrete store are settled by evaluation. *)
Ltac concrete_list junk :=
  split;
  [vm_compute; reflexivity
  |exists junk; split; vm_compute; reflexivity
  |unfold MAX_CAPACITY, INT_MAX; lia].

(** ** C1 *)

Lemma concatenate_self_doubles_witness :
  list_at (world_with [1; 2; 3]) 1%positive [1; 2; 3] 4 1%positive ∧
  (Z.to_nat (Z.min (2 * Z.of_nat (length [1; 2; 3])) MAX_CAPACITY) < 10)%nat ∧
  2 * Z.of_nat (length [1; 2; 3]) ≤ MAX_CAPACITY ∧
  ∃ w' cap' p',
    concatenate 1%positive 1%positive 10%nat (world_with [1; 2; 3]) = Ok tt w' ∧
    list_at w' 1%positive [1; 2; 3; 1; 2; 3] cap' p'.
Proof.
  assert (list_at (world_with [1; 2; 3]) 1%positive [1; 2; 3] 4 1%positive) as Hl
    by concrete_list [@None Z].
  split; [exact Hl|].
  split; [unfold MAX_CAPACITY, INT_MAX; simpl; lia|].
  split; [unfold MAX_CAPACITY, INT_MAX; simpl; lia|].
  destruct (concatenate_self_doubles 10%nat _ _ _ _ _ Hl) as [Hok _];
    [unfold MAX_CAPACITY, INT_MAX; simpl; lia|].
  destruct Hok as (w' & cap' & p' & Hrun & Hl' & _);
    [unfold MAX_CAPACITY, INT_MAX; simpl; lia|].
  exists w', cap', p'. split; [exact Hrun|exact Hl'].
Defined.

(** A list of 2^30 elements concatenated with itself: 2^31 elements do not
    fit, and CapacityExceeded is thrown. *)
Lemma concatenate_self_overflow_counterexample :
  ∃ w', concatenate 1%positive 1%positive (S (Z.to_nat MAX_CAPACITY))
          (world_with (replicate (Z.to_nat 1073741824) tt))
        = Throw CapacityExceeded w'.
Proof.
  eapply concatenate_self_too_long.
  - apply world_with_list_at. rewrite length_replicate. int_lia.
  - rewrite length_replicate. int_lia.
  - lia.
Qed.

(** ** C2 *)

(** C2.  [c.insert(0, c[3])] on the list [1, 2, 3, 4], whose length equals
    its capacity 4: operator[] returns a reference to slot 3 of the buffer;
    insert expands the capacity, which releases that buffer, and then reads
    the element to place through the reference.  The call reads freed
    storage, where the statement promises one expansion and then the
    insertion.  [c += c[3]] does the same. *)
Theorem insert_reads_freed_buffer :
  list_at (world_with [1; 2; 3; 4]) 1%positive [1; 2; 3; 4] 4 1%positive ∧
  4 < MAX_CAPACITY ∧
  subscript 1%positive 3 10%nat (world_with [1; 2; 3; 4])
    = Ok (Slot 1%positive 3) (world_with [1; 2; 3; 4]) ∧
  insert 1%positive 0 (Slot 1%positive 3) 10%nat (world_with [1; 2; 3; 4])
    = Fault Dangling ∧
  append 1%positive (Slot 1%positive 3) 10%nat (world_with [1; 2; 3; 4])
    = Fault Dangling.
Proof.
  split; [concrete_list (@nil (option Z))|].
  split; [unfold MAX_CAPACITY, INT_MAX; lia|].
  repeat split; vm_compute; reflexivity.
Qed.

Lemma expansion_only_on_full_insert_witness :
  list_at (world_with [1; 2; 3; 4]) 1%positive [1; 2; 3; 4] 4 1%positive ∧
  (∃ w' p',
     insert 1%positive 4 (Val 5) 10%nat (world_with [1; 2; 3; 4]) = Ok tt w' ∧
     expansions w' = 1%nat ∧
     list_at w' 1%positive [1; 2; 3; 4; 5] 8 p') ∧
  list_at (world_with [1; 2; 3]) 1%positive [1; 2; 3] 4 1%positive ∧
  (∃ w',
     insert 1%positive 0 (Val 5) 10%nat (world_with [1; 2; 3]) = Ok tt w' ∧
     expansions w' = 0%nat ∧
     list_at w' 1%positive [5; 1; 2; 3] 4 1%positive) ∧
  ok_at 0 (world_with [1; 2; 3]) ∧
  (∃ w',
     run_call (CallRemove 1%positive 0) 10%nat (world_with [1; 2; 3]) = Ok tt w' ∧
     expansions w' = 0%nat).
Proof.
  assert (list_at (world_with [1; 2; 3; 4]) 1%positive [1; 2; 3; 4] 4 1%positive) as Hfull
    by concrete_list (@nil (option Z)).
  assert (list_at (world_with [1; 2; 3]) 1%positive [1; 2; 3] 4 1%positive) as Hroom
    by concrete_list [@None Z].
  assert (ok_at 0 (world_with [1; 2; 3])) as Hok.
  { split; [|vm_compute; reflexivity].
    apply world_with_ok. unfold MAX_CAPACITY, INT_MAX. simpl. lia. }
  split; [exact Hfull|]. split; [|split; [exact Hroom|split; [|split; [exact Hok|]]]].
  - destruct (proj1 expansion_only_on_full_insert 10%nat _ 1%positive [1; 2; 3; 4] 4
                1%positive 4 (Val 5) 5 Hfull)
      as (w' & p' & Hrun & Hexp & Hl');
      [reflexivity|unfold MAX_CAPACITY, INT_MAX; lia|reflexivity|simpl; lia|simpl; lia|].
    exists w', p'. split; [exact Hrun|]. split; [exact Hexp|exact Hl'].
  - destruct (proj1 (proj2 expansion_only_on_full_insert) 10%nat _ 1%positive [1; 2; 3] 4
                1%positive 0 (Val 5) 5 Hroom)
      as (w' & Hrun & Hexp & Hl');
      [simpl; lia|reflexivity|simpl; lia|simpl; lia|].
    exists w'. split; [exact Hrun|]. split; [exact Hexp|exact Hl'].
  - pose proof (proj2 (proj2 expansion_only_on_full_insert) (CallRemove 1%positive 0)
                  0%nat 10%nat (world_with [1; 2; 3]) eq_refl I Hok) as Hquiet.
    destruct (run_call (CallRemove 1%positive 0) 10%nat (world_with [1; 2; 3]))
      as [[] w'|e w'|f|] eqn:Hrun; try (vm_compute in Hrun; discriminate Hrun).
    exists w'. split; [reflexivity|exact Hquiet].
Defined.

(** ** C3 *)

Lemma uniquify_keeps_last_occurrences_witness :
  list_at (world_with [5; 3; 3; 1; 4]) 1%positive [5; 3; 3; 1; 4] 5 1%positive ∧
  (length [5; 3; 3; 1; 4] < 10)%nat ∧
  ∃ w', uniquify 1%positive 10%nat (world_with [5; 3; 3; 1; 4]) = Ok tt w' ∧
        list_at w' 1%positive [5; 3; 1; 4] 5 1%positive.
Proof.
  assert (list_at (world_with [5; 3; 3; 1; 4]) 1%positive [5; 3; 3; 1; 4] 5 1%positive)
    as Hl by concrete_list (@nil (option Z)).
  split; [exact Hl|]. split; [simpl; lia|].
  destruct (uniquify_keeps_last_occurrences 10%nat _ 1%positive [5; 3; 3; 1; 4] 5
              1%positive Hl)
    as (w' & Hrun & Hl' & _); [simpl; lia|].
  exists w'. split; [exact Hrun|exact Hl'].
Defined.

(** [1, 2, 1] becomes [2, 1]: the 1 stays at its last occurrence, whereas
    first-seen order is [1, 2]. *)
Lemma uniquify_first_seen_counterexample :
  ∃ w', uniquify 1%positive 10%nat (world_with [1; 2; 1]) = Ok tt w' ∧
        list_at w' 1%positive [2; 1] 4 1%positive ∧
        keep_first [1; 2; 1] = [1; 2].
Proof.
  eexists. split; [vm_compute; reflexivity|]. split; [|reflexivity].
  concrete_list [Some 1; @None Z].
Qed.

(** ** C4 *)

Lemma clear_resets_and_remove_keeps_capacity_witness :
  list_at (world_with [1; 2; 3; 4; 5]) 1%positive [1; 2; 3; 4; 5] 5 1%positive ∧
  (∃ w' p',
     clear 1%positive 10%nat (world_with [1; 2; 3; 4; 5]) = Ok tt w' ∧
     list_at w' 1%positive [] INIT_CAPACITY p') ∧
  (∃ x w',
     remove 1%positive (-1) 10%nat (world_with [1; 2; 3; 4; 5]) = Ok x w' ∧
     [1; 2; 3; 4; 5] !! 4%nat = Some x ∧
     list_at w' 1%positive [1; 2; 3; 4] 5 1%positive).
Proof.
  assert (list_at (world_with [1; 2; 3; 4; 5]) 1%positive [1; 2; 3; 4; 5] 5 1%positive)
    as Hl by concrete_list (@nil (option Z)).
  split; [exact Hl|]. split.
  - destruct (proj1 clear_resets_and_remove_keeps_capacity 10%nat _ 1%positive
                [1; 2; 3; 4; 5] 5 1%positive Hl)
      as (w' & p' & Hrun & Hl' & _); [discriminate|].
    exists w', p'. split; [exact Hrun|exact Hl'].
  - destruct (proj2 (proj2 clear_resets_and_remove_keeps_capacity) 10%nat _ 1%positive
                [1; 2; 3; 4; 5] 5 1%positive (-1) Hl)
      as (x & w' & Hrun & Hx & Hl'); [simpl; lia|simpl; lia|].
    exists x, w'. split; [exact Hrun|]. split; [exact Hx|exact Hl'].
Defined.

(** A list of five elements, emptied by five calls of remove and then
    cleared, still has capacity 5, not the initial capacity. *)
Lemma clear_on_emptied_list_counterexample :
  ∃ w', (remove 1%positive 0 ;;; remove 1%positive 0 ;;; remove 1%positive 0 ;;;
         remove 1%positive 0 ;;; remove 1%positive 0 ;;; clear 1%positive)
          10%nat (world_with [1; 2; 3; 4; 5]) = Ok tt w' ∧
        list_at w' 1%positive [] 5 1%positive ∧
        INIT_CAPACITY = 4.
Proof.
  eexists. split; [vm_compute; reflexivity|]. split; [|reflexivity].
  concrete_list [Some 5; Some 5; Some 5; Some 5; Some 5].
Qed.

(** ** C5 *)

Lemma slice_whole_list_and_bounds_witness :
  list_at (world_with [1; 2; 3]) 1%positive [1; 2; 3] 4 1%positive ∧
  (∃ a w' ca qa,
     slice 1%positive 0 3 1 10%nat (world_with [1; 2; 3]) = Ok a w' ∧
     list_at w' a [1; 2; 3] ca qa ∧
     list_at w' 1%positive [1; 2; 3] 4 1%positive ∧
     equal 1%positive a 10%nat w' = Ok true w') ∧
  (∃ a w' ca qa,
     slice 1%positive (-1) (-4) (-1) 10%nat (world_with [1; 2; 3]) = Ok a w' ∧
     list_at w' a [3; 2; 1] ca qa).
Proof.
  assert (list_at (world_with [1; 2; 3]) 1%positive [1; 2; 3] 4 1%positive) as Hl
    by concrete_list [@None Z].
  split; [exact Hl|]. split.
  - destruct (proj1 slice_whole_list_and_bounds 10%nat _ 1%positive [1; 2; 3] 4
                1%positive Hl)
      as (a & w' & ca & qa & Hrun & _ & Hla & Hlthis & Heq); [discriminate|simpl; lia|].
    exists a, w', ca, qa. split; [exact Hrun|]. split; [exact Hla|].
    split; [exact Hlthis|exact Heq].
  - destruct (proj1 (proj2 slice_whole_list_and_bounds 10%nat _ 1%positive [1; 2; 3] 4
                       1%positive (-1) (-4) (-1) Hl
                       ltac:(lia) ltac:(unfold INT_MIN, INT_MAX; lia)
                       ltac:(unfold INT_MAX; simpl; lia) ltac:(simpl; lia)))
      as (a & w' & ca & qa & Hrun & _ & Hla & _); [simpl; lia|].
    exists a, w', ca, qa. split; [exact Hrun|exact Hla].
Defined.

(** The empty list refuses [slice(0, 0, 1)]; a list of three elements
    refuses the start 3 = length and the stop 4 = length + 1. *)
Lemma slice_bounds_counterexample :
  slice 1%positive 0 0 1 10%nat (world_with (@nil Z))
    = Throw IndexOutOfRange (world_with (@nil Z)) ∧
  slice 1%positive 3 3 1 10%nat (world_with [1; 2; 3])
    = Throw IndexOutOfRange (world_with [1; 2; 3]) ∧
  slice 1%positive 0 4 1 10%nat (world_with [1; 2; 3])
    = Throw IndexOutOfRange (world_with [1; 2; 3]).
Proof. repeat split; vm_compute; reflexivity. Qed.

(** ** C6 *)

(** C6.  The code does not clamp [start]: on the list [1, 2, 3],
    [find(3, -1, 3)] reads the buffer at subscript -1, outside the storage
    of the list. *)
Theorem find_negative_start_out_of_bounds :
  find 1%positive (Val 3) (-1) 3 10%nat (world_with [1; 2; 3]) = Fault OutOfBounds ∧
  contains 1%positive (Val 3) (-1) 3 10%nat (world_with [1; 2; 3]) = Fault OutOfBounds ∧
  find 1%positive (Val 3) (-1) 3 10%nat (world_with (@nil Z)) = Fault OutOfBounds.
Proof. repeat split; vm_compute; reflexivity. Qed.

Lemma find_from_valid_start_witness :
  list_at (world_with [1; 2; 3]) 1%positive [1; 2; 3] 4 1%positive ∧
  ∃ r, find 1%positive (Val 2) 0 100 10%nat (world_with [1; 2; 3])
         = Ok r (world_with [1; 2; 3]) ∧
       find_result [1; 2; 3] 2 0 100 r.
Proof.
  assert (list_at (world_with [1; 2; 3]) 1%positive [1; 2; 3] 4 1%positive) as Hl
    by concrete_list [@None Z].
  split; [exact Hl|].
  destruct (find_from_valid_start 10%nat _ 1%positive [1; 2; 3] 4 1%positive (Val 2) 2
              0 100 Hl)
    as (r & Hrun & Hres & _); [reflexivity|lia|simpl; lia|].
  exists r. split; [exact Hrun|exact Hres].
Defined.

Lemma find_from_negative_start_witness :
  list_at (world_with [1; 2; 3]) 1%positive [1; 2; 3] 4 1%positive ∧
  find 1%positive (Val 3) (-1) 3 10%nat (world_with [1; 2; 3]) = Fault OutOfBounds.
Proof.
  assert (list_at (world_with [1; 2; 3]) 1%positive [1; 2; 3] 4 1%positive) as Hl
    by concrete_list [@None Z].
  split; [exact Hl|].
  apply (find_from_negative_start 10%nat _ 1%positive [1; 2; 3] 4 1%positive (Val 3)
           (-1) 3 Hl); simpl; lia.
Defined.

(** ** C7 *)

Lemma repeat_outcomes_witness :
  list_at (world_with [1; 2; 3]) 1%positive [1; 2; 3] 4 1%positive ∧
  (∃ w' cap' p',
     repeat 1%positive 2 10%nat (world_with [1; 2; 3]) = Ok tt w' ∧
     list_at w' 1%positive [1; 2; 3; 1; 2; 3] cap' p') ∧
  (∃ w' cap' p',
     repeat 1%positive 0 10%nat (world_with [1; 2; 3]) = Ok tt w' ∧
     list_at w' 1%positive [] cap' p') ∧
  repeat 1%positive (-1) 10%nat (world_with [1; 2; 3])
    = Throw InvalidArgument (world_with [1; 2; 3]).
Proof.
  assert (list_at (world_with [1; 2; 3]) 1%positive [1; 2; 3] 4 1%positive) as Hl
    by concrete_list [@None Z].
  split; [exact Hl|]. split; [|split].
  - destruct (repeat_outcomes 10%nat _ 1%positive [1; 2; 3] 4 1%positive 2 Hl)
      as (_ & Hok & _);
      [unfold INT_MAX; lia|simpl; lia|simpl; lia|unfold MAX_CAPACITY, INT_MAX; simpl; lia|].
    destruct Hok as (w' & cap' & p' & Hrun & Hl' & _);
      [lia|unfold MAX_CAPACITY, INT_MAX; simpl; lia|].
    exists w', cap', p'. split; [exact Hrun|exact Hl'].
  - destruct (repeat_outcomes 10%nat _ 1%positive [1; 2; 3] 4 1%positive 0 Hl)
      as (_ & Hok & _);
      [unfold INT_MAX; lia|simpl; lia|simpl; lia|unfold MAX_CAPACITY, INT_MAX; simpl; lia|].
    destruct Hok as (w' & cap' & p' & Hrun & Hl' & _);
      [lia|unfold MAX_CAPACITY, INT_MAX; simpl; lia|].
    exists w', cap', p'. split; [exact Hrun|exact Hl'].
  - destruct (repeat_outcomes 10%nat _ 1%positive [1; 2; 3] 4 1%positive (-1) Hl)
      as (Hneg & _);
      [unfold INT_MAX; lia|simpl; lia|simpl; lia|unfold MAX_CAPACITY, INT_MAX; simpl; lia|].
    apply Hneg. lia.
Defined.

(** The list [1, 2] repeated 2^30 times: 2^31 elements do not fit, and
    CapacityExceeded is thrown although [times ≥ 0]. *)
Lemma repeat_capacity_counterexample :
  0 ≤ 1073741824 ≤ INT_MAX ∧
  ∃ w', repeat 1%positive 1073741824 (S (Z.to_nat MAX_CAPACITY)) (world_with [1; 2])
          = Throw CapacityExceeded w' ∧
        list_at w' 1%positive [1; 2] 4 1%positive.
Proof.
  split; [unfold INT_MAX; lia|].
  assert (list_at (world_with [1; 2]) 1%positive [1; 2] 4 1%positive) as Hl
    by concrete_list [@None Z; @None Z].
  eapply repeat_too_long.
  - exact Hl.
  - lia.
  - unfold INT_MAX; lia.
  - unfold MAX_CAPACITY, INT_MAX. cbn [length]. lia.
  - unfold MAX_CAPACITY, INT_MAX. lia.
  - unfold MAX_CAPACITY, INT_MAX. cbn [length]. lia.
  - lia.
Qed.

(** ** C8 *)

Lemma less_strict_weak : strict_weak Z.ltb.
Proof. split; intros; lia. Qed.

Lemma sort_sorted_and_stable_witness :
  strict_weak Z.ltb ∧
  list_at (world_with [3; 1; 2]) 1%positive [3; 1; 2] 4 1%positive ∧
  (length [3; 1; 2] < 10)%nat ∧
  ∃ w' l',
    sort 1%positive Z.ltb 10%nat (world_with [3; 1; 2]) = Ok tt w' ∧
    list_at w' 1%positive l' 4 1%positive ∧
    l' ≡ₚ [3; 1; 2] ∧
    (∀ k k' a b, (k < k')%nat → l' !! k = Some a → l' !! k' = Some b → a ≤ b) ∧
    stable Z.ltb [3; 1; 2] l'.
Proof.
  assert (list_at (world_with [3; 1; 2]) 1%positive [3; 1; 2] 4 1%positive) as Hl
    by concrete_list [@None Z].
  split; [exact less_strict_weak|]. split; [exact Hl|]. split; [simpl; lia|].
  destruct (sort_sorted_and_stable Z.ltb 10%nat _ 1%positive [3; 1; 2] 4 1%positive
              less_strict_weak Hl)
    as (w' & l' & Hrun & Hl' & Hperm & Hsorted & Hstable); [simpl; lia|].
  exists w', l'. split; [exact Hrun|]. split; [exact Hl'|]. split; [exact Hperm|].
  split; [|exact Hstable].
  intros k k' a b Hk Ha Hb.
  pose proof (Hsorted k k' a b Hk ltac:(lia) Ha Hb) as Hba. lia.
Defined.

(** ** C9 *)

(** C9.  The constructor from an initializer list takes the capacity from
    the number of elements without comparing it with MAX_CAPACITY: given
    INT_MAX = MAX_CAPACITY + 1 elements it builds a list of capacity
    INT_MAX, which breaks [capacity ≤ MAX_CAPACITY]. *)
Theorem initializer_list_breaks_capacity_bound :
  world_ok (@empty_world unit) ∧
  MAX_CAPACITY < INT_MAX ∧
  ∃ w', List_of (replicate (Z.to_nat INT_MAX) tt) (S (Z.to_nat INT_MAX)) empty_world
          = Ok 1%positive w' ∧
        objs w' !! 1%positive = Some (mkList INT_MAX INT_MAX 1%positive) ∧
        ¬ world_ok w'.
Proof.
  split; [intros a o Ha; unfold empty_world in Ha; simpl in Ha; by rewrite lookup_empty in Ha|].
  split; [unfold MAX_CAPACITY; lia|].
  apply List_of_too_long.
  - rewrite length_replicate. unfold INT_MAX. lia.
  - rewrite length_replicate. lia.
Qed.

Lemma operations_keep_invariant_witness :
  call_fits world_ok (CallInsert 1%positive 4 (Val 5)) ∧
  world_ok (world_with [1; 2; 3; 4]) ∧
  ∃ w', run_call (CallInsert 1%positive 4 (Val 5)) 10%nat (world_with [1; 2; 3; 4])
          = Ok tt w' ∧
        objs w' !! 1%positive = Some (mkList 5 8 2%positive) ∧
        world_ok w'.
Proof.
  assert (world_ok (world_with [1; 2; 3; 4])) as Hok
    by (apply world_with_ok; unfold MAX_CAPACITY, INT_MAX; simpl; lia).
  split; [exact I|]. split; [exact Hok|].
  pose proof (operations_keep_invariant (CallInsert 1%positive 4 (Val 5)) 10%nat
                (world_with [1; 2; 3; 4]) I Hok) as Hkeep.
  destruct (run_call (CallInsert 1%positive 4 (Val 5)) 10%nat (world_with [1; 2; 3; 4]))
    as [[] w'|e w'|f|] eqn:Hrun; try (vm_compute in Hrun; discriminate Hrun).
  exists w'. split; [reflexivity|]. split; [|exact Hkeep].
  vm_compute in Hrun. injection Hrun as <-. vm_compute. reflexivity.
Defined.

(** * Element access, and what insert and remove refuse *)

Section Access.
Context {T : Type} `{EqDecision T}.
Local Abbreviation buffer := (list (option T)) (only parsing).
Local Abbreviation W := (@world T) (only parsing).
Local Abbreviation M' := (M (@world T)) (only parsing).

Lemma wp_throws_exactly {A} (m : M' A) fuel (w : W) e0 :
  wp true m fuel w (λ _ _, False) (λ e w', e = e0 ∧ w' = w) →
  m fuel w = Throw e0 w.
Proof.
  unfold wp. destruct (m fuel w) as [a w'|e w'| |]; try done.
  by intros [-> ->].
Qed.

Lemma wp_returns_exactly {A} (m : M' A) fuel (w : W) a0 w0 :
  wp true m fuel w (λ a w', a = a0 ∧ w' = w0) no_throw →
  m fuel w = Ok a0 w0.
Proof.
  unfold wp. destruct (m fuel w) as [a w'|e w'| |]; try done.
  by intros [-> ->].
Qed.

Lemma resolve_lt (index : Z) (len : nat) :
  - Z.of_nat len ≤ index < Z.of_nat len → (resolve index len < len)%nat.
Proof. intros Hi. unfold resolve. case_decide; lia. Qed.

Lemma resolve_le (index : Z) (len : nat) :
  - Z.of_nat len ≤ index ≤ Z.of_nat len → (resolve index len ≤ len)%nat.
Proof. intros Hi. unfold resolve. case_decide; lia. Qed.

Lemma resolve_nat (k len : nat) : resolve (Z.of_nat k) len = k.
Proof. unfold resolve. rewrite decide_True by lia. lia. Qed.

(** ** operator[] *)

Lemma subscript_spec fuel (w : W) this l cap p index E :
  list_at w this l cap p →
  - Z.of_nat (length l) ≤ index < Z.of_nat (length l) →
  wp true (subscript this index) fuel w
    (λ r w', w' = w ∧ r = Slot p (Z.of_nat (resolve index (length l)))) E.
Proof.
  intros Hl Hidx. pose proof Hl as [Ho _ _].
  pose proof (list_at_lookup _ _ _ _ _ Hl) as [_ Hmax].
  unfold subscript.
  apply wp_bind. eapply wp_get_size; [done|]. simpl.
  apply wp_bind, wp_int; [int_lia|].
  apply wp_bind, wp_check_bounds; [lia|].
  apply wp_bind. eapply wp_get_data; [done|]. simpl.
  unfold resolve. case_decide.
  - apply wp_ret. split; [done|]. f_equal. lia.
  - apply wp_bind, wp_int; [int_lia|]. apply wp_ret. split; [done|]. f_equal. lia.
Qed.

Lemma subscript_out_of_range fuel (w : W) this l cap p index :
  list_at w this l cap p →
  ¬ (- Z.of_nat (length l) ≤ index < Z.of_nat (length l)) →
  subscript this index fuel w = Throw IndexOutOfRange w.
Proof.
  intros Hl Hidx. pose proof Hl as [Ho _ _].
  pose proof (list_at_lookup _ _ _ _ _ Hl) as [_ Hmax].
  apply wp_throws_exactly. unfold subscript.
  apply wp_bind. eapply wp_get_size; [done|]. simpl.
  apply wp_bind, wp_int; [int_lia|].
  apply wp_bind. unfold check_bounds. rewrite decide_False by done.
  by apply wp_throw.
Qed.

(** A store through a reference to the slot [k] of a list. *)
Lemma store_slot fuel (w : W) this l cap p (k : nat) y :
  list_at w this l cap p → (k < length l)%nat →
  ∃ w', store p (Z.of_nat k) y fuel w = Ok tt w' ∧
        updated w this p (<[k := y]> l) cap p w'.
Proof.
  intros [Ho (junk & Hb & Hlen) Hcap] Hk.
  exists (set_heap <[p := <[Z.to_nat (Z.of_nat k) := Some y]> ((Some <$> l) ++ junk)]> w).
  split.
  - unfold store. rewrite Hb, decide_True; [done|].
    rewrite length_app, length_fmap. lia.
  - exists junk. simpl. rewrite length_insert.
    split; [by rewrite insert_id|]. split; [|split; [done|by left]].
    rewrite insert_delete_eq, Nat2Z.id. f_equal.
    rewrite list_fmap_insert.
    by rewrite insert_app_l by (rewrite length_fmap; lia).
Qed.

(** ** What insert refuses *)

Lemma insert_out_of_range fuel (w : W) this l cap p index element :
  list_at w this l cap p →
  Z.of_nat (length l) < MAX_CAPACITY →
  ¬ (- Z.of_nat (length l) ≤ index ≤ Z.of_nat (length l)) →
  insert this index element fuel w = Throw IndexOutOfRange w.
Proof.
  intros Hl Hmax Hidx. pose proof Hl as [Ho _ _].
  apply wp_throws_exactly. unfold insert.
  apply wp_bind. eapply wp_get_size; [done|]. simpl.
  apply wp_bind, wp_check_full; [done|].
  apply wp_bind, wp_int; [int_lia|].
  apply wp_bind, wp_int; [int_lia|].
  apply wp_bind. unfold check_bounds. rewrite decide_False by lia.
  by apply wp_throw.
Qed.

Lemma insert_full fuel (w : W) this l cap p index element :
  list_at w this l cap p →
  Z.of_nat (length l) = MAX_CAPACITY →
  insert this index element fuel w = Throw CapacityExceeded w.
Proof.
  intros Hl Hfull. apply wp_throws_exactly.
  by eapply insert_full_spec.
Qed.

(** ** What remove refuses *)

Lemma remove_empty fuel (w : W) this cap p index :
  list_at w this [] cap p →
  remove this index fuel w = Throw EmptyContainer w.
Proof.
  intros [Ho _ _]. apply wp_throws_exactly. unfold remove.
  apply wp_bind. eapply wp_get_size; [done|]. simpl.
  apply wp_bind. unfold check_empty. rewrite decide_True by done.
  by apply wp_throw.
Qed.

Lemma remove_out_of_range fuel (w : W) this l cap p index :
  list_at w this l cap p → l ≠ [] →
  ¬ (- Z.of_nat (length l) ≤ index < Z.of_nat (length l)) →
  remove this index fuel w = Throw IndexOutOfRange w.
Proof.
  intros Hl Hne Hidx. pose proof Hl as [Ho _ _].
  pose proof (list_at_lookup _ _ _ _ _ Hl) as [_ Hmax].
  apply wp_throws_exactly. unfold remove.
  apply wp_bind. eapply wp_get_size; [done|]. simpl.
  apply wp_bind, wp_check_empty; [destruct l; [done|simpl; lia]|].
  apply wp_bind, wp_int; [int_lia|].
  apply wp_bind. unfold check_bounds. rewrite decide_False by done.
  by apply wp_throw.
Qed.

(** ** insert and its inverse *)

Lemma inserted_lookup (l : list T) (k : nat) x :
  (k ≤ length l)%nat → inserted k x l !! k = Some x.
Proof.
  intros Hk. unfold inserted.
  rewrite lookup_app_r by (rewrite length_take; lia).
  rewrite length_take. by replace (k - k `min` length l)%nat with 0%nat by lia.
Qed.

Lemma delete_inserted (l : list T) (k : nat) x :
  (k ≤ length l)%nat → delete k (inserted k x l) = l.
Proof.
  intros Hk. unfold inserted.
  assert (length (take k l) = k) as Hlen by (rewrite length_take; lia).
  rewrite <-Hlen at 1. rewrite delete_middle. apply take_drop.
Qed.

End Access.

(** * reverse, swap and the moves *)

(** A lookup in a map built by insertions. *)
Ltac insert_lookup :=
  simpl;
  repeat first [rewrite lookup_insert_eq | rewrite lookup_insert_ne by done];
  done.

Section Reverse.
Context {T : Type} `{EqDecision T}.
Local Abbreviation buffer := (list (option T)) (only parsing).
Local Abbreviation W := (@world T) (only parsing).
Local Abbreviation M' := (M (@world T)) (only parsing).

Lemma rev_lookup (l : list T) (i : nat) :
  (i < length l)%nat → rev l !! i = l !! (length l - S i)%nat.
Proof. intros Hi. rewrite rev_alt. by apply (reverse_lookup l i). Qed.

(** ** The exchange of two slots *)

Lemma exchanged_cells (c : list T) (junk : buffer) (i j : nat) a b :
  (i < length c)%nat → (j < length c)%nat →
  <[j := Some a]> (<[i := Some b]> ((Some <$> c) ++ junk))
  = (Some <$> <[j := a]> (<[i := b]> c)) ++ junk.
Proof.
  intros Hi Hj. rewrite !list_fmap_insert.
  rewrite insert_app_l by (rewrite length_fmap; lia).
  by rewrite insert_app_l by (rewrite length_insert, length_fmap; lia).
Qed.

Lemma wp_exchange_holding st fuel (w : W) p junk (c : list T) (i j : nat) a b
    (Q : unit → W → Prop) E :
  c !! i = Some a → c !! j = Some b →
  Q tt (holding w p junk (<[j := a]> (<[i := b]> c))) →
  wp st (swap_slots p (Z.of_nat i) (Z.of_nat j)) fuel (holding w p junk c) Q E.
Proof.
  intros Ha Hb HQ.
  assert (i < length c)%nat as Hi by (by eapply lookup_lt_Some).
  assert (j < length c)%nat as Hj by (by eapply lookup_lt_Some).
  unfold swap_slots.
  apply wp_bind. eapply wp_load_holding; [done|].
  apply wp_bind. eapply wp_load_holding; [done|].
  apply wp_bind. eapply wp_store; [simpl; by rewrite lookup_insert_eq| |].
  { rewrite length_app, length_fmap. lia. }
  eapply wp_store; [simpl; by rewrite lookup_insert_eq| |].
  { rewrite length_insert, length_app, length_fmap. lia. }
  unfold holding, set_heap in *. simpl. rewrite !insert_insert_eq, !Nat2Z.id.
  by rewrite exchanged_cells.
Qed.

(** ** reverse *)

Lemma mirrored_step (l c : list T) (k : nat) a b :
  mirrored l c k → (k < length l - 1 - k)%nat →
  c !! k = Some a → c !! (length l - 1 - k)%nat = Some b →
  mirrored l (<[(length l - 1 - k)%nat := a]> (<[k := b]> c)) (S k).
Proof.
  intros [Hlen Hc] Hk Ha Hb. split; [by rewrite !length_insert|].
  intros m Hm.
  pose proof (Hc k ltac:(lia)) as Hck. rewrite decide_False in Hck by lia.
  pose proof (Hc (length l - 1 - k)%nat ltac:(lia)) as Hcj.
  rewrite decide_False in Hcj by lia.
  destruct (decide (m = (length l - 1 - k)%nat)) as [->|Hmj].
  { rewrite list_lookup_insert_eq by (rewrite length_insert; lia).
    rewrite decide_True by lia. rewrite <-Ha, Hck. f_equal. lia. }
  rewrite list_lookup_insert_ne by done.
  destruct (decide (m = k)) as [->|Hmk].
  { rewrite list_lookup_insert_eq by lia.
    rewrite decide_True by lia. rewrite <-Hb, Hcj. f_equal. lia. }
  rewrite list_lookup_insert_ne by done. rewrite Hc by done.
  destruct (decide (m < k ∨ length l - 1 - k < m)%nat).
  - by rewrite decide_True by lia.
  - by rewrite decide_False by lia.
Qed.

Lemma mirrored_done (l c : list T) (k : nat) :
  mirrored l c k → ¬ (Z.of_nat k < Z.of_nat (length l) - 1 - Z.of_nat k) → c = rev l.
Proof.
  intros [Hlen Hc] Hk. apply list_eq. intros m.
  destruct (decide (m < length l)%nat) as [Hm|Hm].
  - rewrite Hc, rev_lookup by done. case_decide; [done|]. f_equal. lia.
  - rewrite !lookup_ge_None_2; [done|rewrite length_rev; lia|lia].
Qed.

Lemma reverse_spec fuel (w : W) this l cap p E :
  list_at w this l cap p → (length l < fuel)%nat →
  wp true (reverse this) fuel w
    (λ _ w', updated w this p (rev l) cap p w' ∧ expansions w' = expansions w) E.
Proof.
  intros Hl Hfuel. pose proof Hl as [Ho (junk & Hb & Hlen) Hcap].
  pose proof (list_at_lookup _ _ _ _ _ Hl) as [_ Hmax].
  unfold reverse.
  apply wp_bind. eapply wp_get_size; [done|]. simpl.
  apply wp_bind, wp_int; [int_lia|].
  rewrite <-(holding_id w p junk l Hb).
  apply wp_bind.
  apply (wp_loop_total
    (λ st w', ∃ (k : nat) (c : list T),
       st = (Z.of_nat k, Z.of_nat (length l) - 1 - Z.of_nat k) ∧
       (k ≤ length l)%nat ∧ mirrored l c k ∧ w' = holding w p junk c)
    _ _ fuel _ E (λ st _, (length l - Z.to_nat (fst st))%nat)).
  - intros st w' (k & c & -> & Hk & Hmir & ->). simpl.
    apply wp_ret. case_bool_decide as Hlt.
    + assert (k < length l - 1 - k)%nat as Hk' by lia.
      destruct Hmir as [Hclen Hc].
      destruct (lookup_lt_is_Some_2 c k) as [a Ha]; [lia|].
      destruct (lookup_lt_is_Some_2 c (length l - 1 - k)%nat) as [b Hbj]; [lia|].
      apply wp_bind. eapply wp_get_data; [done|]. simpl.
      apply wp_bind.
      replace (Z.of_nat (length l) - 1 - Z.of_nat k)
        with (Z.of_nat (length l - 1 - k)%nat) by lia.
      eapply wp_exchange_holding; [done|done|].
      apply wp_bind, wp_int; [int_lia|].
      apply wp_bind, wp_int; [int_lia|]. apply wp_ret.
      split; [|simpl; lia].
      exists (S k), (<[(length l - 1 - k)%nat := a]> (<[k := b]> c)).
      split; [f_equal; lia|]. split; [lia|]. split; [|done].
      by apply mirrored_step.
    + apply wp_ret. rewrite (mirrored_done l c k Hmir Hlt).
      split; [|done]. exists junk. simpl. rewrite length_rev.
      split; [by rewrite insert_id|]. split; [|split; [done|by left]].
      by rewrite insert_delete_eq, insert_insert_eq.
  - exists 0%nat, l. split; [f_equal; lia|]. split; [lia|]. split; [|done].
    split; [done|]. intros m Hm. by rewrite decide_False by lia.
  - simpl. lia.
Qed.

(** ** swap *)

Lemma swap_spec fuel (w : W) this that (o1 o2 : List_) E :
  objs w !! this = Some o1 → objs w !! that = Some o2 →
  wp true (swap this that) fuel w
    (λ _ w', w' = set_objs (λ O, <[that := o1]> (<[this := o2]> O)) w) E.
Proof.
  intros H1 H2. unfold swap.
  destruct o1 as [s1 c1 d1], o2 as [s2 c2 d2].
  destruct (decide (this = that)) as [->|Hne].
  - assert (s2 = s1 ∧ c2 = c1 ∧ d2 = d1) as (-> & -> & ->) by (split_and!; congruence).
    apply wp_bind. eapply wp_get_size; [done|]. simpl.
    apply wp_bind. eapply wp_get_size; [done|]. simpl.
    apply wp_bind. eapply wp_put_obj; [done|]. simpl.
    apply wp_bind. eapply wp_put_obj; [insert_lookup|]. simpl.
    apply wp_bind. eapply wp_get_capacity; [insert_lookup|]. simpl.
    apply wp_bind. eapply wp_get_capacity; [insert_lookup|]. simpl.
    apply wp_bind. eapply wp_put_obj; [insert_lookup|]. simpl.
    apply wp_bind. eapply wp_put_obj; [insert_lookup|]. simpl.
    apply wp_bind. eapply wp_get_data; [insert_lookup|]. simpl.
    apply wp_bind. eapply wp_get_data; [insert_lookup|]. simpl.
    apply wp_bind. eapply wp_put_obj; [insert_lookup|]. simpl.
    eapply wp_put_obj; [insert_lookup|]. simpl.
    unfold set_objs. simpl. by rewrite !insert_insert_eq.
  - assert (that ≠ this) as Hne' by done.
    apply wp_bind. eapply wp_get_size; [done|]. simpl.
    apply wp_bind. eapply wp_get_size; [done|]. simpl.
    apply wp_bind. eapply wp_put_obj; [done|]. simpl.
    apply wp_bind. eapply wp_put_obj; [insert_lookup|]. simpl.
    apply wp_bind. eapply wp_get_capacity; [insert_lookup|]. simpl.
    apply wp_bind. eapply wp_get_capacity; [insert_lookup|]. simpl.
    apply wp_bind. eapply wp_put_obj; [insert_lookup|]. simpl.
    apply wp_bind. eapply wp_put_obj; [insert_lookup|]. simpl.
    apply wp_bind. eapply wp_get_data; [insert_lookup|]. simpl.
    apply wp_bind. eapply wp_get_data; [insert_lookup|]. simpl.
    apply wp_bind. eapply wp_put_obj; [insert_lookup|]. simpl.
    eapply wp_put_obj; [insert_lookup|]. simpl.
    unfold set_objs. simpl. f_equal. apply map_eq. intros k.
    destruct (decide (k = that)) as [Hk|Hk]; [subst k|];
      [|destruct (decide (k = this)) as [Hk'|Hk']; [subst k|]];
      repeat first [rewrite lookup_insert_eq | rewrite lookup_insert_ne by done]; done.
Qed.

(** ** The move constructor and the move assignment *)

Lemma List_move_spec fuel (w : W) that (o : List_) E :
  objs w !! that = Some o →
  wp true (List_move that) fuel w
    (λ a w',
       let q := fresh (dom (heap w)) in
       a = fresh (dom (objs w)) ∧
       w' = mkWorld (<[that := mkList 0 INIT_CAPACITY q]> (<[a := o]> (objs w)))
                    (<[q := replicate (Z.to_nat INIT_CAPACITY) None]> (heap w))
                    (expansions w)) E.
Proof.
  intros Ho. unfold List_move.
  assert (that ≠ fresh (dom (objs w))) as Hne.
  { intros ->. by rewrite fresh_objs in Ho. }
  destruct o as [s c d].
  apply wp_bind. eapply wp_get_obj; [done|]. simpl.
  apply wp_bind, wp_new_obj. simpl.
  apply wp_bind. eapply wp_put_obj; [simpl; by rewrite lookup_insert_ne|]. simpl.
  apply wp_bind. eapply wp_put_obj; [simpl; by rewrite lookup_insert_eq|]. simpl.
  apply wp_bind. eapply wp_get_capacity; [simpl; by rewrite lookup_insert_eq|]. simpl.
  apply wp_bind, wp_new_array; [done|]. simpl.
  apply wp_bind. eapply wp_put_obj; [simpl; by rewrite lookup_insert_eq|]. simpl.
  apply wp_ret. split; [done|].
  unfold set_objs, set_heap. simpl. by rewrite !insert_insert_eq.
Qed.

Lemma move_assign_spec fuel (w : W) this that l1 c1 p1 (o : List_) E :
  list_at w this l1 c1 p1 → objs w !! that = Some o → this ≠ that →
  wp true (move_assign this that) fuel w
    (λ _ w',
       let q := fresh (dom (delete p1 (heap w))) in
       w' = mkWorld (<[that := mkList 0 INIT_CAPACITY q]> (<[this := o]> (objs w)))
                    (<[q := replicate (Z.to_nat INIT_CAPACITY) None]>
                       (delete p1 (heap w)))
                    (expansions w)) E.
Proof.
  intros [Ho1 (j1 & Hb1 & Hlen1) Hcap1] Ho Hne. unfold move_assign.
  rewrite decide_True by done. destruct o as [s c d].
  assert (that ≠ this) as Hne' by done.
  apply wp_bind. eapply wp_get_data; [done|]. simpl.
  apply wp_bind, wp_delete_array; [eauto|]. simpl.
  apply wp_bind. eapply wp_get_size; [insert_lookup|]. simpl.
  apply wp_bind. eapply wp_put_obj; [insert_lookup|]. simpl.
  apply wp_bind. eapply wp_get_capacity; [insert_lookup|]. simpl.
  apply wp_bind. eapply wp_put_obj; [insert_lookup|]. simpl.
  apply wp_bind. eapply wp_get_data; [insert_lookup|]. simpl.
  apply wp_bind. eapply wp_put_obj; [insert_lookup|]. simpl.
  apply wp_bind. eapply wp_put_obj; [insert_lookup|]. simpl.
  apply wp_bind. eapply wp_put_obj; [insert_lookup|]. simpl.
  apply wp_bind. eapply wp_get_capacity; [insert_lookup|]. simpl.
  apply wp_bind, wp_new_array; [done|]. simpl.
  eapply wp_put_obj; [insert_lookup|]. simpl.
  unfold set_objs, set_heap. simpl. by rewrite !insert_insert_eq.
Qed.

End Reverse.

(** * min and max *)

Section Order.
Context {T : Type} `{EqDecision T}.
Local Abbreviation buffer := (list (option T)) (only parsing).
Local Abbreviation W := (@world T) (only parsing).
Local Abbreviation M' := (M (@world T)) (only parsing).

Variable cmp : T → T → bool.
Hypothesis Hcmp : strict_weak cmp.

Lemma strict_weak_irrefl a : cmp a a = false.
Proof.
  destruct (cmp a a) eqn:Haa; [|done].
  by rewrite (sw_asym cmp Hcmp a a Haa) in Haa.
Qed.

(** An element that is beyond [x] is beyond all that [x] is not beyond. *)
Lemma strict_weak_beyond s x y :
  cmp s x = true → cmp s y = false → cmp x y = false.
Proof.
  intros Hsx Hsy. destruct (cmp y x) eqn:Hyx.
  - by apply (sw_asym cmp Hcmp).
  - by rewrite (sw_trans cmp Hcmp x y s Hyx Hsy) in Hsx.
Qed.

Lemma min_spec fuel (w : W) this l cap p E :
  list_at w this l cap p → l ≠ [] → (length l < fuel)%nat →
  wp true (min cmp this) fuel w
    (λ r w', w' = w ∧ ∃ j : nat,
       l !! j = Some r ∧
       (∀ y, y ∈ l → cmp r y = false) ∧
       (∀ (m : nat) y, (m < j)%nat → l !! m = Some y → cmp y r = true)) E.
Proof.
  intros Hl Hne Hfuel. pose proof Hl as [Ho (junk & Hb & Hlen) Hcap].
  pose proof (list_at_lookup _ _ _ _ _ Hl) as [_ Hmax].
  destruct l as [|x0 l0] eqn:El; [done|]. rewrite <-El in *.
  assert (l !! 0%nat = Some x0) as Hx0 by (by rewrite El).
  assert (0 < length l)%nat as Hpos by (rewrite El; simpl; lia).
  unfold min.
  apply wp_bind. eapply wp_get_size; [done|]. simpl.
  apply wp_bind, wp_check_empty; [lia|].
  apply wp_bind. eapply wp_get_data; [done|]. simpl.
  apply wp_bind. eapply wp_load with (x := x0); [done|lia| |].
  { by apply cells_lookup. }
  eapply wp_seq with (Q1 := λ r w',
    w' = w ∧ ∃ s (j : nat), r = Next (Z.of_nat (length l), s) ∧ l !! j = Some s ∧
      (∀ y, y ∈ l → cmp s y = false) ∧
      (∀ (m : nat) y, (m < j)%nat → l !! m = Some y → cmp y s = true)).
  - apply (wp_loop_total
      (λ st w', ∃ (k : nat) s (j : nat), st = (Z.of_nat k, s) ∧ (k ≤ length l)%nat ∧
         l !! j = Some s ∧
         (∀ (m : nat) y, (m < k)%nat → l !! m = Some y → cmp s y = false) ∧
         (∀ (m : nat) y, (m < j)%nat → l !! m = Some y → cmp y s = true) ∧
         (j ≤ k)%nat ∧ w' = w)
      _ _ fuel _ E (λ st _, (length l - Z.to_nat (fst st))%nat)).
    + intros st w' (k & s & j & -> & Hk & Hs & Hleast & Hfirst & Hjk & ->). simpl.
      apply wp_bind. eapply wp_get_size; [done|]. apply wp_ret. simpl.
      case_bool_decide as Hlt.
      * destruct (lookup_lt_is_Some_2 l k) as [x Hx]; [lia|].
        apply wp_bind. eapply wp_get_data; [done|]. simpl.
        apply wp_bind. eapply wp_load with (x := x); [done|lia| |].
        { rewrite Nat2Z.id. by apply cells_lookup. }
        destruct (cmp s x) eqn:Hsx.
        -- apply wp_bind. apply wp_bind. eapply wp_get_data; [done|]. simpl.
           eapply wp_load with (x := x); [done|lia| |].
           { rewrite Nat2Z.id. by apply cells_lookup. }
           apply wp_bind, wp_int; [int_lia|]. apply wp_ret.
           split; [|simpl; lia]. exists (S k), x, k.
           split; [f_equal; lia|]. split; [lia|]. split; [done|].
           split; [|split; [|split; [lia|done]]].
           ++ intros m y Hm Hy. destruct (decide (m = k)) as [->|Hmk].
              ** assert (y = x) as -> by congruence. apply strict_weak_irrefl.
              ** apply (strict_weak_beyond s); [done|]. apply (Hleast m); [lia|done].
           ++ intros m y Hm Hy. destruct (cmp y x) eqn:Hyx; [done|].
              pose proof (Hleast m y Hm Hy) as Hsy.
              by rewrite (sw_trans cmp Hcmp x y s Hyx Hsy) in Hsx.
        -- apply wp_bind, wp_ret.
           apply wp_bind, wp_int; [int_lia|]. apply wp_ret.
           split; [|simpl; lia]. exists (S k), s, j.
           split; [f_equal; lia|]. split; [lia|]. split; [done|].
           split; [|split; [done|split; [lia|done]]].
           intros m y Hm Hy. destruct (decide (m = k)) as [->|Hmk].
           ++ by assert (y = x) as -> by congruence.
           ++ apply (Hleast m); [lia|done].
      * split; [done|]. assert (k = length l) as -> by lia.
        exists s, j. split; [done|]. split; [done|]. split; [|done].
        intros y [m Hy]%list_elem_of_lookup_1.
        apply (Hleast m); [by eapply lookup_lt_Some|done].
    + exists 0%nat, x0, 0%nat. split; [done|]. split; [lia|]. split; [done|].
      split; [intros; lia|]. split; [intros; lia|]. split; [lia|done].
    + simpl. lia.
  - intros r w' (-> & s & j & -> & Hs & Hleast & Hfirst). apply wp_ret.
    split; [done|]. by exists j.
Qed.

Lemma min_empty fuel (w : W) this cap p :
  list_at w this [] cap p → min cmp this fuel w = Throw EmptyContainer w.
Proof.
  intros [Ho _ _]. apply wp_throws_exactly. unfold min.
  apply wp_bind. eapply wp_get_size; [done|]. simpl.
  apply wp_bind. unfold check_empty. rewrite decide_True by done.
  by apply wp_throw.
Qed.

End Order.

(** * The operators that produce a new list *)

Section Produce.
Context {T : Type} `{EqDecision T}.
Local Abbreviation buffer := (list (option T)) (only parsing).
Local Abbreviation W := (@world T) (only parsing).
Local Abbreviation M' := (M (@world T)) (only parsing).

(** The copy that is returned outlives the local it was made from. *)
Lemma created_copy_dropped (w w2 w3 : W) a la ca qa b lb cb qb :
  created w a la ca qa w2 → created w2 b lb cb qb w3 →
  created w b lb cb qb (dropped a qa w3).
Proof.
  intros (ja & Hna & Hnqa & Ho2 & Hh2 & Hlena) (jb & Hnb & Hnqb & Ho3 & Hh3 & Hlenb).
  assert (b ≠ a) as Hba.
  { intros ->. by rewrite Ho2, lookup_insert_eq in Hnb. }
  assert (qb ≠ qa) as Hqba.
  { intros ->. by rewrite Hh2, lookup_insert_eq in Hnqb. }
  exists jb. unfold dropped. simpl.
  rewrite Ho2, lookup_insert_ne in Hnb by done.
  rewrite Hh2, lookup_insert_ne in Hnqb by done.
  split; [done|]. split; [done|]. split; [|split; [|done]].
  - rewrite Ho3, Ho2, delete_insert_ne by done.
    by rewrite delete_insert_eq, delete_id by done.
  - rewrite Hh3, Hh2, delete_insert_ne by done.
    by rewrite delete_insert_eq, delete_id by done.
Qed.

Lemma created_ref_val (w w1 : W) a l c q r x :
  created w a l c q w1 → ref_val w r x → ref_to w1 r x q.
Proof.
  intros (junk & _ & Hnq & _ & Hh & _). destruct r as [y|q' i]; simpl; [done|].
  intros (Hi & b & Hb & Hx).
  assert (q' ≠ q) as Hne by (intros ->; by rewrite Hb in Hnq).
  split; [done|]. split; [done|]. exists b. by rewrite Hh, lookup_insert_ne.
Qed.

(** The shape the four operators share:
      List new_list = *this;  return op(new_list);
    [P] describes the contents [op] leaves in new_list, [F] the exceptions
    it throws; when it throws, new_list still is a list. *)
Lemma wp_produce fuel (w : W) this l cap p (op : addr → M' unit)
    (P : list T → Prop) (F : exn → Prop) :
  list_at w this l cap p → (length l < fuel)%nat →
  (∀ w1, created w (fresh (dom (objs w))) l cap (fresh (dom (heap w))) w1 →
     wp true (op (fresh (dom (objs w)))) fuel w1
       (λ _ w2, ∃ l' c' p',
          updated w1 (fresh (dom (objs w))) (fresh (dom (heap w))) l' c' p' w2 ∧
          0 < c' ≤ MAX_CAPACITY ∧ P l' ∧ (length l' < fuel)%nat)
       (λ e w2, F e ∧ ∃ la ca qa,
          created w (fresh (dom (objs w))) la ca qa w2 ∧ 0 < ca ≤ MAX_CAPACITY)) →
  wp true (with_local (List_copy this) (λ new_list, op new_list ;;; List_copy new_list))
    fuel w
    (λ b w', ∃ l' cb qb, created w b l' cb qb w' ∧ 0 < cb ≤ MAX_CAPACITY ∧ P l')
    (λ e w', F e ∧ objs w' = objs w ∧ heap w' = heap w).
Proof.
  intros Hl Hfuel Hop. apply wp_with_local.
  eapply wp_post; [by eapply List_copy_spec|].
  intros a w1 (-> & _ & Hcr). set (a := fresh (dom (objs w))) in *.
  apply wp_bind. eapply wp_mono; [by apply Hop| |].
  - intros _ w2 (l' & c' & p' & Hup & Hc' & HP & Hfuel').
    pose proof (created_updated _ _ _ _ _ _ _ _ _ _ Hcr Hup) as Hcr2.
    pose proof (created_list_at _ _ _ _ _ _ Hcr2 Hc') as Hla.
    eapply wp_post; [by eapply List_copy_spec|].
    intros b w3 (-> & _ & Hcr3).
    eapply wp_post; [eapply (List_delete_spec _ _ a l' c' p'); by eapply created_frame|].
    intros _ w4 ->. exists l', c', (fresh (dom (heap w2))).
    split; [by eapply created_copy_dropped|done].
  - intros e w2 (HF & la & ca & qa & Hcr2 & Hca).
    eapply wp_post; [eapply (List_delete_spec _ _ a la ca qa); by eapply created_list_at|].
    intros _ w3 ->. split; [done|]. by eapply created_dropped.
Qed.

(** ** operator+(const T&) *)

Lemma plus_spec fuel (w : W) this l cap p element x :
  list_at w this l cap p → ref_val w element x → (S (length l) < fuel)%nat →
  wp true (plus this element) fuel w
    (λ b w', ∃ l' cb qb, created w b l' cb qb w' ∧ 0 < cb ≤ MAX_CAPACITY ∧
                         l' = l ++ [x])
    (λ e w', (e = CapacityExceeded ∧ Z.of_nat (length l) = MAX_CAPACITY) ∧
             objs w' = objs w ∧ heap w' = heap w).
Proof.
  intros Hl Hx Hfuel. pose proof (la_cap _ _ _ _ _ Hl) as Hcap.
  apply (wp_produce fuel w this l cap p (λ a, append a element)
           (λ l', l' = l ++ [x])
           (λ e, e = CapacityExceeded ∧ Z.of_nat (length l) = MAX_CAPACITY));
    [done|lia|].
  intros w1 Hcr.
  pose proof (created_list_at _ _ _ _ _ _ Hcr Hcap) as Hla.
  eapply wp_mono;
    [eapply (append_spec _ _ _ l cap _ element x);
     [done|by eapply created_ref_val|lia]| |].
  - intros _ w2 (Hlt & Hpost).
    apply insert_post_updated in Hpost as (c' & p' & Hup & Hc'); [|done].
    rewrite inserted_end in Hup. exists (l ++ [x]), c', p'.
    split; [done|]. split; [lia|]. split; [done|]. rewrite length_app. simpl. lia.
  - intros e w2 (-> & Hfull & ->). split; [done|]. by exists l, cap, (fresh (dom (heap w))).
Qed.

(** ** operator-(const T&) *)

Lemma length_remove_first (x : T) (l : list T) :
  (length (remove_first x l) ≤ length l)%nat.
Proof. induction l as [|y l IH]; simpl; [done|]. case_decide; simpl; lia. Qed.

Lemma minus_spec fuel (w : W) this l cap p element x :
  list_at w this l cap p → ref_val w element x → (length l < fuel)%nat →
  wp true (minus this element) fuel w
    (λ b w', ∃ l' cb qb, created w b l' cb qb w' ∧ 0 < cb ≤ MAX_CAPACITY ∧
                         l' = remove_first x l)
    (λ e w', False ∧ objs w' = objs w ∧ heap w' = heap w).
Proof.
  intros Hl Hx Hfuel. pose proof (la_cap _ _ _ _ _ Hl) as Hcap.
  apply (wp_produce fuel w this l cap p (λ a, remove_value a element)
           (λ l', l' = remove_first x l) (λ e, False)); [done|lia|].
  intros w1 Hcr.
  pose proof (created_list_at _ _ _ _ _ _ Hcr Hcap) as Hla.
  eapply wp_post;
    [eapply (remove_value_spec _ _ _ l cap _ element x);
     [done|eapply ref_to_val; by eapply created_ref_val|lia]|].
  intros _ w2 (Hup & _). exists (remove_first x l), cap, (fresh (dom (heap w))).
  split; [done|]. split; [done|]. split; [done|].
  pose proof (length_remove_first x l). lia.
Qed.

(** ** operator+(const List&) *)

Lemma plus_list_spec fuel (w : W) this list l1 c1 p1 l2 c2 p2 :
  list_at w this l1 c1 p1 → list_at w list l2 c2 p2 →
  (length l1 < fuel)%nat →
  (Z.to_nat (Z.min (Z.of_nat (length l1 + length l2)) MAX_CAPACITY) < fuel)%nat →
  wp true (plus_list this list) fuel w
    (λ b w', ∃ l' cb qb, created w b l' cb qb w' ∧ 0 < cb ≤ MAX_CAPACITY ∧
                         l' = l1 ++ l2)
    (λ e w', (e = CapacityExceeded ∧ Z.of_nat (length l1 + length l2) > MAX_CAPACITY) ∧
             objs w' = objs w ∧ heap w' = heap w).
Proof.
  intros Hl1 Hl2 Hf1 Hf2. pose proof (la_cap _ _ _ _ _ Hl1) as Hcap.
  apply (wp_produce fuel w this l1 c1 p1 (λ a, concatenate a list)
           (λ l', l' = l1 ++ l2)
           (λ e, e = CapacityExceeded ∧ Z.of_nat (length l1 + length l2) > MAX_CAPACITY));
    [done|done|].
  intros w1 Hcr.
  pose proof (created_list_at _ _ _ _ _ _ Hcr Hcap) as Hla.
  pose proof (created_frame _ _ _ _ _ _ _ _ _ _ Hcr Hl2) as Hl2'.
  assert (fresh (dom (objs w)) ≠ list) as Hne.
  { intros Heq. destruct Hl2 as [Ho _ _]. by rewrite <-Heq, fresh_objs in Ho. }
  assert (fresh (dom (heap w)) ≠ p2) as Hpne.
  { intros Heq. destruct Hl2 as [_ (j & Hb & _) _]. by rewrite <-Heq, fresh_heap in Hb. }
  eapply wp_mono;
    [eapply (concatenate_other_spec _ _ _ list l1 c1 _ l2 c2 p2); done| |].
  - intros _ w2 (Hsum & c' & p' & Hup & Hc'). exists (l1 ++ l2), c', p'.
    split; [done|]. split; [lia|]. split; [done|]. rewrite length_app. lia.
  - intros e w2 (-> & Hsum & k & c' & p' & Hk & Hup & Hc'). split; [done|].
    exists (l1 ++ take k l2), c', p'. split; [by eapply created_updated|lia].
Qed.

(** ** operator*(int) *)

Lemma times_spec fuel (w : W) this l cap p n :
  list_at w this l cap p → n ≤ INT_MAX →
  (Z.to_nat n < fuel)%nat → (length l < fuel)%nat →
  (Z.to_nat (Z.min (n * Z.of_nat (length l)) MAX_CAPACITY) < fuel)%nat →
  wp true (times this n) fuel w
    (λ b w', ∃ l' cb qb, created w b l' cb qb w' ∧ 0 < cb ≤ MAX_CAPACITY ∧
                         (0 ≤ n ∧ n * Z.of_nat (length l) ≤ MAX_CAPACITY ∧
                          l' = copies (Z.to_nat n) l))
    (λ e w', ((e = InvalidArgument ∧ n < 0) ∨
              (e = CapacityExceeded ∧ 0 ≤ n ∧ n * Z.of_nat (length l) > MAX_CAPACITY)) ∧
             objs w' = objs w ∧ heap w' = heap w).
Proof.
  intros Hl Hn Hf1 Hf2 Hf3. pose proof (la_cap _ _ _ _ _ Hl) as Hcap.
  apply (wp_produce fuel w this l cap p (λ a, repeat a n)
           (λ l', 0 ≤ n ∧ n * Z.of_nat (length l) ≤ MAX_CAPACITY ∧
                  l' = copies (Z.to_nat n) l)
           (λ e, (e = InvalidArgument ∧ n < 0) ∨
                 (e = CapacityExceeded ∧ 0 ≤ n ∧
                  n * Z.of_nat (length l) > MAX_CAPACITY)));
    [done|done|].
  intros w1 Hcr.
  pose proof (created_list_at _ _ _ _ _ _ Hcr Hcap) as Hla.
  eapply wp_mono; [by eapply (repeat_spec _ _ _ l cap _ n)| |].
  - intros _ w2 (Hpos & Hfit & c' & p' & Hup & Hc').
    exists (copies (Z.to_nat n) l), c', p'. split; [done|]. split; [done|].
    split; [done|]. rewrite length_copies. lia.
  - intros e w2 [(-> & Hneg & ->)|(-> & Hpos & Hover & Ho & Hh)].
    + split; [by left|]. by exists l, cap, (fresh (dom (heap w))).
    + split; [by right|]. exists l, cap, (fresh (dom (heap w))). split; [|done].
      destruct Hcr as (junk & ? & ? & Ho1 & Hh1 & ?). exists junk.
      by rewrite Ho, Hh.
Qed.

End Produce.

(** * traverse *)

Section Traverse.
Context {T : Type} `{EqDecision T}.
Local Abbreviation buffer := (list (option T)) (only parsing).
Local Abbreviation W := (@world T) (only parsing).
Local Abbreviation M' := (M (@world T)) (only parsing).

Lemma mapped_step (f : T → T) (l : list T) (k : nat) x :
  l !! k = Some x →
  <[k := f x]> ((f <$> take k l) ++ drop k l) = (f <$> take (S k) l) ++ drop (S k) l.
Proof.
  intros Hx. assert (k < length l)%nat by (by eapply lookup_lt_Some).
  assert (length (f <$> take k l) = k) as Hlen by (rewrite length_fmap, length_take; lia).
  rewrite insert_app_r_alt by lia. rewrite Hlen, Nat.sub_diag.
  rewrite (drop_S l x k Hx). simpl.
  rewrite (take_S_r l k x Hx), fmap_app. simpl. by rewrite <-(assoc_L (++)).
Qed.

Lemma traverse_update_spec (f : T → T) fuel (w : W) this l cap p E :
  list_at w this l cap p → (length l < fuel)%nat →
  wp true (traverse this (update_with f)) fuel w
    (λ _ w', updated w this p (f <$> l) cap p w' ∧ expansions w' = expansions w) E.
Proof.
  intros Hl Hfuel. pose proof Hl as [Ho (junk & Hb & Hlen) Hcap].
  pose proof (list_at_lookup _ _ _ _ _ Hl) as [_ Hmax].
  unfold traverse. rewrite <-(holding_id w p junk l Hb).
  apply wp_bind.
  apply (wp_loop_total
    (λ i w', ∃ k : nat, i = Z.of_nat k ∧ (k ≤ length l)%nat ∧
       w' = holding w p junk ((f <$> take k l) ++ drop k l))
    _ _ fuel _ E (λ i _, (length l - Z.to_nat i)%nat)).
  - intros i w' (k & -> & Hk & ->).
    apply wp_bind. eapply wp_get_size; [done|]. apply wp_ret. simpl.
    case_bool_decide as Hlt.
    + destruct (lookup_lt_is_Some_2 l k) as [x Hx]; [lia|].
      assert (((f <$> take k l) ++ drop k l) !! k = Some x) as Hxk.
      { rewrite lookup_app_r; rewrite length_fmap, length_take; [|lia].
        rewrite lookup_drop. rewrite <-Hx. f_equal. lia. }
      apply wp_bind. eapply wp_get_data; [done|]. simpl.
      apply wp_bind. unfold update_with.
      apply wp_bind. simpl. eapply wp_load_holding; [done|].
      eapply wp_store; [simpl; by rewrite lookup_insert_eq| |].
      { rewrite length_app, length_fmap, length_app, length_fmap, length_take,
          length_drop. lia. }
      apply wp_bind, wp_int; [int_lia|]. apply wp_ret.
      split; [|lia]. exists (S k). split; [lia|]. split; [lia|].
      unfold holding, set_heap. simpl. rewrite insert_insert_eq, Nat2Z.id.
      do 2 f_equal.
      rewrite insert_app_l by
        (rewrite length_fmap, length_app, length_fmap, length_take, length_drop; lia).
      by rewrite <-list_fmap_insert, mapped_step.
    + apply wp_ret. assert (k = length l) as -> by lia.
      rewrite firstn_all, drop_all, app_nil_r.
      split; [|done]. exists junk. simpl. rewrite length_fmap.
      split; [by rewrite insert_id|]. split; [|split; [done|by left]].
      by rewrite insert_delete_eq, insert_insert_eq.
  - exists 0%nat. split; [done|]. split; [lia|]. by rewrite take_0, drop_0.
  - lia.
Qed.

Lemma traverse_read_spec fuel (w : W) this l cap p E :
  list_at w this l cap p → (length l < fuel)%nat →
  wp true (traverse this read_only) fuel w (λ _ w', w' = w) E.
Proof.
  intros Hl Hfuel. pose proof Hl as [Ho (junk & Hb & Hlen) Hcap].
  pose proof (list_at_lookup _ _ _ _ _ Hl) as [_ Hmax].
  unfold traverse. apply wp_bind.
  apply (wp_loop_total
    (λ i w', ∃ k : nat, i = Z.of_nat k ∧ (k ≤ length l)%nat ∧ w' = w)
    _ _ fuel _ E (λ i _, (length l - Z.to_nat i)%nat)).
  - intros i w' (k & -> & Hk & ->).
    apply wp_bind. eapply wp_get_size; [done|]. apply wp_ret. simpl.
    case_bool_decide as Hlt.
    + destruct (lookup_lt_is_Some_2 l k) as [x Hx]; [lia|].
      apply wp_bind. eapply wp_get_data; [done|]. simpl.
      apply wp_bind. unfold read_only. apply wp_bind. simpl.
      eapply wp_load with (x := x); [done|lia| |].
      { rewrite Nat2Z.id. by apply cells_lookup. }
      apply wp_ret.
      apply wp_bind, wp_int; [int_lia|]. apply wp_ret.
      split; [|lia]. exists (S k). split; [lia|]. split; [lia|done].
    + by apply wp_ret.
  - exists 0%nat. split; [done|]. split; [lia|done].
  - lia.
Qed.

End Traverse.

(** * insert given a reference to an element of the list itself *)

Section Alias.
Context {T : Type} `{EqDecision T}.
Local Abbreviation buffer := (list (option T)) (only parsing).
Local Abbreviation W := (@world T) (only parsing).
Local Abbreviation M' := (M (@world T)) (only parsing).

(** A computation whose first part returns into a store from which the rest
    runs into undefined behaviour does so as a whole. *)
Lemma faults_bind {A B} (m : M' A) (k : A → M' B) fuel (w : W) f :
  wp true m fuel w (λ a w', k a fuel w' = Fault f) no_throw →
  bind m k fuel w = Fault f.
Proof. unfold wp, bind. by destruct (m fuel w). Qed.

(** The shifting loop of insert on its own.  The slot at the position of
    the insertion is left holding the element that was there. *)
Lemma insert_shift_loop fuel (w : W) this l cap p s junk (idx : nat) E :
  objs w !! this = Some (mkList (Z.of_nat (length l)) cap p) →
  heap w !! p = Some ((Some <$> l) ++ s :: junk) →
  (idx ≤ length l)%nat → (length l < fuel)%nat → Z.of_nat (length l) < MAX_CAPACITY →
  wp true
    (loop (R := Empty_set)
       (fun i => ret (bool_decide (i > Z.of_nat idx)))
       (fun i =>
          d <- get_data this ;;
          j <- int (i - 1) ;;
          x <- load d j ;;
          store d i x ;;;
          i' <- int (i - 1) ;;
          ret (Next i'))
       (Z.of_nat (length l)))
    fuel w
    (λ _ w', ∃ s', (∀ y, l !! idx = Some y → s' = Some y) ∧
       w' = set_heap <[p := (Some <$> take idx l) ++ s' :: (Some <$> drop idx l) ++ junk]> w)
    E.
Proof.
  intros Ho Hb Hidx Hfuel Hmax.
  apply (wp_loop_total
    (λ i w', ∃ (k : nat) s', i = Z.of_nat k ∧ (idx ≤ k ≤ length l)%nat ∧
       (∀ y, l !! k = Some y → s' = Some y) ∧
       w' = set_heap <[p := (Some <$> take k l) ++ s' :: (Some <$> drop k l) ++ junk]> w)
    _ _ fuel _ E (λ i _, Z.to_nat i)).
  - intros i w' (k & s' & -> & Hk & Hs' & ->). apply wp_ret. case_bool_decide as Hgt.
    + destruct k as [|k]; [lia|].
      destruct (lookup_lt_is_Some_2 l k) as [y Hy]; [lia|].
      apply wp_bind. eapply wp_get_data; [done|]. simpl.
      apply wp_bind. apply wp_int; [int_lia|].
      apply wp_bind. eapply wp_load with (x := y).
      { simpl. by rewrite lookup_insert_eq. } { lia. }
      { replace (Z.to_nat (Z.of_nat (S k) - 1)) with k by lia.
        rewrite lookup_app_l by (rewrite length_fmap, length_take; lia).
        rewrite list_lookup_fmap, lookup_take_lt by lia. by rewrite Hy. }
      apply wp_bind. eapply wp_store.
      { simpl. by rewrite lookup_insert_eq. }
      { rewrite length_app, length_fmap, length_take, length_cons. lia. }
      apply wp_bind. apply wp_int; [int_lia|]. apply wp_ret.
      split; [|lia]. exists k, (Some y). split; [lia|]. split; [lia|].
      split; [intros y' Hy'; congruence|].
      unfold set_heap. simpl. f_equal. rewrite insert_insert_eq. f_equal.
      rewrite Nat2Z.id. by apply shift_step.
    + assert (k = idx) as -> by lia. by exists s'.
  - exists (length l), s. split; [done|]. split; [lia|].
    split; [intros y Hy; apply lookup_lt_Some in Hy; lia|].
    rewrite firstn_all, drop_all. simpl.
    destruct w as [O H' n]. unfold set_heap. simpl in *. f_equal. by rewrite insert_id.
  - lia.
Qed.

(** What the slot [i] holds once the elements from [idx] on have moved up. *)
Lemma shifted_lookup (l : list T) (idx i : nat) s' y (junk : buffer) :
  (idx ≤ length l)%nat → (i < length l)%nat →
  (∀ z, l !! idx = Some z → s' = Some z) →
  l !! (if decide (i ≤ idx)%nat then i else pred i) = Some y →
  ((Some <$> take idx l) ++ s' :: (Some <$> drop idx l) ++ junk) !! i = Some (Some y).
Proof.
  intros Hidx Hi Hs' Hy. case_decide as Hle.
  - destruct (decide (i = idx)) as [->|Hne].
    + rewrite lookup_app_r; rewrite length_fmap, length_take; [|lia].
      replace (idx - idx `min` length l)%nat with 0%nat by lia. simpl.
      f_equal. by apply Hs'.
    + rewrite lookup_app_l by (rewrite length_fmap, length_take; lia).
      rewrite list_lookup_fmap, lookup_take_lt by lia. by rewrite Hy.
  - rewrite lookup_app_r; rewrite length_fmap, length_take; [|lia].
    replace (i - idx `min` length l)%nat with (S (pred i - idx)) by lia. simpl.
    rewrite lookup_app_l by (rewrite length_fmap, length_drop; lia).
    rewrite list_lookup_fmap, lookup_drop.
    replace (idx + (pred i - idx))%nat with (pred i) by lia. by rewrite Hy.
Qed.

(** insert with room left, given a reference to the slot [i] of the list:
    the element is read after the shift. *)
Lemma insert_own_slot_room fuel (w : W) this l cap p index (i : nat) y E :
  list_at w this l cap p →
  Z.of_nat (length l) < cap →
  - Z.of_nat (length l) ≤ index ≤ Z.of_nat (length l) →
  (i < length l)%nat →
  l !! (if decide (i ≤ resolve index (length l))%nat then i else pred i) = Some y →
  (length l < fuel)%nat →
  wp true (insert this index (Slot p (Z.of_nat i))) fuel w
    (λ _ w', insert_post w this l cap p (resolve index (length l)) y w') E.
Proof.
  intros Hl Hroom Hidx Hi Hy Hfuel.
  pose proof Hl as [Ho (junk & Hb & Hlen) Hcap].
  unfold insert.
  apply wp_bind. eapply wp_get_size; [done|]. simpl.
  apply wp_bind, wp_check_full; [lia|].
  apply wp_bind, wp_int; [int_lia|].
  apply wp_bind, wp_int; [int_lia|].
  apply wp_bind, wp_check_bounds; [lia|].
  apply wp_bind. eapply wp_get_capacity; [done|]. simpl.
  pose proof (resolve_le index (length l) Hidx) as Hidx'.
  set (idx := resolve index (length l)) in *.
  unfold insert_post. rewrite decide_False by lia.
  rewrite bool_decide_eq_false_2 by lia.
  apply wp_bind, wp_ret.
  apply wp_bind. eapply wp_get_size; [done|]. simpl.
  apply wp_seq with (Q1 := λ j w', j = Z.of_nat idx ∧ w' = w).
  { unfold idx, resolve. destruct (decide (index >= 0)).
    - apply wp_ret. split; [lia|done].
    - apply wp_int; [int_lia|]. split; [lia|done]. }
  intros j w' [-> ->].
  destruct junk as [|s junk]; [simpl in *; lia|].
  apply wp_bind.
  eapply wp_mono;
    [eapply (insert_shift_loop _ _ this l cap p s junk idx); [done|done|done|done|lia]| |done].
  intros _ w' (s' & Hs' & ->).
  apply wp_bind. eapply wp_get_data; [done|]. simpl.
  apply wp_bind. eapply wp_load with (x := y).
  { simpl. by rewrite lookup_insert_eq. } { lia. }
  { rewrite Nat2Z.id. by apply shifted_lookup. }
  apply wp_bind. eapply wp_store.
  { simpl. by rewrite lookup_insert_eq. }
  { rewrite length_app, length_fmap, length_take, length_cons. lia. }
  apply wp_bind. eapply wp_get_size; [done|]. simpl.
  apply wp_bind. apply wp_int; [int_lia|].
  eapply wp_put_obj; [done|].
  exists junk. split; [|simpl in *; lia].
  unfold set_objs, set_heap. simpl. f_equal.
  - do 2 f_equal. lia.
  - rewrite insert_insert_eq, insert_delete_eq. f_equal. rewrite Nat2Z.id.
    by apply place_step.
Qed.

(** insert into a full list, given a reference into the buffer of the
    list: the expansion releases the buffer, and the element is read
    afterwards. *)
Lemma insert_own_slot_full fuel (w : W) this l cap p index (i : Z) :
  list_at w this l cap p →
  Z.of_nat (length l) = cap → cap < MAX_CAPACITY →
  - Z.of_nat (length l) ≤ index ≤ Z.of_nat (length l) →
  (length l < fuel)%nat →
  insert this index (Slot p i) fuel w = Fault Dangling.
Proof.
  intros Hl Hfull Hmax Hidx Hfuel.
  pose proof Hl as [Ho (junk & Hb & Hlen) Hcap].
  unfold insert.
  apply faults_bind. eapply wp_get_size; [done|]. simpl.
  apply faults_bind, wp_check_full; [lia|].
  apply faults_bind, wp_int; [int_lia|].
  apply faults_bind, wp_int; [int_lia|].
  apply faults_bind, wp_check_bounds; [lia|].
  apply faults_bind. eapply wp_get_capacity; [done|]. simpl.
  pose proof (resolve_le index (length l) Hidx) as Hidx'.
  set (idx := resolve index (length l)) in *.
  rewrite decide_True by done.
  apply faults_bind. eapply wp_mono; [by apply expand_capacity_spec| |done].
  intros _ w' ->.
  pose proof (grown_bounds cap Hcap) as [Hg Hg'].
  assert (fresh (dom (heap w)) ≠ p) as Hfresh.
  { intros Heq. apply (is_fresh (dom (heap w))). rewrite Heq. apply elem_of_dom. eauto. }
  apply faults_bind.
  eapply wp_get_size; [unfold expanded; simpl; by rewrite lookup_insert_eq|]. simpl.
  apply faults_bind.
  apply wp_post with (Q := λ j w', j = Z.of_nat idx ∧ w' = expanded w this l cap p).
  { unfold idx, resolve. destruct (decide (index >= 0)).
    - apply wp_ret. split; [lia|done].
    - apply wp_int; [int_lia|]. split; [lia|done]. }
  intros j w' [-> ->].
  destruct (Z.to_nat (grown cap) - length l)%nat as [|n] eqn:Hn; [lia|].
  apply faults_bind.
  eapply wp_mono;
    [eapply (insert_shift_loop _ _ this l (grown cap) (fresh (dom (heap w))) None
               (replicate n None) idx)| |done].
  - unfold expanded; simpl. by rewrite lookup_insert_eq.
  - unfold expanded; simpl. rewrite lookup_delete_ne by done.
    by rewrite lookup_insert_eq, Hn.
  - done.
  - done.
  - lia.
  - intros _ w' (s' & _ & ->).
    apply faults_bind.
    eapply wp_get_data; [unfold expanded; simpl; by rewrite lookup_insert_eq|]. simpl.
    unfold bind, load, expanded, set_heap. simpl.
    rewrite lookup_insert_ne by done.
    by rewrite lookup_delete_eq.
Qed.

(** With room left insert keeps the buffer and the capacity. *)
Lemma insert_post_room (w w' : W) this l cap p idx x :
  list_at w this l cap p → Z.of_nat (length l) < cap →
  insert_post w this l cap p idx x w' →
  list_at w' this (inserted idx x l) cap p.
Proof.
  intros [Ho _ Hcap] Hroom (junk & -> & Hlen).
  rewrite bool_decide_eq_false_2 in Hlen |- * by lia.
  split; simpl; [by rewrite length_inserted, lookup_insert_eq| |lia].
  exists junk. by rewrite lookup_insert_eq, length_inserted.
Qed.

End Alias.

(** * Further properties of the member functions *)

Section Further.
Context {T : Type} `{EqDecision T}.
Local Abbreviation buffer := (list (option T)) (only parsing).
Local Abbreviation W := (@world T) (only parsing).
Local Abbreviation M' := (M (@world T)) (only parsing).

Lemma load_slot fuel (w : W) this l cap p (k : nat) x :
  list_at w this l cap p → l !! k = Some x →
  deref (Slot p (Z.of_nat k)) fuel w = Ok x w.
Proof.
  intros [_ (junk & Hb & _) _] Hx. simpl. unfold load.
  rewrite Hb, decide_True by lia. rewrite Nat2Z.id.
  by rewrite (cells_lookup l junk k x Hx).
Qed.

(** ** Element access *)

(** X4.  operator[]: for an index in [-length, length) the call returns, without
    touching the store, a reference to the slot the index denotes (counted
    from the end when negative); reading through it gives the element there
    and writing through it replaces exactly that element.  For any other
    index, and so for every index on an empty list, it throws
    IndexOutOfRange and the store is as before. *)
Theorem subscript_checked fuel (w : W) this l cap p index :
  list_at w this l cap p →
  (- Z.of_nat (length l) ≤ index < Z.of_nat (length l) →
   ∃ x, l !! resolve index (length l) = Some x ∧
        subscript this index fuel w
          = Ok (Slot p (Z.of_nat (resolve index (length l)))) w ∧
        deref (Slot p (Z.of_nat (resolve index (length l)))) fuel w = Ok x w ∧
        ∀ y, ∃ w',
          store p (Z.of_nat (resolve index (length l))) y fuel w = Ok tt w' ∧
          list_at w' this (<[resolve index (length l) := y]> l) cap p) ∧
  (¬ (- Z.of_nat (length l) ≤ index < Z.of_nat (length l)) →
   subscript this index fuel w = Throw IndexOutOfRange w).
Proof.
  intros Hl. split; [|intros Hout; by eapply subscript_out_of_range].
  intros Hidx. pose proof (resolve_lt index (length l) Hidx) as Hk.
  destruct (lookup_lt_is_Some_2 l _ Hk) as [x Hx]. exists x.
  split; [done|]. split; [|split].
  - apply wp_returns_exactly. eapply wp_post; [by eapply subscript_spec|].
    by intros r w' [-> ->].
  - by eapply load_slot.
  - intros y. destruct (store_slot fuel w this l cap p _ y Hl Hk) as (w' & Hrun & Hup).
    exists w'. split; [done|]. eapply updated_list_at; [done|by destruct Hl].
Qed.

(** ** What insert and remove refuse *)

(** X5.  insert checks the capacity first and the index second: on a list of
    MAX_CAPACITY elements it throws CapacityExceeded whatever the index; on
    a shorter list an index outside [-length, length] throws
    IndexOutOfRange.  The store is as before in both cases. *)
Theorem insert_refusals fuel (w : W) this l cap p index element :
  list_at w this l cap p →
  (Z.of_nat (length l) = MAX_CAPACITY →
   insert this index element fuel w = Throw CapacityExceeded w) ∧
  (Z.of_nat (length l) < MAX_CAPACITY →
   ¬ (- Z.of_nat (length l) ≤ index ≤ Z.of_nat (length l)) →
   insert this index element fuel w = Throw IndexOutOfRange w).
Proof.
  intros Hl. split.
  - intros Hfull. by eapply insert_full.
  - intros Hlt Hout. by eapply insert_out_of_range.
Qed.

(** X6.  remove checks emptiness first and the index second: on an empty list it
    throws EmptyContainer whatever the index; on another list an index
    outside [-length, length) throws IndexOutOfRange.  The store is as
    before in both cases. *)
Theorem remove_refusals fuel (w : W) this l cap p index :
  list_at w this l cap p →
  (l = [] → remove this index fuel w = Throw EmptyContainer w) ∧
  (l ≠ [] →
   ¬ (- Z.of_nat (length l) ≤ index < Z.of_nat (length l)) →
   remove this index fuel w = Throw IndexOutOfRange w).
Proof.
  intros Hl. split.
  - intros ->. by eapply remove_empty.
  - intros Hne Hout. by eapply remove_out_of_range.
Qed.

(** ** insert, operator[] and remove together *)

(** X7.  For an element [x] passed by value or through a reference that does
    not point into the buffer of the list: after [insert(index, x)] the
    element at the position the index denoted is [x]: operator[] at that
    position refers to [x], and remove at that position returns [x] and
    gives back the original contents (in a buffer that may have grown). *)
Theorem insert_then_read_and_remove fuel (w : W) this l cap p index element x :
  list_at w this l cap p → ref_to w element x p →
  Z.of_nat (length l) < MAX_CAPACITY →
  - Z.of_nat (length l) ≤ index ≤ Z.of_nat (length l) →
  (S (length l) < fuel)%nat →
  ∃ w1 cap' p' w2,
    insert this index element fuel w = Ok tt w1 ∧
    subscript this (Z.of_nat (resolve index (length l))) fuel w1
      = Ok (Slot p' (Z.of_nat (resolve index (length l)))) w1 ∧
    deref (Slot p' (Z.of_nat (resolve index (length l)))) fuel w1 = Ok x w1 ∧
    remove this (Z.of_nat (resolve index (length l))) fuel w1 = Ok x w2 ∧
    list_at w2 this l cap' p' ∧ cap ≤ cap'.
Proof.
  intros Hl Hx Hmax Hidx Hfuel.
  pose proof (resolve_le index (length l) Hidx) as Hk.
  set (k := resolve index (length l)) in *.
  destruct (wp_returns _ _ _ _ _
              (insert_spec fuel w this l cap p index element x no_throw
                 Hl Hx Hmax Hidx ltac:(lia)))
    as ([] & w1 & Hrun & Hpost); [by intros ? ? []|].
  apply insert_post_updated in Hpost as (cap' & p' & Hup & Hcap'); [|done].
  fold k in Hup.
  assert (list_at w1 this (inserted k x l) cap' p') as Hl1.
  { eapply updated_list_at; [done|]. destruct Hl. lia. }
  pose proof (length_inserted k x l) as Hlen.
  pose proof (inserted_lookup l k x Hk) as Hxk.
  exists w1, cap', p'.
  destruct (wp_returns _ _ _ _ _
              (remove_spec fuel w1 this (inserted k x l) cap' p' (Z.of_nat k) x no_throw
                 Hl1 ltac:(lia) ltac:(by rewrite resolve_nat) ltac:(lia)))
    as (r & w2 & Hrun2 & -> & Hup2 & _); [by intros ? ? []|].
  rewrite resolve_nat, delete_inserted in Hup2 by done.
  exists w2. split; [done|]. split; [|split; [|split; [done|split; [|lia]]]].
  - apply wp_returns_exactly.
    eapply wp_post; [apply (subscript_spec _ _ _ _ _ _ _ _ Hl1); lia|].
    intros r w' [-> ->]. by rewrite resolve_nat.
  - by eapply load_slot.
  - eapply updated_list_at; [done|]. destruct Hl. lia.
Qed.

(** ** operator+=(const T&) *)

(** X8.  Appending an element passed by value or through a reference that
    does not point into the buffer of the list puts it behind the last
    one.  With room left the buffer and the capacity stay; on a list of
    MAX_CAPACITY elements the call throws CapacityExceeded and the store is
    as before. *)
Theorem append_at_end fuel (w : W) this l cap p element x :
  list_at w this l cap p → ref_to w element x p → (length l < fuel)%nat →
  (Z.of_nat (length l) < MAX_CAPACITY →
   ∃ w' cap' p',
     append this element fuel w = Ok tt w' ∧
     list_at w' this (l ++ [x]) cap' p' ∧
     cap ≤ cap' ∧
     (Z.of_nat (length l) < cap → cap' = cap ∧ p' = p)) ∧
  (Z.of_nat (length l) = MAX_CAPACITY →
   append this element fuel w = Throw CapacityExceeded w).
Proof.
  intros Hl Hx Hfuel.
  pose proof (append_spec fuel w this l cap p element x Hl Hx Hfuel) as Hwp.
  pose proof (la_cap _ _ _ _ _ Hl) as Hcap.
  split.
  - intros Hlt. destruct (wp_returns _ _ _ _ _ Hwp) as ([] & w' & Hrun & _ & Hpost).
    { intros e w' (_ & ? & _). lia. }
    pose proof Hpost as (junk' & Hw' & Hlen').
    apply insert_post_updated in Hpost as (cap' & p' & Hup & Hcap'); [|done].
    rewrite inserted_end in Hup.
    exists w', cap', p'. split; [done|].
    split; [eapply updated_list_at; [done|lia]|]. split; [lia|].
    intros Hroom. destruct Hup as (junk & Ho & _).
    rewrite Hw' in Ho. simpl in Ho.
    rewrite bool_decide_eq_false_2 in Ho by lia.
    assert (<[this := mkList (Z.of_nat (S (length l))) cap p]> (objs w) !! this
            = <[this := mkList (Z.of_nat (length (l ++ [x]))) cap' p']> (objs w) !! this)
      as Heq by (by rewrite Ho).
    rewrite !lookup_insert_eq in Heq. by injection Heq as _ <- <-.
  - intros Hfull. unfold append, bind.
    destruct Hl as [Ho ? ?]. unfold get_size, bind, get_obj. rewrite Ho. simpl.
    apply insert_full with (l := l) (cap := cap) (p := p); [by split|done].
Qed.

(** ** operator-=(const T&) *)

Lemma remove_value_absent fuel (w : W) this l cap p element x E :
  list_at w this l cap p → ref_val w element x → (length l < fuel)%nat →
  x ∉ l →
  wp true (remove_value this element) fuel w (λ _ w', w' = w) E.
Proof.
  intros Hl Hx Hfuel Hno. unfold remove_value.
  eapply wp_seq.
  { eapply (find_spec _ _ _ l cap p _ x); [done|done|unfold find_default_start; lia|done]. }
  intros r w' [-> Hres]. simpl in Hres.
  destruct Hres as [[-> _]|(_ & Hr & _)].
  - rewrite decide_False by (by intros ?). by apply wp_ret.
  - destruct Hno. by eapply list_elem_of_lookup_2.
Qed.

(** X9.  operator-= never throws.  It removes the first occurrence of the
    element and nothing else, keeping capacity and buffer; when the element
    does not occur, the store is as before. *)
Theorem remove_value_first_occurrence fuel (w : W) this l cap p element x :
  list_at w this l cap p → ref_val w element x → (length l < fuel)%nat →
  ∃ w',
    remove_value this element fuel w = Ok tt w' ∧
    list_at w' this (remove_first x l) cap p ∧
    (∀ l1 l2, l = l1 ++ x :: l2 → x ∉ l1 → remove_first x l = l1 ++ l2) ∧
    (x ∉ l → remove_first x l = l ∧ w' = w).
Proof.
  intros Hl Hx Hfuel.
  destruct (wp_returns _ _ _ _ _
              (remove_value_spec fuel w this l cap p element x no_throw Hl Hx Hfuel))
    as ([] & w' & Hrun & Hup & _); [by intros ? ? []|].
  exists w'. split; [done|].
  split; [eapply updated_list_at; [done|by destruct Hl]|]. split.
  - intros l1 l2 -> Hno. by apply remove_first_middle.
  - intros Hno. split.
    + apply remove_first_absent. intros i Hi. destruct Hno.
      by eapply list_elem_of_lookup_2.
    + destruct (wp_returns _ _ _ _ _
                  (remove_value_absent fuel w this l cap p element x no_throw
                     Hl Hx Hfuel Hno))
        as ([] & w'' & Hrun' & ->); [by intros ? ? []|]. congruence.
Qed.

(** ** count and contains *)

(** X10.  count returns the number of occurrences of the element, and contains
    with its default range tells whether there is one; neither touches the
    store or throws. *)
Theorem count_and_contains fuel (w : W) this l cap p element x :
  list_at w this l cap p → ref_val w element x → (length l < fuel)%nat →
  count this element fuel w = Ok (Z.of_nat (occurrences x l)) w ∧
  contains this element find_default_start find_default_stop fuel w
    = Ok (bool_decide (x ∈ l)) w ∧
  (occurrences x l = 0%nat ↔ x ∉ l).
Proof.
  intros Hl Hx Hfuel. split; [|split; [|apply occurrences_zero]].
  - apply wp_returns_exactly.
    eapply wp_post; [by eapply (count_spec _ _ _ l cap p element x)|].
    by intros r w' [-> ->].
  - destruct (wp_returns _ _ _ _ _
                (find_spec fuel w this l cap p element x find_default_start
                   find_default_stop no_throw Hl Hx ltac:(unfold find_default_start; lia)
                   Hfuel))
      as (r & w' & Hrun & -> & Hres); [by intros ? ? []|].
    unfold contains, bind. rewrite Hrun. unfold ret. do 2 f_equal.
    pose proof (list_at_lookup _ _ _ _ _ Hl) as [_ Hmax].
    unfold find_result, find_default_start, find_default_stop in Hres.
    apply bool_decide_ext. destruct Hres as [[-> Hno]|(Hr & Hxr & _)].
    + split; [done|]. intros [i Hi]%list_elem_of_lookup_1.
      destruct (Hno (Z.of_nat i)); [|by rewrite Nat2Z.id].
      apply lookup_lt_Some in Hi. lia.
    + split; [intros _; by eapply list_elem_of_lookup_2|lia].
Qed.

(** ** operator== and operator!= *)

(** X11.  Two lists compare equal exactly when they hold the same sequence of
    elements, whatever their capacities and buffers; operator!= returns the
    opposite.  Neither touches the store or throws. *)
Theorem equal_iff_same_contents fuel (w : W) this that l cap p l' cap' p' :
  list_at w this l cap p → list_at w that l' cap' p' → (length l < fuel)%nat →
  equal this that fuel w = Ok (bool_decide (l = l')) w ∧
  not_equal this that fuel w = Ok (bool_decide (l ≠ l')) w.
Proof.
  intros Hl Hl' Hfuel.
  assert (equal this that fuel w = Ok (bool_decide (l = l')) w) as Heq.
  { apply wp_returns_exactly.
    eapply wp_post; [by eapply (equal_spec _ _ _ _ l cap p l' cap' p')|].
    by intros r w' [-> ->]. }
  split; [done|]. unfold not_equal, bind. rewrite Heq. unfold ret. do 2 f_equal.
  by destruct (decide (l = l')) as [Hd|Hd];
    [rewrite bool_decide_eq_true_2, bool_decide_eq_false_2 by auto
    |rewrite bool_decide_eq_false_2, bool_decide_eq_true_2 by auto].
Qed.

(** ** The copy and move constructors *)

(** X12.  The copy constructor builds, at an address and in a buffer that were
    free, a list with the contents and the capacity of its argument, which
    it leaves alone; the two compare equal, and destroying the copy gives
    back the objects and buffers there were. *)
Theorem copy_constructor_independent fuel (w : W) that l cap q :
  list_at w that l cap q → (length l < fuel)%nat →
  ∃ a w' qa w'',
    List_copy that fuel w = Ok a w' ∧
    created w a l cap qa w' ∧
    a ≠ that ∧ qa ≠ q ∧
    list_at w' a l cap qa ∧
    list_at w' that l cap q ∧
    equal a that fuel w' = Ok true w' ∧
    List_delete a fuel w' = Ok tt w'' ∧
    objs w'' = objs w ∧ heap w'' = heap w.
Proof.
  intros Hl Hfuel. pose proof (la_cap _ _ _ _ _ Hl) as Hcap.
  destruct (wp_returns _ _ _ _ _ (List_copy_spec fuel w that l cap q no_throw Hl Hfuel))
    as (a & w' & Hrun & -> & _ & Hcr); [by intros ? ? []|].
  pose proof (created_list_at _ _ _ _ _ _ Hcr Hcap) as Hla.
  pose proof (created_frame _ _ _ _ _ _ _ _ _ _ Hcr Hl) as Hlthat.
  exists (fresh (dom (objs w))), w', (fresh (dom (heap w))), (dropped (fresh (dom (objs w)))
    (fresh (dom (heap w))) w').
  split; [done|]. split; [done|]. split; [|split].
  { intros Heq. destruct Hl as [Ho _ _]. by rewrite <-Heq, fresh_objs in Ho. }
  { intros Heq. destruct Hl as [_ (j & Hb & _) _]. by rewrite <-Heq, fresh_heap in Hb. }
  split; [done|]. split; [done|]. split; [|split].
  - apply wp_returns_exactly.
    eapply wp_post; [by eapply (equal_spec _ _ _ _ l cap _ l cap q)|].
    intros r w1 [-> ->]. by rewrite bool_decide_eq_true_2.
  - apply wp_returns_exactly.
    eapply wp_post; [by eapply List_delete_spec|]. by intros [] w1 ->.
  - by eapply created_dropped.
Qed.

(** X13.  The move constructor gives the new object the fields of its argument,
    buffer included, without copying an element, and leaves the argument an
    empty list of the initial capacity with a new buffer. *)
Theorem move_constructor_takes_buffer fuel (w : W) that l cap q :
  list_at w that l cap q →
  ∃ a w' q',
    List_move that fuel w = Ok a w' ∧
    a ≠ that ∧ objs w !! a = None ∧
    q' ≠ q ∧ heap w !! q' = None ∧
    list_at w' a l cap q ∧
    list_at w' that [] INIT_CAPACITY q' ∧
    heap w' !! q = heap w !! q.
Proof.
  intros [Ho (junk & Hb & Hlen) Hcap].
  destruct (wp_returns _ _ _ _ _ (List_move_spec fuel w that _ no_throw Ho))
    as (a & w' & Hrun & Hpost); [by intros ? ? []|].
  simpl in Hpost. destruct Hpost as [-> ->].
  assert (fresh (dom (objs w)) ≠ that) as Hne.
  { intros Heq. by rewrite <-Heq, fresh_objs in Ho. }
  assert (fresh (dom (heap w)) ≠ q) as Hqne.
  { intros Heq. by rewrite <-Heq, fresh_heap in Hb. }
  eexists _, _, (fresh (dom (heap w))). split; [done|].
  split; [done|]. split; [apply fresh_objs|]. split; [done|].
  split; [apply fresh_heap|]. split; [|split].
  - split; simpl; [by rewrite lookup_insert_ne, lookup_insert_eq| |done].
    exists junk. by rewrite lookup_insert_ne.
  - split; simpl; [by rewrite lookup_insert_eq| |unfold INIT_CAPACITY; int_lia].
    exists (replicate (Z.to_nat INIT_CAPACITY) None). by rewrite lookup_insert_eq.
  - simpl. by rewrite lookup_insert_ne.
Qed.

(** ** The assignments between two lists *)

(** X14.  Copy assignment between two different lists (each owning its buffer):
    the receiver gets the contents and the capacity of the argument in a
    newly allocated buffer, its old buffer is released, and the argument is
    left alone. *)
Theorem copy_assignment fuel (w : W) this that l1 c1 p1 l2 c2 p2 :
  list_at w this l1 c1 p1 → list_at w that l2 c2 p2 →
  this ≠ that → p1 ≠ p2 → (length l2 < fuel)%nat →
  ∃ w' p',
    assign this that fuel w = Ok tt w' ∧
    list_at w' this l2 c2 p' ∧
    list_at w' that l2 c2 p2 ∧
    p' ≠ p2 ∧
    (p' = p1 ∨ heap w' !! p1 = None).
Proof.
  intros Hl1 Hl2 Hne Hpne Hfuel.
  destruct (wp_returns _ _ _ _ _
              (assign_spec fuel w this that l1 c1 p1 l2 c2 p2 no_throw
                 Hl1 Hl2 Hne Hpne Hfuel))
    as ([] & w' & Hrun & p' & Hup & _); [by intros ? ? []|].
  exists w', p'. split; [done|].
  split; [eapply updated_list_at; [done|by destruct Hl2]|].
  split; [by eapply updated_frame|].
  destruct Hup as (junk & _ & Hh & _ & Hp'). split.
  - intros ->. destruct Hp' as [?|Hn]; [done|].
    destruct Hl2 as [_ (j & Hb & _) _]. by rewrite Hb in Hn.
  - destruct (decide (p' = p1)) as [|Hd]; [by left|right].
    by rewrite Hh, lookup_insert_ne, lookup_delete_eq.
Qed.

(** X15.  Move assignment between two different lists (each owning its buffer):
    the receiver releases its buffer and takes over the fields of the
    argument, buffer included; the argument is left an empty list of the
    initial capacity with a new buffer. *)
Theorem move_assignment fuel (w : W) this that l1 c1 p1 l2 c2 p2 :
  list_at w this l1 c1 p1 → list_at w that l2 c2 p2 →
  this ≠ that → p1 ≠ p2 →
  ∃ w' q,
    move_assign this that fuel w = Ok tt w' ∧
    list_at w' this l2 c2 p2 ∧
    list_at w' that [] INIT_CAPACITY q ∧
    q ≠ p2 ∧
    (q = p1 ∨ heap w' !! p1 = None).
Proof.
  intros Hl1 [Ho2 (j2 & Hb2 & Hlen2) Hcap2] Hne Hpne.
  destruct (wp_returns _ _ _ _ _
              (move_assign_spec fuel w this that l1 c1 p1 _ no_throw Hl1 Ho2 Hne))
    as ([] & w' & Hrun & Hpost); [by intros ? ? []|].
  simpl in Hpost. subst w'.
  set (q := fresh (dom (delete p1 (heap w)))).
  assert (delete p1 (heap w) !! q = None) as Hq by (apply not_elem_of_dom, is_fresh).
  assert (q ≠ p2) as Hqne.
  { intros Heq. rewrite Heq, lookup_delete_ne, Hb2 in Hq; done. }
  eexists. exists q. split; [done|]. split; [|split; [|split; [done|]]].
  - split; simpl; [by rewrite lookup_insert_ne, lookup_insert_eq| |done].
    exists j2. by rewrite lookup_insert_ne, lookup_delete_ne.
  - split; simpl; [by rewrite lookup_insert_eq| |unfold INIT_CAPACITY; int_lia].
    exists (replicate (Z.to_nat INIT_CAPACITY) None). by rewrite lookup_insert_eq.
  - destruct (decide (q = p1)) as [|Hd]; [by left|right]. simpl.
    by rewrite lookup_insert_ne, lookup_delete_eq.
Qed.

(** ** reverse and swap *)

(** X16.  reverse leaves the elements in the opposite order, in the same buffer
    and with the same capacity; reversing twice gives back the original
    contents. *)
Theorem reverse_in_place fuel (w : W) this l cap p :
  list_at w this l cap p → (length l < fuel)%nat →
  ∃ w' w'',
    reverse this fuel w = Ok tt w' ∧
    list_at w' this (rev l) cap p ∧
    reverse this fuel w' = Ok tt w'' ∧
    list_at w'' this l cap p.
Proof.
  intros Hl Hfuel. pose proof (la_cap _ _ _ _ _ Hl) as Hcap.
  destruct (wp_returns _ _ _ _ _ (reverse_spec fuel w this l cap p no_throw Hl Hfuel))
    as ([] & w' & Hrun & Hup & _); [by intros ? ? []|].
  pose proof (updated_list_at _ _ _ _ _ _ _ Hup Hcap) as Hl'.
  destruct (wp_returns _ _ _ _ _
              (reverse_spec fuel w' this (rev l) cap p no_throw Hl'
                 ltac:(by rewrite length_rev)))
    as ([] & w'' & Hrun' & Hup' & _); [by intros ? ? []|].
  rewrite rev_involutive in Hup'.
  exists w', w''. split; [done|]. split; [done|]. split; [done|].
  by eapply updated_list_at.
Qed.

(** X17.  swap exchanges the contents, the capacities and the buffers of the two
    lists by exchanging their fields: no element is copied and no buffer is
    touched. *)
Theorem swap_exchanges fuel (w : W) this that l1 c1 p1 l2 c2 p2 :
  list_at w this l1 c1 p1 → list_at w that l2 c2 p2 →
  ∃ w',
    swap this that fuel w = Ok tt w' ∧
    list_at w' this l2 c2 p2 ∧
    list_at w' that l1 c1 p1 ∧
    heap w' = heap w ∧
    (∀ b, b ≠ this → b ≠ that → objs w' !! b = objs w !! b).
Proof.
  intros [Ho1 Hb1 Hcap1] [Ho2 Hb2 Hcap2].
  destruct (wp_returns _ _ _ _ _ (swap_spec fuel w this that _ _ no_throw Ho1 Ho2))
    as ([] & w' & Hrun & ->); [by intros ? ? []|].
  eexists. split; [done|]. split; [|split; [|split; [done|]]].
  - split; simpl; [|done|done].
    destruct (decide (this = that)) as [->|Hne].
    + rewrite lookup_insert_eq. congruence.
    + by rewrite lookup_insert_ne, lookup_insert_eq.
  - split; simpl; [|done|done]. by rewrite lookup_insert_eq.
  - intros b Hb Hb'. simpl. by rewrite !lookup_insert_ne.
Qed.

(** ** min and max *)

(** X18.  On an empty list min and max throw EmptyContainer.  On any other list,
    the element type's [>] and [<] being strict weak orderings, min returns
    the earliest element of the list that is greater than none of its
    elements (every element before it is greater than it) and max the
    earliest one that is less than none of them; the store is as before. *)
Theorem min_max_extremes (greater less : T → T → bool) fuel (w : W) this l cap p :
  strict_weak greater → strict_weak less →
  list_at w this l cap p → (length l < fuel)%nat →
  (l = [] →
   min greater this fuel w = Throw EmptyContainer w ∧
   max less this fuel w = Throw EmptyContainer w) ∧
  (l ≠ [] →
   ∃ lo hi (i j : nat),
     min greater this fuel w = Ok lo w ∧
     l !! i = Some lo ∧
     (∀ y, y ∈ l → greater lo y = false) ∧
     (∀ (m : nat) y, (m < i)%nat → l !! m = Some y → greater y lo = true) ∧
     max less this fuel w = Ok hi w ∧
     l !! j = Some hi ∧
     (∀ y, y ∈ l → less hi y = false) ∧
     (∀ (m : nat) y, (m < j)%nat → l !! m = Some y → less y hi = true)).
Proof.
  intros Hgt Hlt Hl Hfuel. split.
  - intros ->. split; [by eapply min_empty|].
    change (max less this) with (min less this). by eapply min_empty.
  - intros Hne.
    destruct (wp_returns _ _ _ _ _
                (min_spec greater Hgt fuel w this l cap p no_throw Hl Hne Hfuel))
      as (lo & w1 & Hrun1 & -> & i & Hlo & Hleast & Hfirst); [by intros ? ? []|].
    destruct (wp_returns _ _ _ _ _
                (min_spec less Hlt fuel w this l cap p no_throw Hl Hne Hfuel))
      as (hi & w2 & Hrun2 & -> & j & Hhi & Hmost & Hfirst'); [by intros ? ? []|].
    by exists lo, hi, i, j.
Qed.

(** ** sort and uniquify on lists they have nothing to do with *)

Lemma sorted_no_exchange (cmp : T → T → bool) (l l' : list T) :
  sorted_by cmp l → exchange cmp l l' → False.
Proof.
  intros Hsorted (l1 & a & b & l2 & -> & _ & Hba).
  assert (cmp b a = false) as Hn; [|congruence].
  apply (Hsorted (length l1) (S (length l1)) a b); [lia|lia| |].
  - by rewrite lookup_app_r, Nat.sub_diag by lia.
  - rewrite lookup_app_r by lia. by replace (S (length l1) - length l1)%nat with 1%nat by lia.
Qed.

Lemma sorted_exchanges (cmp : T → T → bool) (l l' : list T) :
  sorted_by cmp l → rtc (exchange cmp) l l' → l' = l.
Proof.
  intros Hsorted Hrtc. destruct Hrtc as [|l l1 l' Hstep _]; [done|].
  by destruct (sorted_no_exchange cmp l l1).
Qed.

(** X19.  sort leaves a list that is already sorted under the comparator exactly
    as it is; so sorting a second time changes nothing. *)
Theorem sort_keeps_sorted (cmp : T → T → bool) fuel (w : W) this l cap p :
  strict_weak cmp → list_at w this l cap p → (length l < fuel)%nat →
  (sorted_by cmp l →
   ∃ w', sort this cmp fuel w = Ok tt w' ∧ list_at w' this l cap p) ∧
  (∃ w' l' w'',
     sort this cmp fuel w = Ok tt w' ∧ list_at w' this l' cap p ∧
     sort this cmp fuel w' = Ok tt w'' ∧ list_at w'' this l' cap p).
Proof.
  intros Hcmp Hl Hfuel. pose proof (la_cap _ _ _ _ _ Hl) as Hcap.
  destruct (wp_returns _ _ _ _ _ (sort_spec cmp fuel w this l cap p no_throw Hcmp Hl Hfuel))
    as ([] & w' & Hrun & l' & Hup & _ & Hex & Hsorted); [by intros ? ? []|].
  pose proof (updated_list_at _ _ _ _ _ _ _ Hup Hcap) as Hl'.
  split.
  - intros Hs. exists w'. split; [done|].
    by rewrite (sorted_exchanges cmp l l' Hs Hex) in Hl'.
  - assert (length l' = length l) as Hlen by (by eapply exchanges_length).
    destruct (wp_returns _ _ _ _ _
                (sort_spec cmp fuel w' this l' cap p no_throw Hcmp Hl' ltac:(lia)))
      as ([] & w'' & Hrun' & l'' & Hup' & _ & Hex' & _); [by intros ? ? []|].
    exists w', l', w''. split; [done|]. split; [done|]. split; [done|].
    rewrite (sorted_exchanges cmp l' l'' Hsorted Hex') in Hup'.
    by eapply updated_list_at.
Qed.

Lemma length_keep_last (l : list T) : (length (keep_last l) ≤ length l)%nat.
Proof. induction l as [|x l IH]; simpl; [done|]. case_decide; simpl; lia. Qed.

(** X20.  uniquify leaves a list without duplicates exactly as it is; so a second
    uniquify changes nothing. *)
Theorem uniquify_keeps_distinct fuel (w : W) this l cap p :
  list_at w this l cap p → (length l < fuel)%nat →
  (NoDup l →
   ∃ w', uniquify this fuel w = Ok tt w' ∧ list_at w' this l cap p) ∧
  (∃ w' w'',
     uniquify this fuel w = Ok tt w' ∧ list_at w' this (keep_last l) cap p ∧
     uniquify this fuel w' = Ok tt w'' ∧ list_at w'' this (keep_last l) cap p).
Proof.
  intros Hl Hfuel. pose proof (la_cap _ _ _ _ _ Hl) as Hcap.
  destruct (wp_returns _ _ _ _ _ (uniquify_spec fuel w this l cap p no_throw Hl Hfuel))
    as ([] & w' & Hrun & Hup & _); [by intros ? ? []|].
  pose proof (updated_list_at _ _ _ _ _ _ _ Hup Hcap) as Hl'.
  split.
  - intros Hnd. exists w'. split; [done|]. by rewrite (keep_last_id l Hnd) in Hl'.
  - pose proof (length_keep_last l) as Hlen.
    destruct (wp_returns _ _ _ _ _
                (uniquify_spec fuel w' this (keep_last l) cap p no_throw Hl' ltac:(lia)))
      as ([] & w'' & Hrun' & Hup' & _); [by intros ? ? []|].
    rewrite (keep_last_id (keep_last l) (keep_last_NoDup l)) in Hup'.
    exists w', w''. split; [done|]. split; [done|]. split; [done|].
    by eapply updated_list_at.
Qed.

(** ** The operators that produce a new list *)

Lemma same_store_list_at (w w' : W) a l cap p :
  objs w' = objs w → heap w' = heap w → list_at w a l cap p → list_at w' a l cap p.
Proof.
  intros Ho Hh [Hobj (junk & Hb & Hlen) Hcap].
  split; [by rewrite Ho| |done]. exists junk. by rewrite Hh.
Qed.

(** X21.  [list + element] returns a new list, at an address and in a buffer that
    were free, holding the elements of the receiver followed by the element;
    the receiver and every other object are as before, and the temporary
    copy the operator works on is gone.  On a receiver of MAX_CAPACITY
    elements it throws CapacityExceeded, and the objects and buffers are
    those there were. *)
Theorem plus_element_new_list fuel (w : W) this l cap p element x :
  list_at w this l cap p → ref_val w element x → (S (length l) < fuel)%nat →
  (Z.of_nat (length l) < MAX_CAPACITY →
   ∃ b w' cb qb,
     plus this element fuel w = Ok b w' ∧
     created w b (l ++ [x]) cb qb w' ∧
     list_at w' b (l ++ [x]) cb qb ∧
     list_at w' this l cap p) ∧
  (Z.of_nat (length l) = MAX_CAPACITY →
   ∃ w', plus this element fuel w = Throw CapacityExceeded w' ∧
         objs w' = objs w ∧ heap w' = heap w).
Proof.
  intros Hl Hx Hfuel.
  pose proof (plus_spec fuel w this l cap p element x Hl Hx Hfuel) as Hwp.
  split.
  - intros Hlt.
    destruct (wp_returns _ _ _ _ _ Hwp) as (b & w' & Hrun & l' & cb & qb & Hcr & Hcb & ->).
    { intros e w' ((_ & ?) & _). lia. }
    exists b, w', cb, qb. split; [done|]. split; [done|].
    split; [by eapply created_list_at|by eapply created_frame].
  - intros Hfull.
    destruct (wp_throws _ _ _ _ _ Hwp) as (e & w' & Hrun & (-> & _) & Ho & Hh).
    { intros b w' (l' & cb & qb & Hcr & Hcb & ->).
      destruct Hcr as (junk & _ & _ & _ & _ & Hlen). rewrite length_app in Hlen.
      simpl in Hlen. lia. }
    by exists w'.
Qed.

(** X22.  [list1 + list2] (the two may be the same list) returns a new list
    holding the elements of the first followed by those of the second, and
    leaves both operands as they are; when the two lengths add up to more
    than MAX_CAPACITY it throws CapacityExceeded, and the objects and
    buffers are those there were. *)
Theorem plus_list_new_list fuel (w : W) this list l1 c1 p1 l2 c2 p2 :
  list_at w this l1 c1 p1 → list_at w list l2 c2 p2 →
  (length l1 < fuel)%nat →
  (Z.to_nat (Z.min (Z.of_nat (length l1 + length l2)) MAX_CAPACITY) < fuel)%nat →
  (Z.of_nat (length l1 + length l2) ≤ MAX_CAPACITY →
   ∃ b w' cb qb,
     plus_list this list fuel w = Ok b w' ∧
     created w b (l1 ++ l2) cb qb w' ∧
     list_at w' b (l1 ++ l2) cb qb ∧
     list_at w' this l1 c1 p1 ∧
     list_at w' list l2 c2 p2) ∧
  (Z.of_nat (length l1 + length l2) > MAX_CAPACITY →
   ∃ w', plus_list this list fuel w = Throw CapacityExceeded w' ∧
         objs w' = objs w ∧ heap w' = heap w).
Proof.
  intros Hl1 Hl2 Hf1 Hf2.
  pose proof (plus_list_spec fuel w this list l1 c1 p1 l2 c2 p2 Hl1 Hl2 Hf1 Hf2) as Hwp.
  split.
  - intros Hfit.
    destruct (wp_returns _ _ _ _ _ Hwp) as (b & w' & Hrun & l' & cb & qb & Hcr & Hcb & ->).
    { intros e w' ((_ & ?) & _). lia. }
    exists b, w', cb, qb. split; [done|]. split; [done|].
    split; [by eapply created_list_at|].
    split; by eapply created_frame.
  - intros Hover.
    destruct (wp_throws _ _ _ _ _ Hwp) as (e & w' & Hrun & (-> & _) & Ho & Hh).
    { intros b w' (l' & cb & qb & Hcr & Hcb & ->).
      destruct Hcr as (junk & _ & _ & _ & _ & Hlen). rewrite length_app in Hlen. lia. }
    by exists w'.
Qed.

(** X23.  [list - element] never throws: it returns a new list holding the
    elements of the receiver without the first occurrence of the element
    (all of them when it does not occur), and leaves the receiver as it
    is. *)
Theorem minus_element_new_list fuel (w : W) this l cap p element x :
  list_at w this l cap p → ref_val w element x → (length l < fuel)%nat →
  ∃ b w' cb qb,
    minus this element fuel w = Ok b w' ∧
    created w b (remove_first x l) cb qb w' ∧
    list_at w' b (remove_first x l) cb qb ∧
    list_at w' this l cap p ∧
    (x ∉ l → remove_first x l = l).
Proof.
  intros Hl Hx Hfuel.
  destruct (wp_returns _ _ _ _ _ (minus_spec fuel w this l cap p element x Hl Hx Hfuel))
    as (b & w' & Hrun & l' & cb & qb & Hcr & Hcb & ->); [by intros e w' [[] _]|].
  exists b, w', cb, qb. split; [done|]. split; [done|].
  split; [by eapply created_list_at|]. split; [by eapply created_frame|].
  intros Hno. apply remove_first_absent. intros i Hi. destruct Hno.
  by eapply list_elem_of_lookup_2.
Qed.

(** X24.  [list * times] and [times * list] do the same: for [times < 0] they
    throw InvalidArgument; for [times ≥ 0] with
    [times * length ≤ MAX_CAPACITY] they return a new list holding [times]
    copies of the receiver's elements, the receiver being left as it is;
    otherwise they throw CapacityExceeded.  When they throw, the objects
    and buffers are those there were. *)
Theorem times_new_list fuel (w : W) this l cap p n :
  list_at w this l cap p → n ≤ INT_MAX →
  (Z.to_nat n < fuel)%nat → (length l < fuel)%nat →
  (Z.to_nat (Z.min (n * Z.of_nat (length l)) MAX_CAPACITY) < fuel)%nat →
  times_left n this fuel w = times this n fuel w ∧
  (n < 0 →
   ∃ w', times this n fuel w = Throw InvalidArgument w' ∧
         objs w' = objs w ∧ heap w' = heap w) ∧
  (0 ≤ n → n * Z.of_nat (length l) ≤ MAX_CAPACITY →
   ∃ b w' cb qb,
     times this n fuel w = Ok b w' ∧
     created w b (copies (Z.to_nat n) l) cb qb w' ∧
     list_at w' b (copies (Z.to_nat n) l) cb qb ∧
     list_at w' this l cap p) ∧
  (0 ≤ n → n * Z.of_nat (length l) > MAX_CAPACITY →
   ∃ w', times this n fuel w = Throw CapacityExceeded w' ∧
         objs w' = objs w ∧ heap w' = heap w).
Proof.
  intros Hl Hn Hf1 Hf2 Hf3.
  pose proof (times_spec fuel w this l cap p n Hl Hn Hf1 Hf2 Hf3) as Hwp.
  split; [done|]. split; [|split].
  - intros Hneg.
    destruct (wp_throws _ _ _ _ _ Hwp) as (e & w' & Hrun & [(-> & _)|(_ & ? & _)] & Ho & Hh);
      [|by exists w'|lia].
    intros b w' (l' & cb & qb & _ & _ & ? & _). lia.
  - intros Hpos Hfit.
    destruct (wp_returns _ _ _ _ _ Hwp)
      as (b & w' & Hrun & l' & cb & qb & Hcr & Hcb & _ & _ & ->).
    { intros e w' ([(_ & ?)|(_ & _ & ?)] & _); lia. }
    exists b, w', cb, qb. split; [done|]. split; [done|].
    split; [by eapply created_list_at|by eapply created_frame].
  - intros Hpos Hover.
    destruct (wp_throws _ _ _ _ _ Hwp) as (e & w' & Hrun & [(_ & ?)|(-> & _)] & Ho & Hh);
      [|lia|by exists w'].
    intros b w' (l' & cb & qb & _ & _ & _ & ? & _). lia.
Qed.

(** ** slice with a step of 0 or -1 *)

Lemma slice_picks_backwards (l : list T) (n : nat) :
  (n ≤ length l)%nat →
  slice_picks l (-1 + Z.of_nat (length l)) (-1) n = rev (drop (length l - n) l).
Proof.
  induction n as [|n IH]; intros Hn.
  - by rewrite Nat.sub_0_r, drop_all.
  - destruct (lookup_lt_is_Some_2 l (length l - S n)%nat) as [x Hx]; [lia|].
    rewrite (slice_picks_S _ _ _ _ x), IH by
      (try lia; by replace (Z.to_nat (-1 + Z.of_nat (length l) + Z.of_nat n * -1))
                     with (length l - S n)%nat by lia).
    rewrite (drop_S l x (length l - S n) Hx). simpl.
    by replace (S (length l - S n)) with (length l - n)%nat by lia.
Qed.

Lemma sliced_backwards (l : list T) :
  l ≠ [] → sliced l (-1) (- Z.of_nat (length l) - 1) (-1) = rev l.
Proof.
  intros Hne. assert (0 < length l)%nat by (destruct l; [done|simpl; lia]).
  unfold sliced. rewrite !decide_True by lia.
  replace (slice_count (-1 + Z.of_nat (length l))
             (- Z.of_nat (length l) - 1 + Z.of_nat (length l)) (-1)) with (length l).
  - by rewrite slice_picks_backwards, Nat.sub_diag, drop_0.
  - unfold slice_count. rewrite decide_False by lia.
    replace (- -1) with 1 by lia. rewrite Z.div_1_r. lia.
Qed.

(** X25.  slice refuses a step of 0 with InvalidArgument before it looks at
    anything else; and on a list that is not empty,
    [slice(-1, -length - 1, -1)] returns a new list holding the elements in
    the opposite order, the receiver being left as it is. *)
Theorem slice_steps fuel (w : W) this l cap p :
  list_at w this l cap p → (length l < fuel)%nat →
  (∀ start stop, slice this start stop 0 fuel w = Throw InvalidArgument w) ∧
  (l ≠ [] →
   ∃ a w' ca qa,
     slice this (-1) (- Z.of_nat (length l) - 1) (-1) fuel w = Ok a w' ∧
     created w a (rev l) ca qa w' ∧
     list_at w' a (rev l) ca qa ∧
     list_at w' this l cap p).
Proof.
  intros Hl Hfuel. split.
  - intros start stop. unfold slice. by rewrite decide_True.
  - intros Hne. assert (0 < length l)%nat by (destruct l; [done|simpl; lia]).
    pose proof (list_at_lookup _ _ _ _ _ Hl) as [_ Hmax].
    destruct (wp_returns _ _ _ _ _
                (slice_spec fuel w this l cap p (-1) (- Z.of_nat (length l) - 1) (-1)
                   Hl ltac:(int_lia) ltac:(int_lia) Hfuel))
      as (a & w' & Hrun & _ & _ & ca & qa & Hcr & Hca).
    { intros e w' (_ & [[_ ?]|(_ & _ & Hout)]); [done|]. apply Hout. lia. }
    rewrite sliced_backwards in Hcr by done.
    exists a, w', ca, qa. split; [done|]. split; [done|].
    split; [by eapply created_list_at|by eapply created_frame].
Qed.

(** ** The default constructor and the constructor from an initializer list *)

(** X26.  List() builds an empty list of the initial capacity, for which
    is_empty answers true; List{...} given at most MAX_CAPACITY elements
    builds a list holding them in order, of capacity
    max(number of elements, initial capacity), for which size answers their
    number.  Both put the new object and its buffer where nothing was and
    leave the rest of the store alone. *)
Theorem constructors_build fuel (w : W) (il : list T) :
  (∃ a w' q,
     List_new fuel w = Ok a w' ∧
     created w a [] INIT_CAPACITY q w' ∧
     list_at w' a [] INIT_CAPACITY q ∧
     is_empty a fuel w' = Ok true w') ∧
  (Z.of_nat (length il) ≤ MAX_CAPACITY → (length il < fuel)%nat →
   ∃ a w' q,
     List_of il fuel w = Ok a w' ∧
     created w a il (Z.max (Z.of_nat (length il)) INIT_CAPACITY) q w' ∧
     list_at w' a il (Z.max (Z.of_nat (length il)) INIT_CAPACITY) q ∧
     size a fuel w' = Ok (Z.of_nat (length il)) w' ∧
     is_empty a fuel w' = Ok (bool_decide (il = [])) w').
Proof.
  split.
  - destruct (wp_returns _ _ _ _ _ (List_new_spec fuel w no_throw))
      as (a & w' & Hrun & -> & _ & Hcr); [by intros ? ? []|].
    assert (list_at w' (fresh (dom (objs w))) [] INIT_CAPACITY (fresh (dom (heap w))))
      as Hla by (eapply created_list_at; [done|unfold INIT_CAPACITY; int_lia]).
    eexists _, w', _. split; [done|]. split; [done|]. split; [done|].
    destruct Hla as [Ho _ _]. unfold is_empty, bind, get_size, bind, get_obj.
    by rewrite Ho.
  - intros Hlen Hfuel.
    destruct (wp_returns _ _ _ _ _
                (List_of_spec fuel w il no_throw ltac:(int_lia) Hfuel))
      as (a & w' & Hrun & -> & _ & Hcr); [by intros ? ? []|].
    assert (list_at w' (fresh (dom (objs w))) il
              (Z.max (Z.of_nat (length il)) INIT_CAPACITY) (fresh (dom (heap w))))
      as Hla by (eapply created_list_at; [done|unfold INIT_CAPACITY; int_lia]).
    eexists _, w', _. split; [done|]. split; [done|]. split; [done|].
    destruct Hla as [Ho _ _]. unfold size, is_empty, bind, get_size, bind, get_obj.
    rewrite Ho. simpl. split; [done|]. unfold ret. do 2 f_equal.
    apply bool_decide_ext. destruct il; simpl; [done|]. split; [lia|done].
Qed.

(** ** traverse *)

(** X27.  traverse hands every element to the action once, from the first to
    the last: (1) with an action that appends its argument to another list,
    that list ends up with the elements of the traversed list behind its
    own, in their order, and the traversed list is as before; (2) with an
    action that replaces its argument by [f] of it the list ends up holding
    [f] of every element, in the same buffer; (3) with an action that only
    reads the store is as before. *)
Theorem traverse_visits_every_element (f : T → T) fuel (w : W) this l cap p :
  list_at w this l cap p → (length l < fuel)%nat →
  (∀ log l0 c0 p0,
     list_at w log l0 c0 p0 → log ≠ this → p0 ≠ p →
     Z.of_nat (length l0 + length l) ≤ MAX_CAPACITY →
     (length l0 + length l < fuel)%nat →
     ∃ w' c' p',
       traverse this (append log) fuel w = Ok tt w' ∧
       list_at w' log (l0 ++ l) c' p' ∧
       list_at w' this l cap p) ∧
  (∃ w', traverse this (update_with f) fuel w = Ok tt w' ∧
         list_at w' this (f <$> l) cap p) ∧
  traverse this read_only fuel w = Ok tt w.
Proof.
  intros Hl Hfuel. split; [|split].
  - intros log l0 c0 p0 Hlog Hne Hpne Hsum Hfuel'.
    pose proof (la_cap _ _ _ _ _ Hlog) as Hc0.
    change (traverse this (append log)) with (append_all (T := T) log this).
    destruct (wp_returns _ _ _ _ _
                (append_all_spec fuel w log this l0 c0 p0 l cap p Hlog Hl Hne Hpne
                   ltac:(lia)))
      as ([] & w' & Hrun & _ & c' & p' & Hup & Hc').
    { intros e w' (_ & Hover & _). lia. }
    exists w', c', p'. split; [done|].
    split; [eapply updated_list_at; [done|lia]|].
    eapply updated_frame; [done| | |done]; congruence.
  - destruct (wp_returns _ _ _ _ _
                (traverse_update_spec f fuel w this l cap p no_throw Hl Hfuel))
      as ([] & w' & Hrun & Hup & _); [by intros ? ? []|].
    exists w'. split; [done|]. eapply updated_list_at; [done|by destruct Hl].
  - apply wp_returns_exactly.
    eapply wp_post; [by eapply traverse_read_spec|]. by intros [] w' ->.
Qed.

(** ** operator+=(const List&) between two lists *)

(** X28.  [this += list] for two different lists (each owning its buffer) appends
    the elements of the argument, which it leaves alone.  It is not
    all-or-nothing: when the two lengths add up to more than MAX_CAPACITY
    it throws CapacityExceeded with the receiver filled up to MAX_CAPACITY
    elements, its own followed by the first elements of the argument. *)
Theorem concatenate_appends_all fuel (w : W) this list l1 c1 p1 l2 c2 p2 :
  list_at w this l1 c1 p1 → list_at w list l2 c2 p2 →
  this ≠ list → p1 ≠ p2 →
  (Z.to_nat (Z.min (Z.of_nat (length l1 + length l2)) MAX_CAPACITY) < fuel)%nat →
  (Z.of_nat (length l1 + length l2) ≤ MAX_CAPACITY →
   ∃ w' c' p',
     concatenate this list fuel w = Ok tt w' ∧
     list_at w' this (l1 ++ l2) c' p' ∧
     list_at w' list l2 c2 p2 ∧
     c1 ≤ c') ∧
  (Z.of_nat (length l1 + length l2) > MAX_CAPACITY →
   ∃ w' (k : nat) c' p',
     concatenate this list fuel w = Throw CapacityExceeded w' ∧
     Z.of_nat (length l1 + k) = MAX_CAPACITY ∧
     list_at w' this (l1 ++ take k l2) c' p' ∧
     list_at w' list l2 c2 p2).
Proof.
  intros Hl1 Hl2 Hne Hpne Hfuel.
  pose proof (concatenate_other_spec fuel w this list l1 c1 p1 l2 c2 p2
                Hl1 Hl2 Hne Hpne Hfuel) as Hwp.
  pose proof (la_cap _ _ _ _ _ Hl1) as Hcap.
  split.
  - intros Hfit.
    destruct (wp_returns _ _ _ _ _ Hwp) as ([] & w' & Hrun & _ & c' & p' & Hup & Hc').
    { intros e w' (_ & ? & _). lia. }
    exists w', c', p'. split; [done|].
    split; [eapply updated_list_at; [done|lia]|].
    split; [eapply updated_frame; [done| | |done]; congruence|lia].
  - intros Hover.
    destruct (wp_throws _ _ _ _ _ Hwp)
      as (e & w' & Hrun & -> & _ & k & c' & p' & Hk & Hup & Hc').
    { intros [] w' (? & _). lia. }
    exists w', k, c', p'. split; [done|]. split; [done|].
    split; [eapply updated_list_at; [done|lia]|].
    eapply updated_frame; [done| | |done]; congruence.
Qed.

(** ** insert and operator+=(const T&) given an element of the list itself *)

(** X30.  [c.insert(index, c[i])] and [c += c[i]]: the element is passed as a
    reference to the slot [i] of the list.  (1) On a list whose length
    equals its capacity, below MAX_CAPACITY, both calls read the buffer
    that the expansion has released.  (2) With room left, insert reads the
    element after it has moved up the elements from the position [k] of
    the insertion on: what it inserts is the element of the slot [i] when
    [i ≤ k], and the element before it when [k < i].  (3) With room left,
    [c += c[i]] appends the element of the slot [i]. *)
Theorem insert_own_element fuel (w : W) this l cap p index (i : nat) x :
  list_at w this l cap p →
  - Z.of_nat (length l) ≤ index ≤ Z.of_nat (length l) →
  l !! i = Some x →
  (length l < fuel)%nat →
  (Z.of_nat (length l) = cap → cap < MAX_CAPACITY →
   insert this index (Slot p (Z.of_nat i)) fuel w = Fault Dangling ∧
   append this (Slot p (Z.of_nat i)) fuel w = Fault Dangling) ∧
  (Z.of_nat (length l) < cap →
   (∃ w' y,
      l !! (if decide (i ≤ resolve index (length l))%nat then i else pred i) = Some y ∧
      insert this index (Slot p (Z.of_nat i)) fuel w = Ok tt w' ∧
      list_at w' this (inserted (resolve index (length l)) y l) cap p) ∧
   (∃ w',
      append this (Slot p (Z.of_nat i)) fuel w = Ok tt w' ∧
      list_at w' this (l ++ [x]) cap p)).
Proof.
  intros Hl Hidx Hx Hfuel.
  pose proof (lookup_lt_Some _ _ _ Hx) as Hi.
  pose proof (resolve_le index (length l) Hidx) as Hk.
  split.
  - intros Hfull Hmax. split; [by eapply insert_own_slot_full|].
    unfold append. apply faults_bind.
    eapply wp_get_size; [by destruct Hl|]. simpl.
    eapply insert_own_slot_full; [done|done|done|lia|done].
  - intros Hroom. split.
    + destruct (lookup_lt_is_Some_2 l
                  (if decide (i ≤ resolve index (length l))%nat then i else pred i))
        as [y Hy]; [case_decide; lia|].
      destruct (wp_returns _ _ _ _ _
                  (insert_own_slot_room fuel w this l cap p index i y no_throw
                     Hl Hroom Hidx Hi Hy Hfuel))
        as ([] & w' & Hrun & Hpost); [by intros ? ? []|].
      exists w', y. split; [done|]. split; [done|]. by eapply insert_post_room.
    + assert (resolve (Z.of_nat (length l)) (length l) = length l) as Hres
        by apply resolve_nat.
      destruct (wp_returns _ _ _ _ _
                  (insert_own_slot_room fuel w this l cap p (Z.of_nat (length l)) i x
                     no_throw Hl Hroom ltac:(lia) Hi
                     ltac:(rewrite Hres, decide_True by lia; done) Hfuel))
        as ([] & w' & Hrun & Hpost); [by intros ? ? []|].
      exists w'. split.
      * unfold append, bind. destruct Hl as [Ho ? ?].
        unfold get_size, bind, get_obj. rewrite Ho. simpl. exact Hrun.
      * rewrite Hres in Hpost. rewrite <-inserted_end.
        by eapply insert_post_room.
Qed.

End Further.

(** * The further properties on concrete lists *)

Lemma list_123 :
  list_at (world_with [1; 2; 3]) 1%positive [1; 2; 3] 4 1%positive.
Proof. concrete_list [@None Z]. Qed.

Lemma list_121 :
  list_at (world_with [1; 2; 1]) 1%positive [1; 2; 1] 4 1%positive.
Proof. concrete_list [@None Z]. Qed.

Lemma list_empty :
  list_at (world_with (@nil Z)) 1%positive [] 4 1%positive.
Proof. concrete_list [@None Z; None; None; None]. Qed.

Lemma lists_123_78 :
  list_at (world_with2 [1; 2; 3] [7; 8]) 1%positive [1; 2; 3] 4 1%positive ∧
  list_at (world_with2 [1; 2; 3] [7; 8]) 2%positive [7; 8] 4 2%positive.
Proof. split; [concrete_list [@None Z]|concrete_list [@None Z; None]]. Qed.

Lemma list_1234 :
  list_at (world_with [1; 2; 3; 4]) 1%positive [1; 2; 3; 4] 4 1%positive.
Proof. concrete_list (@nil (option Z)). Qed.

Lemma greater_strict_weak : strict_weak Z.gtb.
Proof. split; intros; lia. Qed.

Lemma subscript_checked_witness :
  list_at (world_with [1; 2; 3]) 1%positive [1; 2; 3] 4 1%positive ∧
  subscript 1%positive (-1) 10%nat (world_with [1; 2; 3])
    = Ok (Slot 1%positive 2) (world_with [1; 2; 3]) ∧
  deref (Slot 1%positive 2) 10%nat (world_with [1; 2; 3]) = Ok 3 (world_with [1; 2; 3]) ∧
  subscript 1%positive 3 10%nat (world_with [1; 2; 3])
    = Throw IndexOutOfRange (world_with [1; 2; 3]).
Proof.
  split; [exact list_123|].
  destruct (subscript_checked 10%nat _ 1%positive [1; 2; 3] 4 1%positive (-1) list_123)
    as [Hin _].
  destruct Hin as (x & Hx & Hrun & Hread & _); [simpl; lia|].
  injection Hx as <-.
  destruct (subscript_checked 10%nat _ 1%positive [1; 2; 3] 4 1%positive 3 list_123)
    as [_ Hout].
  split; [exact Hrun|]. split; [exact Hread|]. apply Hout. simpl. lia.
Defined.

Lemma insert_refusals_witness :
  list_at (world_with [1; 2; 3]) 1%positive [1; 2; 3] 4 1%positive ∧
  insert 1%positive 5 (Val 9) 10%nat (world_with [1; 2; 3])
    = Throw IndexOutOfRange (world_with [1; 2; 3]).
Proof.
  split; [exact list_123|].
  apply (insert_refusals 10%nat _ 1%positive [1; 2; 3] 4 1%positive 5 (Val 9) list_123).
  - unfold MAX_CAPACITY, INT_MAX. simpl. lia.
  - simpl. lia.
Defined.

Lemma remove_refusals_witness :
  list_at (world_with (@nil Z)) 1%positive [] 4 1%positive ∧
  remove 1%positive 0 10%nat (world_with (@nil Z))
    = Throw EmptyContainer (world_with (@nil Z)) ∧
  list_at (world_with [1; 2; 3]) 1%positive [1; 2; 3] 4 1%positive ∧
  remove 1%positive (-4) 10%nat (world_with [1; 2; 3])
    = Throw IndexOutOfRange (world_with [1; 2; 3]).
Proof.
  split; [exact list_empty|]. split; [|split; [exact list_123|]].
  - by apply (remove_refusals 10%nat _ 1%positive [] 4 1%positive 0 list_empty).
  - apply (remove_refusals 10%nat _ 1%positive [1; 2; 3] 4 1%positive (-4) list_123).
    + discriminate.
    + simpl. lia.
Defined.

Lemma insert_then_read_and_remove_witness :
  list_at (world_with [1; 2; 3]) 1%positive [1; 2; 3] 4 1%positive ∧
  ∃ w1 cap' p' w2,
    insert 1%positive (-1) (Val 9) 10%nat (world_with [1; 2; 3]) = Ok tt w1 ∧
    deref (Slot p' 2) 10%nat w1 = Ok 9 w1 ∧
    remove 1%positive 2 10%nat w1 = Ok 9 w2 ∧
    list_at w2 1%positive [1; 2; 3] cap' p'.
Proof.
  split; [exact list_123|].
  destruct (insert_then_read_and_remove 10%nat _ 1%positive [1; 2; 3] 4 1%positive (-1)
              (Val 9) 9 list_123)
    as (w1 & cap' & p' & w2 & Hins & _ & Hread & Hrem & Hl & _);
    [reflexivity|unfold MAX_CAPACITY, INT_MAX; simpl; lia|simpl; lia|simpl; lia|].
  exists w1, cap', p', w2. split; [exact Hins|]. split; [exact Hread|].
  split; [exact Hrem|exact Hl].
Defined.

Lemma append_at_end_witness :
  list_at (world_with [1; 2; 3]) 1%positive [1; 2; 3] 4 1%positive ∧
  ∃ w', append 1%positive (Val 4) 10%nat (world_with [1; 2; 3]) = Ok tt w' ∧
        list_at w' 1%positive [1; 2; 3; 4] 4 1%positive.
Proof.
  split; [exact list_123|].
  destruct (append_at_end 10%nat _ 1%positive [1; 2; 3] 4 1%positive (Val 4) 4 list_123)
    as [Hok _]; [reflexivity|simpl; lia|].
  destruct Hok as (w' & cap' & p' & Hrun & Hl & _ & Hsame);
    [unfold MAX_CAPACITY, INT_MAX; simpl; lia|].
  destruct Hsame as [-> ->]; [simpl; lia|].
  exists w'. split; [exact Hrun|exact Hl].
Defined.

Lemma remove_value_first_occurrence_witness :
  list_at (world_with [1; 2; 1]) 1%positive [1; 2; 1] 4 1%positive ∧
  ∃ w', remove_value 1%positive (Val 1) 10%nat (world_with [1; 2; 1]) = Ok tt w' ∧
        list_at w' 1%positive [2; 1] 4 1%positive.
Proof.
  split; [exact list_121|].
  destruct (remove_value_first_occurrence 10%nat _ 1%positive [1; 2; 1] 4 1%positive
              (Val 1) 1 list_121)
    as (w' & Hrun & Hl & _); [reflexivity|simpl; lia|].
  exists w'. split; [exact Hrun|exact Hl].
Defined.

Lemma count_and_contains_witness :
  list_at (world_with [1; 2; 1]) 1%positive [1; 2; 1] 4 1%positive ∧
  count 1%positive (Val 1) 10%nat (world_with [1; 2; 1]) = Ok 2 (world_with [1; 2; 1]) ∧
  contains 1%positive (Val 1) find_default_start find_default_stop 10%nat
    (world_with [1; 2; 1]) = Ok true (world_with [1; 2; 1]).
Proof.
  split; [exact list_121|].
  destruct (count_and_contains 10%nat _ 1%positive [1; 2; 1] 4 1%positive (Val 1) 1
              list_121)
    as (Hcount & Hcontains & _); [reflexivity|simpl; lia|].
  split; [exact Hcount|exact Hcontains].
Defined.

Lemma equal_iff_same_contents_witness :
  list_at (world_with2 [1; 2; 3] [7; 8]) 1%positive [1; 2; 3] 4 1%positive ∧
  list_at (world_with2 [1; 2; 3] [7; 8]) 2%positive [7; 8] 4 2%positive ∧
  equal 1%positive 2%positive 10%nat (world_with2 [1; 2; 3] [7; 8])
    = Ok false (world_with2 [1; 2; 3] [7; 8]) ∧
  not_equal 1%positive 2%positive 10%nat (world_with2 [1; 2; 3] [7; 8])
    = Ok true (world_with2 [1; 2; 3] [7; 8]) ∧
  equal 1%positive 1%positive 10%nat (world_with2 [1; 2; 3] [7; 8])
    = Ok true (world_with2 [1; 2; 3] [7; 8]).
Proof.
  destruct lists_123_78 as [H1 H2]. split; [exact H1|]. split; [exact H2|].
  destruct (equal_iff_same_contents 10%nat _ 1%positive 2%positive [1; 2; 3] 4 1%positive
              [7; 8] 4 2%positive H1 H2)
    as [Heq Hne]; [simpl; lia|].
  destruct (equal_iff_same_contents 10%nat _ 1%positive 1%positive [1; 2; 3] 4 1%positive
              [1; 2; 3] 4 1%positive H1 H1)
    as [Hself _]; [simpl; lia|].
  split; [exact Heq|]. split; [exact Hne|exact Hself].
Defined.

Lemma copy_constructor_independent_witness :
  list_at (world_with [1; 2; 3]) 1%positive [1; 2; 3] 4 1%positive ∧
  ∃ a w' qa,
    List_copy 1%positive 10%nat (world_with [1; 2; 3]) = Ok a w' ∧
    list_at w' a [1; 2; 3] 4 qa ∧
    list_at w' 1%positive [1; 2; 3] 4 1%positive ∧
    equal a 1%positive 10%nat w' = Ok true w'.
Proof.
  split; [exact list_123|].
  destruct (copy_constructor_independent 10%nat _ 1%positive [1; 2; 3] 4 1%positive
              list_123)
    as (a & w' & qa & w'' & Hrun & _ & _ & _ & Hla & Hl & Heq & _); [simpl; lia|].
  exists a, w', qa. split; [exact Hrun|]. split; [exact Hla|]. split; [exact Hl|exact Heq].
Defined.

Lemma move_constructor_takes_buffer_witness :
  list_at (world_with [1; 2; 3]) 1%positive [1; 2; 3] 4 1%positive ∧
  ∃ a w' q',
    List_move 1%positive 10%nat (world_with [1; 2; 3]) = Ok a w' ∧
    list_at w' a [1; 2; 3] 4 1%positive ∧
    list_at w' 1%positive [] INIT_CAPACITY q'.
Proof.
  split; [exact list_123|].
  destruct (move_constructor_takes_buffer 10%nat _ 1%positive [1; 2; 3] 4 1%positive
              list_123)
    as (a & w' & q' & Hrun & _ & _ & _ & _ & Hla & Hl & _).
  exists a, w', q'. split; [exact Hrun|]. split; [exact Hla|exact Hl].
Defined.

Lemma copy_assignment_witness :
  list_at (world_with2 [1; 2; 3] [7; 8]) 1%positive [1; 2; 3] 4 1%positive ∧
  list_at (world_with2 [1; 2; 3] [7; 8]) 2%positive [7; 8] 4 2%positive ∧
  ∃ w' p',
    assign 1%positive 2%positive 10%nat (world_with2 [1; 2; 3] [7; 8]) = Ok tt w' ∧
    list_at w' 1%positive [7; 8] 4 p' ∧
    list_at w' 2%positive [7; 8] 4 2%positive.
Proof.
  destruct lists_123_78 as [H1 H2]. split; [exact H1|]. split; [exact H2|].
  destruct (copy_assignment 10%nat _ 1%positive 2%positive [1; 2; 3] 4 1%positive
              [7; 8] 4 2%positive H1 H2)
    as (w' & p' & Hrun & Hl1 & Hl2 & _); [discriminate|discriminate|simpl; lia|].
  exists w', p'. split; [exact Hrun|]. split; [exact Hl1|exact Hl2].
Defined.

Lemma move_assignment_witness :
  list_at (world_with2 [1; 2; 3] [7; 8]) 1%positive [1; 2; 3] 4 1%positive ∧
  list_at (world_with2 [1; 2; 3] [7; 8]) 2%positive [7; 8] 4 2%positive ∧
  ∃ w' q,
    move_assign 1%positive 2%positive 10%nat (world_with2 [1; 2; 3] [7; 8]) = Ok tt w' ∧
    list_at w' 1%positive [7; 8] 4 2%positive ∧
    list_at w' 2%positive [] INIT_CAPACITY q.
Proof.
  destruct lists_123_78 as [H1 H2]. split; [exact H1|]. split; [exact H2|].
  destruct (move_assignment 10%nat _ 1%positive 2%positive [1; 2; 3] 4 1%positive
              [7; 8] 4 2%positive H1 H2)
    as (w' & q & Hrun & Hl1 & Hl2 & _); [discriminate|discriminate|].
  exists w', q. split; [exact Hrun|]. split; [exact Hl1|exact Hl2].
Defined.

Lemma reverse_in_place_witness :
  list_at (world_with [1; 2; 3]) 1%positive [1; 2; 3] 4 1%positive ∧
  ∃ w', reverse 1%positive 10%nat (world_with [1; 2; 3]) = Ok tt w' ∧
        list_at w' 1%positive [3; 2; 1] 4 1%positive.
Proof.
  split; [exact list_123|].
  destruct (reverse_in_place 10%nat _ 1%positive [1; 2; 3] 4 1%positive list_123)
    as (w' & w'' & Hrun & Hl & _); [simpl; lia|].
  exists w'. split; [exact Hrun|exact Hl].
Defined.

Lemma swap_exchanges_witness :
  list_at (world_with2 [1; 2; 3] [7; 8]) 1%positive [1; 2; 3] 4 1%positive ∧
  list_at (world_with2 [1; 2; 3] [7; 8]) 2%positive [7; 8] 4 2%positive ∧
  ∃ w',
    swap 1%positive 2%positive 10%nat (world_with2 [1; 2; 3] [7; 8]) = Ok tt w' ∧
    list_at w' 1%positive [7; 8] 4 2%positive ∧
    list_at w' 2%positive [1; 2; 3] 4 1%positive.
Proof.
  destruct lists_123_78 as [H1 H2]. split; [exact H1|]. split; [exact H2|].
  destruct (swap_exchanges 10%nat _ 1%positive 2%positive [1; 2; 3] 4 1%positive
              [7; 8] 4 2%positive H1 H2)
    as (w' & Hrun & Hl1 & Hl2 & _).
  exists w'. split; [exact Hrun|]. split; [exact Hl1|exact Hl2].
Defined.

Lemma min_max_extremes_witness :
  strict_weak Z.gtb ∧ strict_weak Z.ltb ∧
  list_at (world_with [3; 1; 2]) 1%positive [3; 1; 2] 4 1%positive ∧
  min Z.gtb 1%positive 10%nat (world_with [3; 1; 2]) = Ok 1 (world_with [3; 1; 2]) ∧
  max Z.ltb 1%positive 10%nat (world_with [3; 1; 2]) = Ok 3 (world_with [3; 1; 2]).
Proof.
  assert (list_at (world_with [3; 1; 2]) 1%positive [3; 1; 2] 4 1%positive) as Hl
    by concrete_list [@None Z].
  split; [exact greater_strict_weak|]. split; [exact less_strict_weak|].
  split; [exact Hl|].
  destruct (min_max_extremes Z.gtb Z.ltb 10%nat _ 1%positive [3; 1; 2] 4 1%positive
              greater_strict_weak less_strict_weak Hl)
    as [_ Hsome]; [simpl; lia|].
  destruct Hsome as (lo & hi & i & j & Hmin & Hlo & Hleast & _ & Hmax & Hhi & Hmost & _);
    [discriminate|].
  assert (lo = 1) as ->.
  { pose proof (Hleast 1 ltac:(rewrite !elem_of_cons; auto)).
    destruct i as [|[|[|i]]]; simpl in Hlo; [| | |done]; injection Hlo as <-; lia. }
  assert (hi = 3) as ->.
  { pose proof (Hmost 3 ltac:(rewrite !elem_of_cons; auto)).
    destruct j as [|[|[|j]]]; simpl in Hhi; [| | |done]; injection Hhi as <-; lia. }
  split; [exact Hmin|exact Hmax].
Defined.

Lemma sorted_123 : sorted_by Z.ltb [1; 2; 3].
Proof.
  intros k k' a b Hk _ Ha Hb.
  destruct k as [|[|[|k]]], k' as [|[|[|k']]]; simpl in *; simplify_eq; try done; lia.
Qed.

Lemma sort_keeps_sorted_witness :
  strict_weak Z.ltb ∧
  list_at (world_with [1; 2; 3]) 1%positive [1; 2; 3] 4 1%positive ∧
  sorted_by Z.ltb [1; 2; 3] ∧
  ∃ w', sort 1%positive Z.ltb 10%nat (world_with [1; 2; 3]) = Ok tt w' ∧
        list_at w' 1%positive [1; 2; 3] 4 1%positive.
Proof.
  split; [exact less_strict_weak|]. split; [exact list_123|]. split; [exact sorted_123|].
  destruct (sort_keeps_sorted Z.ltb 10%nat _ 1%positive [1; 2; 3] 4 1%positive
              less_strict_weak list_123)
    as [Hsame _]; [simpl; lia|].
  exact (Hsame sorted_123).
Defined.

Lemma distinct_123 : NoDup [1; 2; 3].
Proof. by apply (bool_decide_unpack _). Qed.

Lemma uniquify_keeps_distinct_witness :
  list_at (world_with [1; 2; 3]) 1%positive [1; 2; 3] 4 1%positive ∧
  NoDup [1; 2; 3] ∧
  ∃ w', uniquify 1%positive 10%nat (world_with [1; 2; 3]) = Ok tt w' ∧
        list_at w' 1%positive [1; 2; 3] 4 1%positive.
Proof.
  split; [exact list_123|]. split; [exact distinct_123|].
  destruct (uniquify_keeps_distinct 10%nat _ 1%positive [1; 2; 3] 4 1%positive list_123)
    as [Hsame _]; [simpl; lia|].
  exact (Hsame distinct_123).
Defined.

Lemma plus_element_new_list_witness :
  list_at (world_with [1; 2; 3]) 1%positive [1; 2; 3] 4 1%positive ∧
  ∃ b w' cb qb,
    plus 1%positive (Val 4) 10%nat (world_with [1; 2; 3]) = Ok b w' ∧
    list_at w' b [1; 2; 3; 4] cb qb ∧
    list_at w' 1%positive [1; 2; 3] 4 1%positive.
Proof.
  split; [exact list_123|].
  destruct (plus_element_new_list 10%nat _ 1%positive [1; 2; 3] 4 1%positive (Val 4) 4
              list_123)
    as [Hok _]; [reflexivity|simpl; lia|].
  destruct Hok as (b & w' & cb & qb & Hrun & _ & Hlb & Hl);
    [unfold MAX_CAPACITY, INT_MAX; simpl; lia|].
  exists b, w', cb, qb. split; [exact Hrun|]. split; [exact Hlb|exact Hl].
Defined.

Lemma plus_list_new_list_witness :
  list_at (world_with [1; 2; 3]) 1%positive [1; 2; 3] 4 1%positive ∧
  ∃ b w' cb qb,
    plus_list 1%positive 1%positive 10%nat (world_with [1; 2; 3]) = Ok b w' ∧
    list_at w' b [1; 2; 3; 1; 2; 3] cb qb ∧
    list_at w' 1%positive [1; 2; 3] 4 1%positive.
Proof.
  split; [exact list_123|].
  destruct (plus_list_new_list 10%nat _ 1%positive 1%positive [1; 2; 3] 4 1%positive
              [1; 2; 3] 4 1%positive list_123 list_123)
    as [Hok _]; [simpl; lia|unfold MAX_CAPACITY, INT_MAX; simpl; lia|].
  destruct Hok as (b & w' & cb & qb & Hrun & _ & Hlb & Hl & _);
    [unfold MAX_CAPACITY, INT_MAX; simpl; lia|].
  exists b, w', cb, qb. split; [exact Hrun|]. split; [exact Hlb|exact Hl].
Defined.

Lemma minus_element_new_list_witness :
  list_at (world_with [1; 2; 1]) 1%positive [1; 2; 1] 4 1%positive ∧
  ∃ b w' cb qb,
    minus 1%positive (Val 1) 10%nat (world_with [1; 2; 1]) = Ok b w' ∧
    list_at w' b [2; 1] cb qb ∧
    list_at w' 1%positive [1; 2; 1] 4 1%positive.
Proof.
  split; [exact list_121|].
  destruct (minus_element_new_list 10%nat _ 1%positive [1; 2; 1] 4 1%positive (Val 1) 1
              list_121)
    as (b & w' & cb & qb & Hrun & _ & Hlb & Hl & _); [reflexivity|simpl; lia|].
  exists b, w', cb, qb. split; [exact Hrun|]. split; [exact Hlb|exact Hl].
Defined.

Lemma times_new_list_witness :
  list_at (world_with [1; 2; 3]) 1%positive [1; 2; 3] 4 1%positive ∧
  ∃ b w' cb qb,
    times_left 2 1%positive 10%nat (world_with [1; 2; 3]) = Ok b w' ∧
    list_at w' b [1; 2; 3; 1; 2; 3] cb qb ∧
    list_at w' 1%positive [1; 2; 3] 4 1%positive.
Proof.
  split; [exact list_123|].
  destruct (times_new_list 10%nat _ 1%positive [1; 2; 3] 4 1%positive 2 list_123)
    as (Hleft & _ & Hok & _);
    [unfold INT_MAX; lia|simpl; lia|simpl; lia
    |unfold MAX_CAPACITY, INT_MAX; simpl; lia|].
  destruct Hok as (b & w' & cb & qb & Hrun & _ & Hlb & Hl);
    [lia|unfold MAX_CAPACITY, INT_MAX; simpl; lia|].
  exists b, w', cb, qb. split; [by rewrite Hleft|]. split; [exact Hlb|exact Hl].
Defined.

Lemma slice_steps_witness :
  list_at (world_with [1; 2; 3]) 1%positive [1; 2; 3] 4 1%positive ∧
  slice 1%positive 0 3 0 10%nat (world_with [1; 2; 3])
    = Throw InvalidArgument (world_with [1; 2; 3]) ∧
  ∃ a w' ca qa,
    slice 1%positive (-1) (-4) (-1) 10%nat (world_with [1; 2; 3]) = Ok a w' ∧
    list_at w' a [3; 2; 1] ca qa.
Proof.
  split; [exact list_123|].
  destruct (slice_steps 10%nat _ 1%positive [1; 2; 3] 4 1%positive list_123)
    as [Hzero Hback]; [simpl; lia|].
  split; [exact (Hzero 0 3)|].
  destruct Hback as (a & w' & ca & qa & Hrun & _ & Hla & _); [discriminate|].
  exists a, w', ca, qa. split; [exact Hrun|exact Hla].
Defined.

Lemma constructors_build_witness :
  Z.of_nat (length [1; 2; 3]) ≤ MAX_CAPACITY ∧
  ∃ a w' q,
    List_of [1; 2; 3] 10%nat empty_world = Ok a w' ∧
    list_at w' a [1; 2; 3] 4 q ∧
    size a 10%nat w' = Ok 3 w'.
Proof.
  split; [unfold MAX_CAPACITY, INT_MAX; simpl; lia|].
  destruct (constructors_build 10%nat empty_world [1; 2; 3]) as [_ Hof].
  destruct Hof as (a & w' & q & Hrun & _ & Hla & Hsize & _);
    [unfold MAX_CAPACITY, INT_MAX; simpl; lia|simpl; lia|].
  exists a, w', q. split; [exact Hrun|]. split; [exact Hla|exact Hsize].
Defined.

Lemma traverse_visits_every_element_witness :
  list_at (world_with2 [1; 2; 3] [7; 8]) 1%positive [1; 2; 3] 4 1%positive ∧
  list_at (world_with2 [1; 2; 3] [7; 8]) 2%positive [7; 8] 4 2%positive ∧
  (∃ w' c' p',
     traverse 1%positive (append 2%positive) 10%nat (world_with2 [1; 2; 3] [7; 8])
       = Ok tt w' ∧
     list_at w' 2%positive [7; 8; 1; 2; 3] c' p' ∧
     list_at w' 1%positive [1; 2; 3] 4 1%positive) ∧
  ∃ w', traverse 1%positive (update_with Z.succ) 10%nat (world_with2 [1; 2; 3] [7; 8])
          = Ok tt w' ∧
        list_at w' 1%positive [2; 3; 4] 4 1%positive.
Proof.
  destruct lists_123_78 as [H1 H2]. split; [exact H1|]. split; [exact H2|].
  destruct (traverse_visits_every_element Z.succ 10%nat _ 1%positive [1; 2; 3] 4
              1%positive H1)
    as (Hlog & Hupd & _); [simpl; lia|].
  split.
  - destruct (Hlog 2%positive [7; 8] 4 2%positive H2)
      as (w' & c' & p' & Hrun & Hl2 & Hl1);
      [discriminate|discriminate|unfold MAX_CAPACITY, INT_MAX; simpl; lia|simpl; lia|].
    exists w', c', p'. split; [exact Hrun|]. split; [exact Hl2|exact Hl1].
  - destruct Hupd as (w' & Hrun & Hl). exists w'. split; [exact Hrun|exact Hl].
Defined.

Lemma concatenate_appends_all_witness :
  list_at (world_with2 [1; 2; 3] [7; 8]) 1%positive [1; 2; 3] 4 1%positive ∧
  list_at (world_with2 [1; 2; 3] [7; 8]) 2%positive [7; 8] 4 2%positive ∧
  ∃ w' c' p',
    concatenate 1%positive 2%positive 10%nat (world_with2 [1; 2; 3] [7; 8]) = Ok tt w' ∧
    list_at w' 1%positive [1; 2; 3; 7; 8] c' p' ∧
    list_at w' 2%positive [7; 8] 4 2%positive.
Proof.
  destruct lists_123_78 as [H1 H2]. split; [exact H1|]. split; [exact H2|].
  destruct (concatenate_appends_all 10%nat _ 1%positive 2%positive [1; 2; 3] 4 1%positive
              [7; 8] 4 2%positive H1 H2)
    as [Hok _];
    [discriminate|discriminate|unfold MAX_CAPACITY, INT_MAX; simpl; lia|].
  destruct Hok as (w' & c' & p' & Hrun & Hl1 & Hl2 & _);
    [unfold MAX_CAPACITY, INT_MAX; simpl; lia|].
  exists w', c', p'. split; [exact Hrun|]. split; [exact Hl1|exact Hl2].
Defined.

Lemma insert_own_element_witness :
  list_at (world_with [1; 2; 3; 4]) 1%positive [1; 2; 3; 4] 4 1%positive ∧
  insert 1%positive 0 (Slot 1%positive 3) 10%nat (world_with [1; 2; 3; 4])
    = Fault Dangling ∧
  list_at (world_with [1; 2; 3]) 1%positive [1; 2; 3] 4 1%positive ∧
  (∃ w', insert 1%positive 0 (Slot 1%positive 1) 10%nat (world_with [1; 2; 3]) = Ok tt w' ∧
         list_at w' 1%positive [1; 1; 2; 3] 4 1%positive) ∧
  (∃ w', append 1%positive (Slot 1%positive 1) 10%nat (world_with [1; 2; 3]) = Ok tt w' ∧
         list_at w' 1%positive [1; 2; 3; 2] 4 1%positive).
Proof.
  split; [exact list_1234|].
  split.
  { destruct (insert_own_element 10%nat _ 1%positive [1; 2; 3; 4] 4 1%positive 0 3 4
                list_1234)
      as [Hfull _]; [simpl; lia|reflexivity|simpl; lia|].
    destruct Hfull as [Hrun _]; [reflexivity|unfold MAX_CAPACITY, INT_MAX; lia|].
    exact Hrun. }
  split; [exact list_123|].
  destruct (insert_own_element 10%nat _ 1%positive [1; 2; 3] 4 1%positive 0 1 2 list_123)
    as [_ Hroom]; [simpl; lia|reflexivity|simpl; lia|].
  destruct Hroom as [(w1 & y & Hy & Hrun1 & Hl1) (w2 & Hrun2 & Hl2)]; [simpl; lia|].
  vm_compute in Hy. injection Hy as <-.
  split; [exists w1|exists w2]; (split; [assumption|assumption]).
Defined.
